(** * Swendson-Wang proposals on the Potts model (Models.py)

    A shallow embedding of [SwendsonWang.proposal], [SwendsonWang._fromNullSpace]
    and [SwendsonWang.initial], with the numpy and galois array operations they
    call, and the properties of the proposal step proved over it.

    Conventions of the embedding:
    - a galois [FieldArray] is an array of integers; its elements are [Z], the
      field they live in is the class [Galois] (order, characteristic and the
      field operations), and the laws the proofs use are the class
      [GaloisLaws];
    - a one-dimensional array is a [list Z]; a two-dimensional array is a
      [Matrix], its shape together with its rows;
    - Python exceptions are the type [exn]; a call returns a [result];
    - what a call mutates is passed explicitly: the per-edge [spin] slots of the
      lattice, the number of draws taken from each random source, and the
      diagnostic output ([World]);
    - a float is a [float]: a finite one is the rational it denotes, and the
      arithmetic on floats rounds to the nearest one; [np.exp] is a
      parameter. *)

From stdpp Require Import base decidable option list numbers gmap.
From Stdlib Require Import ZArith QArith Qround Qabs Lia.

Close Scope Q_scope.
Close Scope Z_scope.

(** ** Exceptions *)

Inductive exn : Set := IndexError | ValueError | TypeError | OverflowError.

Inductive result (A : Type) : Type :=
| Ok (a : A)
| Raise (e : exn).
Arguments Ok {A} a.
Arguments Raise {A} e.

Definition bind {A B} (r : result A) (k : A → result B) : result B :=
  match r with
  | Ok a => k a
  | Raise e => Raise e
  end.

(** ** The finite field (galois.GF) *)

Class Galois := {
  order : Z;
  characteristic : Z;
  fadd : Z → Z → Z;
  fmul : Z → Z → Z;
  fneg : Z → Z;
}.

(** The integers that are elements of the field. *)
Definition valid `{Galois} (x : Z) : Prop := (0 ≤ x < order)%Z.

Class GaloisLaws `{Galois} : Prop := {
  order_gt_1 : (1 < order)%Z;
  characteristic_range : (0 < characteristic ≤ order)%Z;
  fadd_valid x y : valid x → valid y → valid (fadd x y);
  fmul_valid x y : valid x → valid y → valid (fmul x y);
  fneg_valid x : valid x → valid (fneg x);
  fadd_comm x y : fadd x y = fadd y x;
  fadd_assoc x y z : fadd x (fadd y z) = fadd (fadd x y) z;
  fmul_comm x y : fmul x y = fmul y x;
  fmul_assoc x y z : fmul x (fmul y z) = fmul (fmul x y) z;
  fmul_fadd_distr x y z : fmul x (fadd y z) = fadd (fmul x y) (fmul x z);
  fadd_0_l x : valid x → fadd 0 x = x;
  fmul_1_l x : valid x → fmul 1 x = x;
  fmul_0_l x : fmul 0 x = 0%Z;
  fadd_fneg x : valid x → fadd x (fneg x) = 0%Z;
}.

(** The prime field of order [p]: arithmetic modulo [p]. *)
Definition prime_field (p : Z) : Galois := {|
  order := p;
  characteristic := p;
  fadd x y := ((x + y) mod p)%Z;
  fmul x y := ((x * y) mod p)%Z;
  fneg x := ((- x) mod p)%Z;
|}.

(** The field of order 4, of characteristic 2: the integers 0..3 stand for
    the polynomials 0, 1, x, x + 1 over GF(2) modulo x^2 + x + 1; addition is
    bitwise exclusive or. *)
Definition gf4_mul (x y : Z) : Z :=
  match x, y with
  | 1, _ => y
  | _, 1 => x
  | 2, 2 => 3
  | 2, 3 => 1
  | 3, 2 => 1
  | 3, 3 => 2
  | _, _ => 0
  end%Z.

Definition GF4 : Galois := {|
  order := 4;
  characteristic := 2;
  fadd x y := Z.lxor (x mod 4) (y mod 4);
  fmul x y := gf4_mul (x mod 4) (y mod 4);
  fneg x := (x mod 4)%Z;
|}.

(** ** Arrays *)

Record Matrix : Set := mkMatrix {
  nrows : nat;
  ncols : nat;
  rows : list (list Z);
}.

(** [np.zeros((n, m), dtype=int)] *)
Definition np_zeros (n m : nat) : Matrix :=
  mkMatrix n m (replicate n (replicate m 0%Z)).

(** [A[i, j]]; entries outside the stored rows read as 0. *)
Definition entry (A : Matrix) (i j : nat) : Z :=
  default 0%Z (rows A !! i ≫= λ r, r !! j).

(** [A[:, j]] *)
Definition column (j : nat) (A : Matrix) : list Z :=
  map (λ r, default 0%Z (r !! j)) (rows A).

(** [A[i, j] = x]: an index outside the shape raises [IndexError]. *)
Definition setitem2 (A : Matrix) (i j : nat) (x : Z) : result Matrix :=
  if decide (i < nrows A ∧ j < ncols A)
  then Ok (mkMatrix (nrows A) (ncols A) (alter (λ r, <[j:=x]> r) i (rows A)))
  else Raise IndexError.

(** [A.T] *)
Definition transpose (A : Matrix) : Matrix :=
  mkMatrix (ncols A) (nrows A) (map (λ j, column j A) (seq 0 (ncols A))).

(** The stored rows agree with the shape. *)
Definition wf_matrix (A : Matrix) : Prop :=
  length (rows A) = nrows A ∧ Forall (λ r, length r = ncols A) (rows A).

Section Field.
Context `{GF : Galois}.

(** [lattice.field(a)]: the array constructor of the field refuses integers
    outside [0, order). *)
Definition FieldArray (a : list Z) : result (list Z) :=
  if decide (Forall valid a) then Ok a else Raise ValueError.

(** The integers of the type [int] of numpy (C long, 64 bits). *)
Definition c_long (x : Z) : Prop := (- 2 ^ 63 ≤ x < 2 ^ 63)%Z.

(** [GF(np.array(a))] on a list of C longs: the array of an empty list is an
    array of floats, which the field refuses. *)
Definition FieldArray_of_list (a : list Z) : result (list Z) :=
  match a with
  | [] => Raise TypeError
  | _ => FieldArray a
  end.

Definition FieldArray2 (A : Matrix) : result Matrix :=
  if decide (Forall (Forall valid) (rows A)) then Ok A else Raise ValueError.

(** The inner product of two field vectors. *)
Definition dot (r c : list Z) : Z :=
  foldr fadd 0%Z (zip_with fmul r c).

(** [np.matmul(A, B)] on field arrays: the inner dimensions must agree. *)
Definition np_matmul (A B : Matrix) : result Matrix :=
  if decide (ncols A = nrows B)
  then Ok (mkMatrix (nrows A) (ncols B)
             (map (λ r, map (λ j, dot r (column j B)) (seq 0 (ncols B)))
                  (rows A)))
  else Raise ValueError.

(** The matrix-vector product [A x]. *)
Definition matvec (A : Matrix) (x : list Z) : list Z :=
  map (λ r, dot r x) (rows A).

(** [np.add(x, y)] on one-dimensional field arrays, with numpy's
    broadcasting of an array of length 1. *)
Definition np_add (x y : list Z) : result (list Z) :=
  if decide (length x = length y) then Ok (zip_with fadd x y)
  else match x, y with
       | [a], _ => Ok (map (fadd a) y)
       | _, [b] => Ok (map (λ a, fadd a b) x)
       | _, _ => Raise ValueError
       end.

(** [c * b] for a Python integer [c] and a field array [b]: galois reduces
    the integer modulo the characteristic and multiplies in the field. *)
Definition scalar (c : Z) (b : list Z) : list Z :=
  map (fmul (c mod characteristic)%Z) b.

End Field.

(** [functools.reduce(f, l)] without an initial value: raises [TypeError] on
    an empty sequence. *)
Definition reduce {A} (f : A → A → result A) (l : list A) : result A :=
  match l with
  | [] => Raise TypeError
  | x :: xs => foldl (λ acc y, bind acc (λ a, f a y)) (Ok x) xs
  end.

(** ** The data model: cells, lattice, chain *)

Record Vertex : Set := mkVertex { vindex : nat }.

Record Edge : Set := mkEdge {
  eindex : nat;
  coordinates : Vertex * Vertex;
  spin : Z;
}.

(** [edge.spin = s] *)
Definition set_spin (s : Z) (e : Edge) : Edge :=
  mkEdge (eindex e) (coordinates e) s.

(** [lattice.structure[0]], [lattice.structure[1]] and [lattice.boundary];
    [lattice.field] is the [Galois] instance in scope. *)
Record Lattice : Set := mkLattice {
  structure0 : list Vertex;
  structure1 : list Edge;
  boundary : Matrix;
}.

Record Chain : Set := mkChain {
  lattice : Lattice;
  state : list Z;
  step : Z;
}.

(** ** Floats (numpy.float64)

    A finite float is the rational it denotes; the zero has no sign, which
    no comparison reads. *)

Inductive float : Set :=
| Finite (x : Q)
| PosInf
| NegInf
| NaN.

(** [q < p] on rationals. *)
Definition Qltb (q p : Q) : bool := negb (Qle_bool p q).

(** The integer [k] with [2^k <= x < 2^(k+1)], for a positive [x]. *)
Definition floor_log2 (x : Q) : Z :=
  let k := (Z.log2 (Qnum x) - Z.log2 (Z.pos (Qden x)))%Z in
  if Qle_bool (Qpower 2 k) x then k else (k - 1)%Z.

(** The integer nearest to [x]; of two that are equally near, the even
    one. *)
Definition round_half_even (x : Q) : Z :=
  let n := Qfloor x in
  match ((x - inject_Z n) ?= 1 # 2)%Q with
  | Lt => n
  | Gt => (n + 1)%Z
  | Eq => if Z.even n then n else (n + 1)%Z
  end.

(** The float nearest to the real [x], as the arithmetic of the floats
    rounds: 53 significant bits, no exponent below that of the subnormal
    numbers, and an infinity from [2^1024] on. *)
Definition round_float (x : Q) : float :=
  if Qeq_bool x 0 then Finite 0
  else
    let e := Z.max (floor_log2 (Qabs x) - 52) (-1074) in
    let m := round_half_even (x / Qpower 2 e)%Q in
    let y := Qred (inject_Z m * Qpower 2 e)%Q in
    if Qle_bool (Qpower 2 1024) (Qabs y)
    then (if Qltb 0 x then PosInf else NegInf)
    else Finite y.

(** [x - y] on floats. *)
Definition float_sub (x y : float) : float :=
  match x, y with
  | NaN, _ | _, NaN => NaN
  | Finite a, Finite b => round_float (a - b)
  | Finite _, PosInf => NegInf
  | Finite _, NegInf => PosInf
  | PosInf, PosInf => NaN
  | PosInf, _ => PosInf
  | NegInf, NegInf => NaN
  | NegInf, _ => NegInf
  end.

(** [x * y] on floats. *)
Definition float_mul (x y : float) : float :=
  match x, y with
  | NaN, _ | _, NaN => NaN
  | Finite a, Finite b => round_float (a * b)
  | Finite a, (PosInf | NegInf) | (PosInf | NegInf), Finite a =>
      if Qeq_bool a 0 then NaN
      else if Qltb 0 a then (match x, y with
                             | PosInf, _ | _, PosInf => PosInf
                             | _, _ => NegInf
                             end)
      else (match x, y with
            | PosInf, _ | _, PosInf => NegInf
            | _, _ => PosInf
            end)
  | PosInf, PosInf | NegInf, NegInf => PosInf
  | PosInf, NegInf | NegInf, PosInf => NegInf
  end.

(** [x < y] on floats: false when one of them is the NaN. *)
Definition float_ltb (x y : float) : bool :=
  match x, y with
  | NaN, _ | _, NaN => false
  | Finite a, Finite b => Qltb a b
  | Finite _, PosInf => true
  | Finite _, NegInf => false
  | PosInf, _ => false
  | NegInf, NegInf => false
  | NegInf, _ => true
  end.

(** [x <= y] on floats: false when one of them is the NaN. *)
Definition float_leb (x y : float) : bool :=
  match x, y with
  | NaN, _ | _, NaN => false
  | Finite a, Finite b => Qle_bool a b
  | Finite _, PosInf => true
  | Finite _, NegInf => false
  | PosInf, PosInf => true
  | PosInf, _ => false
  | NegInf, _ => true
  end.

Arguments round_float : simpl never.
Arguments float_sub : simpl never.
Arguments float_mul : simpl never.
Arguments float_ltb : simpl never.
Arguments float_leb : simpl never.

(** What the diagnostic mode prints or writes; the standard output and the
    files under ./output/matrices are taken to accept every write. *)
Inductive Event : Set :=
| PrintIncluded (u v : Vertex) (q : Q) (p : float)
| CsvState (step : Z) (st : list Z)
| CsvOperator (step : Z) (op : Matrix)
| PrintProposed (proposed : list Z).

(** The state outside the chain that a call reads and writes: how many
    numbers were drawn from [np.random.uniform] and from the discrete
    distribution, and the diagnostic output so far. *)
Record World : Set := mkWorld {
  draws : nat;
  samples : nat;
  out : list Event;
}.

Definition tick_draw (w : World) : World :=
  mkWorld (S (draws w)) (samples w) (out w).
Definition tick_sample (w : World) : World :=
  mkWorld (draws w) (S (samples w)) (out w).
Definition emit (e : Event) (w : World) : World :=
  mkWorld (draws w) (samples w) (out w ++ [e]).

(** ** The model *)

Record SwendsonWang : Type := mkSwendsonWang {
  temperature : Z → float;
  accept : Chain → bool;
  testing : bool;
}.

(** The primitives the model calls and this repository does not define. *)
Class Providers := {
  (** [np.exp] *)
  np_exp : float → float;
  (** [np.random.uniform()]: the k-th number the generator yields, a finite
      float. *)
  np_random_uniform : nat → Q;
  (** [distributions.uniform(low, high)]: the k-th integer it yields. *)
  uniform : nat → Z → Z → Z;
  (** [np.array(xs).astype(int)] on a list of Python integers: the array
      of C longs with these values, or the exception numpy raises when they
      do not all fit. *)
  np_array_astype_int : list Z → result (list Z);
  (** [FieldArray.null_space()]: the rows of the result are the basis. *)
  null_space : Matrix → Matrix;
}.

Section SwendsonWang.
Context `{GF : Galois} `{PV : Providers}.

(** The body of the loop over the edges (Models.py, lines 53-83): the
    selector and the world after the edge, and the edge with its [spin]
    slot written. *)
Definition scan_edge (self : SwendsonWang) (state : list Z) (step : Z)
    (edge : Edge) (included : Matrix) (w : World)
    : result Matrix * Edge * World :=
  let '(u, v) := coordinates edge in
  match state !! vindex u with
  | None => (Raise IndexError, edge, w)
  | Some su =>
    match state !! vindex v with
    | None => (Raise IndexError, edge, w)
    | Some sv =>
      if decide (su ≠ sv) then
        (Ok included, set_spin 0 edge, w)
      else
        let p := float_sub (Finite 1) (np_exp (temperature self step)) in
        let q := np_random_uniform (draws w) in
        let w := tick_draw w in
        if float_ltb (Finite q) p then
          let w := if testing self then emit (PrintIncluded u v q p) w else w in
          match setitem2 included (eindex edge) (eindex edge) 1 with
          | Raise e => (Raise e, edge, w)
          | Ok included => (Ok included, set_spin 1 edge, w)
          end
        else
          (Ok included, set_spin 0 edge, w)
    end
  end.

(** The loop [for edge in lattice.structure[1]] (lines 52-83). An exception
    leaves the edges already visited written and the others untouched. *)
Fixpoint scan (self : SwendsonWang) (state : list Z) (step : Z)
    (edges : list Edge) (included : Matrix) (w : World)
    : result Matrix * list Edge * World :=
  match edges with
  | [] => (Ok included, [], w)
  | edge :: rest =>
    match scan_edge self state step edge included w with
    | (Raise e, edge', w') => (Raise e, edge' :: rest, w')
    | (Ok included', edge', w') =>
      let '(r, rest', w'') := scan self state step rest included' w' in
      (r, edge' :: rest', w'')
    end
  end.

(** [[uniform(0, chain.lattice.field.order)*b for b in basis]] *)
Fixpoint combination (basis : list (list Z)) (w : World)
    : list (list Z) * World :=
  match basis with
  | [] => ([], w)
  | b :: bs =>
    let c := uniform (samples w) 0%Z order in
    let '(ts, w') := combination bs (tick_sample w) in
    (scalar c b :: ts, w')
  end.

(** [SwendsonWang._fromNullSpace(chain, boundary)] (lines 107-127). *)
Definition fromNullSpace (chain : Chain) (boundary : Matrix) (w : World)
    : result (list Z) * World :=
  let coboundary := transpose boundary in
  let basis := null_space coboundary in
  let '(terms, w) := combination (rows basis) w in
  (reduce np_add terms, w).

Definition with_edges (chain : Chain) (edges : list Edge) : Chain :=
  mkChain
    (mkLattice (structure0 (lattice chain)) edges (boundary (lattice chain)))
    (state chain) (step chain).

(** [SwendsonWang.proposal(self, chain)] (lines 34-105): the returned value
    or the exception, the chain and the world after the call. *)
Definition proposal (self : SwendsonWang) (chain : Chain) (w : World)
    : result (list Z) * Chain * World :=
  let lattice := lattice chain in
  let state := state chain in
  let M := length (structure1 lattice) in
  match FieldArray2 (np_zeros M M) with
  | Raise e => (Raise e, chain, w)
  | Ok included =>
    let '(r, edges, w) :=
      scan self state (step chain) (structure1 lattice) included w in
    let chain := with_edges chain edges in
    match r with
    | Raise e => (Raise e, chain, w)
    | Ok included =>
      match np_matmul (boundary lattice) included with
      | Raise e => (Raise e, chain, w)
      | Ok boundary =>
        let w :=
          if testing self
          then emit (CsvOperator (step chain) boundary)
                 (emit (CsvState (step chain) state) w)
          else w in
        let coboundary := transpose boundary in
        let basis := null_space coboundary in
        let '(terms, w) := combination (rows basis) w in
        match reduce np_add terms with
        | Raise e => (Raise e, chain, w)
        | Ok proposed =>
          let w := if testing self then emit (PrintProposed proposed) w else w in
          (Ok proposed, chain, w)
        end
      end
    end
  end.

(** [[distribution(0, lattice.field.order) for _ in range(n)]] *)
Fixpoint draw_cocycle (distribution : nat → Z → Z → Z) (n : nat) (w : World)
    : list Z * World :=
  match n with
  | O => ([], w)
  | S n =>
    let x := distribution (samples w) 0%Z order in
    let '(xs, w') := draw_cocycle distribution n (tick_sample w) in
    (x :: xs, w')
  end.

(** [SwendsonWang.initial(self, lattice, distribution)] (lines 130-152): the
    returned state or the exception, the lattice and the world after the
    call. The numbers are drawn in both modes (line 146). The testing branch
    (line 151) hands the field an array built from a list of ones, without a
    conversion; the other branch (line 152) converts the numbers drawn with
    [astype(int)] first. *)
Definition initial (self : SwendsonWang) (lattice : Lattice)
    (distribution : nat → Z → Z → Z) (w : World)
    : result (list Z) * Lattice * World :=
  let vertices := structure0 lattice in
  let '(cocycle, w) := draw_cocycle distribution (length vertices) w in
  if testing self
  then (FieldArray_of_list (replicate (length vertices) 1%Z), lattice, w)
  else (bind (np_array_astype_int cocycle) FieldArray, lattice, w).

(** *** Vocabulary of the statements *)

(** The inclusion probability [p = 1 - np.exp(self.temperature(chain.step))]
    of line 70, a float. *)
Definition probability (self : SwendsonWang) (step : Z) : float :=
  float_sub (Finite 1) (np_exp (temperature self step)).

(** Both endpoints of the edge index the state vector. *)
Definition endpoints_in_range (state : list Z) (e : Edge) : Prop :=
  vindex (coordinates e).1 < length state
  ∧ vindex (coordinates e).2 < length state.

(** The spins at the two endpoints of the edge are equal. *)
Definition same_spin (state : list Z) (e : Edge) : bool :=
  bool_decide
    (state !! vindex (coordinates e).1 = state !! vindex (coordinates e).2).

(** The number of draws taken from [np.random.uniform] when the scan reaches
    the edge at position [i], [d] of them having been taken before the
    scan: one for every earlier edge whose endpoints carry equal spins. *)
Fixpoint draw_index (state : list Z) (edges : list Edge) (d i : nat) : nat :=
  match i, edges with
  | S i, e :: rest =>
    draw_index state rest (if same_spin state e then S d else d) i
  | _, _ => d
  end.

(** The decision taken for an edge whose draw is the [d]-th one. *)
Definition flag (self : SwendsonWang) (state : list Z) (step : Z)
    (e : Edge) (d : nat) : Z :=
  if same_spin state e
     && float_ltb (Finite (np_random_uniform d)) (probability self step)
  then 1%Z else 0%Z.

(** The edges can be scanned without an index error: their indices fit an
    [M]x[M] selector and their endpoints index the state. *)
Definition edges_in_range (state : list Z) (M : nat) (edges : list Edge)
    : Prop :=
  Forall (λ e, eindex e < M ∧ endpoints_in_range state e) edges.

(** The selector after the scan of a call to [proposal], when the scan
    completes. *)
Definition selector (self : SwendsonWang) (chain : Chain) (w : World)
    : result Matrix :=
  let M := length (structure1 (lattice chain)) in
  (scan self (state chain) (step chain) (structure1 (lattice chain))
     (np_zeros M M) w).1.1.

(** The local [boundary] of a call to [proposal] after line 87: the product
    of the boundary operator of the lattice with the selector of the
    call. *)
Definition induced_boundary (self : SwendsonWang) (chain : Chain) (w : World)
    : result Matrix :=
  bind (selector self chain w) (np_matmul (boundary (lattice chain))).

(** The field vector [x] is in the null space of [C]. *)
Definition in_null_space (C : Matrix) (x : list Z) : Prop :=
  length x = ncols C ∧ matvec C x = replicate (nrows C) 0%Z.

(** The vector of length [n] that is [x] at position [i] and 0 elsewhere. *)
Definition unit_vector (n i : nat) (x : Z) : list Z :=
  <[i:=x]> (replicate n 0%Z).

(** Modelled from the spec: the construction of [lattice.boundary] is not
    among the sources; the spec has it map each 1-cell to the signed
    combination of its boundary 0-cells. For an edge from the vertex of
    index [a] to the vertex of index [b] this is the column [b - a]: -1 at
    [a], 1 at [b], and the zero column for a loop. *)
Definition incidence_column (n a b : nat) : list Z :=
  zip_with fadd (unit_vector n a (fneg 1)) (unit_vector n b 1%Z).

(** Every column of the boundary operator is the incidence column of its
    edge, in one of the two orientations. *)
Definition is_incidence (L : Lattice) : Prop :=
  Forall
    (λ e, let n := nrows (boundary L) in
          let u := vindex (coordinates e).1 in
          let v := vindex (coordinates e).2 in
          column (eindex e) (boundary L) = incidence_column n u v
          ∨ column (eindex e) (boundary L) = incidence_column n v u)
    (structure1 L).

(** The boundary operator has one column per edge and holds field
    elements. *)
Definition wf_boundary (L : Lattice) : Prop :=
  wf_matrix (boundary L)
  ∧ ncols (boundary L) = length (structure1 L)
  ∧ Forall (Forall valid) (rows (boundary L)).

End SwendsonWang.

(** ** Sample inputs

    The inputs at which the theorems below are instantiated. *)

Definition GF2 : Galois := prime_field 2.
Definition GF3 : Galois := prime_field 3.

(** The (1,1) Pade approximant of the exponential. *)
Definition exp_pade (x : Q) : Q := ((2 + x) / (2 - x))%Q.

(** A stand-in for [np.exp], computed on floats: the approximant at
    [x / 1024], squared ten times. It is positive for every finite argument
    that does not underflow, and overflows to the infinity. *)
Definition exp_sample (t : float) : float :=
  match t with
  | Finite x =>
      Nat.iter 10 (λ y, float_mul y y) (round_float (exp_pade (x / 1024)))
  | PosInf => PosInf
  | NegInf => Finite 0
  | NaN => NaN
  end.

(** A stand-in for the conversion: it keeps a list of C longs as it is and
    refuses every other list. *)
Definition astype_sample (xs : list Z) : result (list Z) :=
  if decide (Forall c_long xs) then Ok xs else Raise OverflowError.

(** Providers whose generator always yields 1/2, whose distribution yields
    1, 2, ... within the bounds, and whose [null_space] returns [basis]. *)
Definition sample_providers (basis : Matrix) : Providers := {|
  np_exp := exp_sample;
  np_random_uniform := λ _, (1 # 2)%Q;
  uniform := λ k low high, (low + Z.of_nat (S k) mod (high - low))%Z;
  np_array_astype_int := astype_sample;
  null_space := λ _, basis;
|}.

(** The floats that [np.exp] returns at -3 and at -40; elsewhere the
    stand-in. *)
Definition exp_table (t : float) : float :=
  match t with
  | Finite x =>
      if Qeq_bool x (-3)
      then Finite (7175072721580207 # 144115188075855872)
      else if Qeq_bool x (-40)
      then Finite (1378669778355849 # 324518553658426726783156020576256)
      else exp_sample t
  | _ => exp_sample t
  end.

(** Providers with these values of [np.exp], whose generator always yields
    the float [1 - np.exp(-3)], the real [1 - exp(-3)] rounded down. *)
Definition rounding_providers (basis : Matrix) : Providers := {|
  np_exp := exp_table;
  np_random_uniform := λ _, (8558757209642229 # 9007199254740992)%Q;
  uniform := λ k low high, (low + Z.of_nat (S k) mod (high - low))%Z;
  np_array_astype_int := astype_sample;
  null_space := λ _, basis;
|}.

(** The model with the constant schedule [t], not in testing mode. *)
Definition model (t : Q) : SwendsonWang :=
  mkSwendsonWang (λ _, Finite t) (λ _, true) false.

Definition v0 : Vertex := mkVertex 0.
Definition v1 : Vertex := mkVertex 1.
Definition v2 : Vertex := mkVertex 2.

(** A triangle over GF(3); the edge from v1 to v2 still carries the flag of an
    earlier call. Column [e] of the boundary operator is -1 = 2 at the first
    endpoint of [e] and 1 at the second. *)
Definition triangle : Lattice :=
  mkLattice [v0; v1; v2]
    [mkEdge 0 (v0, v1) 0; mkEdge 1 (v1, v2) 1; mkEdge 2 (v0, v2) 0]
    (mkMatrix 3 3 [[2; 0; 2]; [1; 2; 0]; [0; 1; 1]]%Z).

(** The spins of v0 and v1 agree, that of v2 differs. *)
Definition triangle_chain : Chain := mkChain triangle [1; 1; 2]%Z 0.

(** A basis of the null space of the induced coboundary of [triangle_chain]
    when the edge from v0 to v1 alone is included: one vector per cluster. *)
Definition two_clusters : Matrix := mkMatrix 2 3 [[1; 1; 0]; [0; 0; 1]]%Z.

(** One vertex and one edge over GF(2), with a boundary operator whose only
    column does not cancel: the induced coboundary [[1]] has the zero vector
    as its only null vector, and its null-space basis is empty. *)
Definition pendant : Lattice :=
  mkLattice [v0] [mkEdge 0 (v0, v0) 0] (mkMatrix 1 1 [[1]]%Z).

Definition pendant_chain : Chain := mkChain pendant [0]%Z 0.

Definition empty_basis : Matrix := mkMatrix 0 1 [].

(** A malformed lattice: two edges share the index 0. *)
Definition doubled : Lattice :=
  mkLattice [v0; v1; v2] [mkEdge 0 (v0, v1) 0; mkEdge 0 (v1, v2) 0]
    (mkMatrix 3 2 [[2; 0]; [1; 2]; [0; 1]]%Z).

Definition doubled_chain : Chain := mkChain doubled [1; 1; 2]%Z 0.

Definition world0 : World := mkWorld 0 0 [].

(** The lattice without cells. *)
Definition no_cells : Lattice := mkLattice [] [] (mkMatrix 0 0 []).

(** The model in testing mode, with the constant schedule [t]. *)
Definition testing_model (t : Q) : SwendsonWang :=
  mkSwendsonWang (λ _, Finite t) (λ _, true) true.

(** A distribution within its bounds: always the lower bound. *)
Definition lowest (k : nat) (low high : Z) : Z := low.

(** A distribution within its bounds: always the greatest element. *)
Definition highest (k : nat) (low high : Z) : Z := (high - 1)%Z.

(** The prime field of order 2^64 + 13, whose greatest elements are not C
    longs. *)
Definition GF_wide : Galois := prime_field (2 ^ 64 + 13).

(** ** Further vocabulary *)

(** The model with its diagnostics switched off. *)
Definition quiet (self : SwendsonWang) : SwendsonWang :=
  mkSwendsonWang (temperature self) (accept self) false.

(** A line printed for an included edge. *)
Definition is_PrintIncluded (ev : Event) : Prop :=
  match ev with
  | PrintIncluded _ _ _ _ => True
  | _ => False
  end.

(** Two edges that agree on everything but their [spin] slot. *)
Definition same_cell (e e' : Edge) : Prop :=
  eindex e' = eindex e ∧ coordinates e' = coordinates e.

(** ** Further sample inputs *)

(** The triangle with the endpoint of its second edge outside the state. *)
Definition stray : Lattice :=
  mkLattice [v0; v1; v2]
    [mkEdge 0 (v0, v1) 0; mkEdge 1 (v1, mkVertex 7) 0; mkEdge 2 (v0, v2) 1]
    (boundary triangle).

Definition stray_chain : Chain := mkChain stray [1; 1; 2]%Z 0.

(** The triangle with a second edge between v0 and v1 whose index, 5, does
    not fit the 3x3 selector. *)
Definition misnumbered : Lattice :=
  mkLattice [v0; v1; v2]
    [mkEdge 0 (v0, v1) 0; mkEdge 5 (v1, v0) 0; mkEdge 2 (v0, v2) 1]
    (boundary triangle).

Definition misnumbered_chain : Chain := mkChain misnumbered [1; 1; 2]%Z 0.

(** The triangle with a boundary operator that lacks a column. *)
Definition narrow : Lattice :=
  mkLattice [v0; v1; v2] (structure1 triangle)
    (mkMatrix 3 2 [[2; 0]; [1; 2]; [0; 1]]%Z).

Definition narrow_chain : Chain := mkChain narrow [1; 1; 2]%Z 0.

(** The triangle on the state of the testing fixture. *)
Definition fixture_chain : Chain := mkChain triangle [1; 1; 1]%Z 0.

(** The basis of the constant assignments. *)
Definition one_cluster : Matrix := mkMatrix 1 3 [[1; 1; 1]]%Z.

(** ** The shortest essential cycle (potts/viz/lattice.py)

    [shortestPath] of the plotting module, on the lattice interface that
    module uses: [L.skeleta] (a dictionary from dimension to number of
    cells), [L.boundary] (for every cell the indices of the cells of its
    boundary), [L.cells] (every cell with the coordinates that encode it)
    and [L.corners]. The graph library is not part of the repository:
    building the graph and [rx.cycle_basis] are arguments of the model. *)

Module Viz.

Inductive exn : Set := KeyError | IndexError | ValueError | TypeError.

Inductive result (A : Type) : Type :=
| Ok (a : A)
| Raise (e : exn).
Arguments Ok {A} a.
Arguments Raise {A} e.

#[export] Instance result_ret : MRet result := @Ok.
#[export] Instance result_bind : MBind result := λ A B f r,
  match r with
  | Ok a => f a
  | Raise e => Raise e
  end.

Record Cell : Set := mkCell { encoding : list (Z * Z) }.

Record Lattice : Type := mkLattice {
  skeleta : gmap nat nat;
  boundary : list (list nat);
  cells : list Cell;
  corners : Z * Z;
}.

(** [d[k]] on a dictionary. *)
Definition getkey (d : gmap nat nat) (k : nat) : result nat :=
  match d !! k with
  | Some x => Ok x
  | None => Raise KeyError
  end.

(** [l[i]] on a sequence, for an index that is not negative. *)
Definition getitem {A} (l : list A) (i : nat) : result A :=
  match l !! i with
  | Some x => Ok x
  | None => Raise IndexError
  end.

(** [l[-1]] *)
Definition last_item {A} (l : list A) : result A :=
  match last l with
  | Some x => Ok x
  | None => Raise IndexError
  end.

(** [l[start:stop]] for a start that is not negative: a negative stop
    counts from the end. *)
Definition py_slice {A} (l : list A) (start : nat) (stop : Z) : list A :=
  let n := Z.of_nat (length l) in
  let stop' := if decide (stop < 0)%Z then Z.max 0 (n + stop) else Z.min stop n in
  drop start (take (Z.to_nat stop') l).

(** [range(start, stop, step)]: a zero step raises [ValueError]. *)
Definition py_range (start stop step : Z) : result (list Z) :=
  if decide (step = 0)%Z then Raise ValueError
  else
    let n := if decide (0 < step)%Z
             then ((stop - start + step - 1) `div` step)%Z
             else ((start - stop - step - 1) `div` (- step))%Z in
    Ok ((λ i, start + i * step)%Z <$> seqZ 0 n).

(** [[tuple(e) for i, e in enumerate(rows) if assignment[i]]], [i] being the
    position of the first row. *)
Fixpoint occupied (rows : list (list nat)) (assignment : list Z) (i : nat)
    : result (list (list nat)) :=
  match rows with
  | [] => Ok []
  | e :: rest =>
    a ← getitem assignment i;
    rest' ← occupied rest assignment (S i);
    Ok (if decide (a ≠ 0%Z) then e :: rest' else rest')
  end.

(** The dictionary [antipodes] before its values are turned into sets: the
    four corners, then one entry for every inner vertex of the bottom row
    and of the left column. A later entry replaces an earlier one with the
    same key. *)
Definition antipodes (w h : Z) : result (gmap Z (list Z)) :=
  let corner : gmap Z (list Z) :=
    <[(w * h - 1)%Z := [w - 1; w * (h - 1)]%Z]>
      (<[(w * (h - 1))%Z := [0; w * h - 1]%Z]>
         (<[(w - 1)%Z := [0; w * h - 1]%Z]>
            (<[0%Z := [w - 1; w * (h - 1)]%Z]> ∅))) in
  let bottom := seqZ 1 (w - 2) in
  left ← py_range w (w * (h - 1)) w;
  Ok (foldl (λ m k, <[k := [k + w - 1]%Z]> m)
        (foldl (λ m k, <[k := [k + w * (h - 1)]%Z]> m) corner bottom)
        left).

(** The test of the second filter on a cycle [c]: all of it lies on the
    boundary, or it holds a boundary vertex together with one of its
    antipodes and enough interior vertices. *)
Definition essential_candidate (anti : gmap Z (gset Z)) (bnd interior : gset Z)
    (m : Z) (c : list nat) : Prop :=
  let sc : gset Z := list_to_set (Z.of_nat <$> c) in
  sc ⊆ bnd
  ∨ (Exists (λ f, match anti !! Z.of_nat f with
                  | Some s => sc ∩ s ≠ ∅
                  | None => False
                  end) c
     ∧ (m ≤ Z.of_nat (size (sc ∩ interior)))%Z).

#[export] Instance essential_candidate_dec anti bnd interior m c :
  Decision (essential_candidate anti bnd interior m c).
Proof.
  unfold essential_candidate. apply or_dec; [apply _|].
  apply and_dec; [|apply _]. apply Exists_dec. intros f.
  destruct (anti !! Z.of_nat f); apply _.
Defined.

(** [sorted(B, key=len)]: the sort is stable; insertion from the right puts
    a cycle before the cycles of the same length that come after it. *)
Fixpoint insert_by_length (c : list nat) (l : list (list nat))
    : list (list nat) :=
  match l with
  | [] => [c]
  | d :: l' =>
    if decide (length c ≤ length d) then c :: l
    else d :: insert_by_length c l'
  end.

Definition sorted_by_length (B : list (list nat)) : list (list nat) :=
  foldr insert_by_length [] B.

(** [(L.cells[u].encoding[0], L.cells[v].encoding[0])] *)
Definition endpoints (L : Lattice) (uv : nat * nat)
    : result ((Z * Z) * (Z * Z)) :=
  cu ← getitem (cells L) uv.1;
  pu ← getitem (encoding cu) 0;
  cv ← getitem (cells L) uv.2;
  pv ← getitem (encoding cv) 0;
  Ok (pu, pv).

(** The cycles that pass the two filters (lines 42-49), for the corners
    [(w, h)] and [n0] nodes. *)
Definition essential_cycles (w h : Z) (n0 : nat)
    (anti : gmap Z (list Z)) (B : list (list nat)) : list (list nat) :=
  let anti : gmap Z (gset Z) := list_to_set <$> anti in
  let bnd : gset Z := dom anti in
  let interior : gset Z := list_to_set (Z.of_nat <$> seq 0 n0) ∖ bnd in
  let B := filter (λ c, (Z.min w h ≤ Z.of_nat (length c))%Z) B in
  filter (essential_candidate anti bnd interior (Z.min w h)) B.

(** [shortestPath(L, assignment)] (lines 10-63). The graph library is kept
    as two arguments: [PyGraph] builds the graph of lines 12-19 from the
    number of its nodes and the list of its edges, and may refuse them;
    [cycle_basis] is [rx.cycle_basis]. The graph is taken to have the nodes
    that were added to it, so that [len(G.nodes())] is [L.skeleta[0]]. *)
Definition shortestPath {Graph : Type}
    (PyGraph : nat → list (list nat) → result Graph)
    (cycle_basis : Graph → list (list nat))
    (L : Lattice) (assignment : list Z)
    : result (list ((Z * Z) * (Z * Z))) :=
  n0 ← getkey (skeleta L) 0;
  n2 ← getkey (skeleta L) 2;
  edges ← occupied
            (py_slice (boundary L) n0
               (Z.of_nat (length (cells L)) - Z.of_nat n2))
            assignment 0;
  G ← PyGraph n0 edges;
  let '(w, h) := corners L in
  anti ← antipodes w h;
  let B := essential_cycles w h n0 anti (cycle_basis G) in
  if decide (B = []) then Ok []
  else
    essential ← getitem (sorted_by_length B) 0;
    z ← last_item essential;
    mapM (endpoints L) (zip (z :: removelast essential) essential).

(** *** The squares of [lattice2D] (lines 113-140) *)

(** The points at which the vertex [p] may be drawn: a vertex on an axis is
    also drawn at the coordinate [xlim] of that axis, for both axes
    (lines 114-116). *)
Definition vertex_copies (xlim : Z) (p : Z * Z) : list (Z * Z) :=
  let xs := if decide (p.1 = 0)%Z then [p.1; xlim] else [p.1] in
  let ys := if decide (p.2 = 0)%Z then [p.2; xlim] else [p.2] in
  x ← xs; y ← ys; [(x, y)].

(** [itertools.combinations(l, r)] *)
Fixpoint combinations {A} (r : nat) (l : list A) : list (list A) :=
  match r, l with
  | 0, _ => [[]]
  | S _, [] => []
  | S r', x :: l' => ((x ::.) <$> combinations r' l') ++ combinations r l'
  end.

(** [itertools.combinations(l, r=2)], as pairs. *)
Fixpoint pairs {A} (l : list A) : list (A * A) :=
  match l with
  | [] => []
  | x :: l' => ((x ,.) <$> l') ++ pairs l'
  end.

(** The test of line 133: the two points are one step apart along an
    axis. *)
Definition adjacent (pq : (Z * Z) * (Z * Z)) : Prop :=
  (pq.1.1 = pq.2.1 ∧ Z.abs (pq.1.2 - pq.2.2) = 1)%Z
  ∨ (pq.1.2 = pq.2.2 ∧ Z.abs (pq.1.1 - pq.2.1) = 1)%Z.

#[export] Instance adjacent_dec pq : Decision (adjacent pq).
Proof. unfold adjacent. apply _. Defined.

(** [dist] (lines 130-134): the number of pairs of the four points that are
    one step apart. *)
Definition dist (square : list (Z * Z)) : nat :=
  length (filter adjacent (pairs square)).

(** The order of Python on pairs of integers. *)
Definition lex_le (p q : Z * Z) : Prop :=
  (p.1 < q.1 ∨ (p.1 = q.1 ∧ p.2 ≤ q.2))%Z.

#[export] Instance lex_le_dec p q : Decision (lex_le p q).
Proof. unfold lex_le. apply _. Defined.

(** [sorted(l)] on points. *)
Fixpoint insert_point (p : Z * Z) (l : list (Z * Z)) : list (Z * Z) :=
  match l with
  | [] => [p]
  | q :: l' => if decide (lex_le p q) then p :: l else q :: insert_point p l'
  end.

Definition sorted_points (l : list (Z * Z)) : list (Z * Z) :=
  foldr insert_point [] l.

(** [reduce(lambda A, B: A+B, lists)]: no initial value. *)
Definition reduce_concat {A} (lists : list (list A)) : result (list A) :=
  match lists with
  | [] => Raise TypeError
  | l :: ls => Ok (foldl (λ acc k, acc ++ k) l ls)
  end.

(** [possibleVertices] (line 126): the points at which the vertices of the
    square may be drawn. *)
Definition possible_vertices (vertexmap : gmap (Z * Z) (list (Z * Z)))
    (square : list (Z * Z)) : result (list (Z * Z)) :=
  lists ← mapM (M := result)
             (λ v : Z * Z, match vertexmap !! v with
                           | Some l => Ok l
                           | None => Raise KeyError
                           end) square;
  reduce_concat lists.

(** One round of the loop over the squares (lines 125-140): the anchors of
    the rectangles added for the square, in the order in which they are
    added. *)
Definition square_anchors (vertexmap : gmap (Z * Z) (list (Z * Z)))
    (square : list (Z * Z)) : result (list (Z * Z)) :=
  possibleVertices ← possible_vertices vertexmap square;
  mapM (M := result)
    (λ possibleSquare : list (Z * Z),
       getitem (sorted_points possibleSquare) 0)
    (filter (λ possibleSquare, dist possibleSquare = 4)
       (combinations 4 possibleVertices)).

(** *** The segments of [lattice2D] (lines 157-162 and 179-184) *)

(** The test of lines 160-161 on a pair of points, with the precedence of
    Python: [A and B and C or (D and E) and F]. *)
Definition compatible (corners : Z * Z) (uv : (Z * Z) * (Z * Z)) : Prop :=
  (uv.1.1 = uv.2.1 ∧ Z.abs (uv.1.2 - uv.2.2) = 1
   ∧ Z.max uv.1.1 uv.2.1 < corners.1)%Z
  ∨ ((uv.1.2 = uv.2.2 ∧ Z.abs (uv.1.1 - uv.2.1) = 1)
     ∧ Z.max uv.1.2 uv.2.2 < corners.2)%Z.

#[export] Instance compatible_dec corners uv : Decision (compatible corners uv).
Proof. unfold compatible. apply _. Defined.

(** [itertools.product(l, k)] *)
Definition product {A B} (l : list A) (k : list B) : list (A * B) :=
  a ← l; b ← k; [(a, b)].

(** [vertexmap[v]] *)
Definition getpoint (vertexmap : gmap (Z * Z) (list (Z * Z))) (v : Z * Z)
    : result (list (Z * Z)) :=
  match vertexmap !! v with
  | Some l => Ok l
  | None => Raise KeyError
  end.

(** [compatibleEdges] for the edge with the given endpoints: the segments
    that are drawn for it, each as the pair of its abscissas and the pair of
    its ordinates. *)
Definition compatibleEdges (vertexmap : gmap (Z * Z) (list (Z * Z)))
    (corners : Z * Z) (edge : (Z * Z) * (Z * Z))
    : result (list ((Z * Z) * (Z * Z))) :=
  mbind (M := result)
    (λ us : list (Z * Z),
       mbind (M := result)
         (λ vs : list (Z * Z),
            Ok ((λ uv : (Z * Z) * (Z * Z),
                   ((uv.1.1, uv.2.1), (uv.1.2, uv.2.2)))
                  <$> filter (compatible corners) (product us vs)))
         (getpoint vertexmap edge.2))
    (getpoint vertexmap edge.1).

(** The vertex map of a lattice whose vertices are the given points. *)
Definition vertexmap_of (xlim : Z) (vertices : list (Z * Z))
    : gmap (Z * Z) (list (Z * Z)) :=
  foldl (λ m p, <[p := vertex_copies xlim p]> m) ∅ vertices.

(** A 3x3 torus of which only the three edges along the bottom row are
    known: nine vertices, vertex [x + 3 y] at [(x, y)]. *)
Definition bottom_ring : Lattice :=
  mkLattice {[ 0 := 9; 1 := 3; 2 := 0 ]}
    (replicate 9 [] ++ [[0; 1]; [1; 2]; [2; 0]])
    (((λ i, mkCell [(Z.of_nat (i mod 3), Z.of_nat (i / 3))]) <$> seq 0 9)
     ++ [mkCell [(0, 0); (1, 0)]; mkCell [(1, 0); (2, 0)];
         mkCell [(2, 0); (0, 0)]]%Z)
    (3, 3)%Z.

(** The vertex map of the 3x3 torus. *)
Definition torus_map : gmap (Z * Z) (list (Z * Z)) :=
  vertexmap_of 3
    [(0, 0); (1, 0); (2, 0); (0, 1); (1, 1); (2, 1); (0, 2); (1, 2); (2, 2)]%Z.

(** A stand-in for the graph library: every graph is accepted, and the
    cycle basis is the given one. *)
Definition any_graph : nat → list (list nat) → result () :=
  λ _ _, Ok ().

Definition fixed_cycles (B : list (list nat)) : () → list (list nat) :=
  λ _, B.

(** A graph library that accepts the edges between existing nodes only. *)
Definition checked_graph (n : nat) (edges : list (list nat)) : result () :=
  if decide (Forall (Forall (λ v, v < n)) edges) then Ok ()
  else Raise IndexError.

(** The vertex map of a grid of two columns and three rows. *)
Definition tall_map : gmap (Z * Z) (list (Z * Z)) :=
  vertexmap_of 2 [(0, 0); (1, 0); (0, 1); (1, 1); (0, 2); (1, 2)]%Z.

End Viz.

(** ** Field facts *)

Section FieldFacts.
Context `{GL : GaloisLaws}.

Lemma valid_0 : valid 0.
Proof. pose proof order_gt_1. unfold valid. lia. Qed.

Lemma valid_1 : valid 1.
Proof. pose proof order_gt_1. unfold valid. lia. Qed.

Lemma fadd_0_r x : valid x → fadd x 0 = x.
Proof. intros Hx. rewrite fadd_comm. by apply fadd_0_l. Qed.

Lemma fmul_0_r x : fmul x 0 = 0%Z.
Proof. rewrite fmul_comm. apply fmul_0_l. Qed.

Lemma fmul_1_r x : valid x → fmul x 1 = x.
Proof. intros Hx. rewrite fmul_comm. by apply fmul_1_l. Qed.

Lemma fadd_0_0 : fadd 0 0 = 0%Z.
Proof. apply fadd_0_l, valid_0. Qed.

(** Cancellation: [x - y = 0] gives [x = y]. *)
Lemma fadd_fneg_cancel x y :
  valid x → valid y → fadd x (fmul (fneg 1) y) = 0%Z → x = y.
Proof.
  intros Hx Hy H0.
  assert (Hz : fadd (fmul (fneg 1) y) y = 0%Z).
  { rewrite <- (fmul_1_l y) at 2 by done.
    rewrite (fmul_comm (fneg 1)), (fmul_comm 1), <- fmul_fadd_distr.
    rewrite (fadd_comm (fneg 1)), fadd_fneg by apply valid_1.
    apply fmul_0_r. }
  rewrite <- (fadd_0_r x) by done.
  rewrite <- Hz, fadd_assoc, H0. by apply fadd_0_l.
Qed.

End FieldFacts.

(** Arithmetic modulo [p] satisfies the laws as soon as [1 < p]. *)
Lemma prime_field_laws (p : Z) : (1 < p)%Z → @GaloisLaws (prime_field p).
Proof.
  intros Hp. split; unfold valid; simpl; intros.
  - done.
  - lia.
  - apply Z.mod_pos_bound. lia.
  - apply Z.mod_pos_bound. lia.
  - apply Z.mod_pos_bound. lia.
  - by rewrite Z.add_comm.
  - rewrite Zplus_mod_idemp_r, Zplus_mod_idemp_l. by rewrite Z.add_assoc.
  - by rewrite Z.mul_comm.
  - rewrite Zmult_mod_idemp_r, Zmult_mod_idemp_l. by rewrite Z.mul_assoc.
  - rewrite Zmult_mod_idemp_r, <- Zplus_mod. by rewrite Z.mul_add_distr_l.
  - rewrite Z.add_0_l. apply Z.mod_small. lia.
  - rewrite Z.mul_1_l. apply Z.mod_small. lia.
  - done.
  - rewrite Zplus_mod_idemp_r. rewrite Z.add_opp_diag_r. done.
Qed.

(** The field of order 4 satisfies them too. *)
Lemma GF4_laws : @GaloisLaws GF4.
Proof.
  assert (Hcases : ∀ x, ∃ a, (x mod 4 = a)%Z
                     ∧ (a = 0 ∨ a = 1 ∨ a = 2 ∨ a = 3)%Z).
  { intros x. exists (x mod 4)%Z. split; [done|].
    pose proof (Z.mod_pos_bound x 4). lia. }
  assert (Hsmall : ∀ x, (0 ≤ x < 4)%Z → (x = 0 ∨ x = 1 ∨ x = 2 ∨ x = 3)%Z)
    by (intros; lia).
  split; unfold valid; simpl; try lia.
  - intros x y _ _.
    destruct (Hcases x) as (a & -> & [->|[->|[->| ->]]]);
      destruct (Hcases y) as (b & -> & [->|[->|[->| ->]]]);
      cbv; (split; [discriminate | reflexivity]).
  - intros x y _ _.
    destruct (Hcases x) as (a & -> & [->|[->|[->| ->]]]);
      destruct (Hcases y) as (b & -> & [->|[->|[->| ->]]]);
      cbv; (split; [discriminate | reflexivity]).
  - intros x _. apply Z.mod_pos_bound. lia.
  - intros x y. apply Z.lxor_comm.
  - intros x y z.
    destruct (Hcases x) as (a & -> & [->|[->|[->| ->]]]);
      destruct (Hcases y) as (b & -> & [->|[->|[->| ->]]]);
      destruct (Hcases z) as (c & -> & [->|[->|[->| ->]]]); reflexivity.
  - intros x y.
    destruct (Hcases x) as (a & -> & [->|[->|[->| ->]]]);
      destruct (Hcases y) as (b & -> & [->|[->|[->| ->]]]); reflexivity.
  - intros x y z.
    destruct (Hcases x) as (a & -> & [->|[->|[->| ->]]]);
      destruct (Hcases y) as (b & -> & [->|[->|[->| ->]]]);
      destruct (Hcases z) as (c & -> & [->|[->|[->| ->]]]); reflexivity.
  - intros x y z.
    destruct (Hcases x) as (a & -> & [->|[->|[->| ->]]]);
      destruct (Hcases y) as (b & -> & [->|[->|[->| ->]]]);
      destruct (Hcases z) as (c & -> & [->|[->|[->| ->]]]); reflexivity.
  - intros x Hx. destruct (Hsmall x Hx) as [->|[->|[->| ->]]]; reflexivity.
  - intros x Hx. destruct (Hsmall x Hx) as [->|[->|[->| ->]]]; reflexivity.
  - intros x. by destruct (Hcases x) as (a & -> & [->|[->|[->| ->]]]).
  - intros x Hx. destruct (Hsmall x Hx) as [->|[->|[->| ->]]]; reflexivity.
Qed.

(** ** Array facts *)

Lemma wf_np_zeros n m : wf_matrix (np_zeros n m).
Proof.
  split; simpl.
  - apply length_replicate.
  - apply Forall_replicate, length_replicate.
Qed.

Lemma entry_np_zeros n m i j : entry (np_zeros n m) i j = 0%Z.
Proof.
  unfold entry, np_zeros; simpl.
  destruct (replicate n (replicate m 0%Z) !! i) as [r|] eqn:Hr; simpl; [|done].
  apply lookup_replicate in Hr as [-> _].
  destruct (replicate m 0%Z !! j) as [x|] eqn:Hx; simpl; [|done].
  by apply lookup_replicate in Hx as [-> _].
Qed.

Lemma setitem2_Ok A i j x :
  i < nrows A → j < ncols A →
  setitem2 A i j x
  = Ok (mkMatrix (nrows A) (ncols A) (alter (λ r, <[j:=x]> r) i (rows A))).
Proof. intros Hi Hj. unfold setitem2. rewrite decide_True; done. Qed.

Lemma wf_setitem2 A i j x A' :
  wf_matrix A → setitem2 A i j x = Ok A' → wf_matrix A'.
Proof.
  intros [Hn Hr] HA. unfold setitem2 in HA. case_decide; [|done].
  injection HA as <-. split; simpl.
  - by rewrite length_alter.
  - apply Forall_lookup. intros k r Hk.
    destruct (decide (i = k)) as [->|Hne].
    + rewrite list_lookup_alter_eq in Hk.
      destruct (rows A !! k) as [r0|] eqn:Hr0; [|done].
      injection Hk as <-. rewrite length_insert.
      by eapply (Forall_lookup_1 _ _ _ _ Hr).
    + rewrite list_lookup_alter_ne in Hk by done.
      by eapply (Forall_lookup_1 _ _ _ _ Hr).
Qed.

Lemma entry_setitem2 A i j x A' a b :
  wf_matrix A → setitem2 A i j x = Ok A' →
  entry A' a b = if decide (a = i ∧ b = j) then x else entry A a b.
Proof.
  intros [Hn Hr] HA. unfold setitem2 in HA. case_decide as Hij; [|done].
  injection HA as <-. destruct Hij as [Hi Hj]. unfold entry; simpl.
  destruct (decide (a = i)) as [->|Hne].
  - rewrite list_lookup_alter_eq.
    destruct (rows A !! i) as [r0|] eqn:Hr0; simpl.
    + assert (length r0 = ncols A) by by eapply (Forall_lookup_1 _ _ _ _ Hr).
      destruct (decide (b = j)) as [->|Hb].
      * rewrite decide_True by done.
        rewrite list_lookup_insert_eq by lia. done.
      * rewrite decide_False by tauto.
        rewrite list_lookup_insert_ne by done. done.
    + apply lookup_ge_None in Hr0. lia.
  - rewrite decide_False by tauto.
    rewrite list_lookup_alter_ne by done. done.
Qed.

Lemma shape_setitem2 A i j x A' :
  setitem2 A i j x = Ok A' → nrows A' = nrows A ∧ ncols A' = ncols A.
Proof.
  unfold setitem2. case_decide; [|done]. by intros [= <-].
Qed.

(** ** The scan over the edges *)

Section ScanFacts.
Context `{PV : Providers}.

Lemma same_spin_lookup state e su sv :
  state !! vindex (coordinates e).1 = Some su →
  state !! vindex (coordinates e).2 = Some sv →
  same_spin state e = bool_decide (su = sv).
Proof.
  intros Hu Hv. unfold same_spin. rewrite Hu, Hv.
  apply bool_decide_ext. split; congruence.
Qed.

(** One edge whose indices are in range: no exception, the [spin] slot holds
    the decision, one draw is taken exactly when the spins agree, and the
    selector changes at most at the diagonal entry of the edge. *)
Lemma scan_edge_spec self state stp e inc w :
  wf_matrix inc → eindex e < nrows inc → eindex e < ncols inc →
  endpoints_in_range state e →
  ∃ inc1 w1,
    scan_edge self state stp e inc w
    = (Ok inc1, set_spin (flag self state stp e (draws w)) e, w1)
    ∧ draws w1 = (if same_spin state e then S (draws w) else draws w)
    ∧ samples w1 = samples w
    ∧ wf_matrix inc1 ∧ nrows inc1 = nrows inc ∧ ncols inc1 = ncols inc
    ∧ ∀ a b, entry inc1 a b
             = if decide (a = eindex e ∧ b = eindex e
                          ∧ flag self state stp e (draws w) = 1%Z)
               then 1%Z else entry inc a b.
Proof.
  intros Hwf Hr Hc [Hu Hv].
  apply lookup_lt_is_Some_2 in Hu as [su Hu].
  apply lookup_lt_is_Some_2 in Hv as [sv Hv].
  unfold scan_edge, flag.
  rewrite (same_spin_lookup _ _ _ _ Hu Hv).
  destruct (coordinates e) as [u v] eqn:Huv; simpl in Hu, Hv.
  rewrite Hu, Hv.
  destruct (decide (su ≠ sv)) as [Hne|Heq].
  - rewrite bool_decide_eq_false_2 by done. simpl.
    exists inc, w. split_and!; try done.
    intros a b. rewrite decide_False; [done|]. intros (_ & _ & ?). done.
  - apply dec_stable in Heq. rewrite bool_decide_eq_true_2 by done. simpl.
    fold (probability self stp).
    destruct (float_ltb (Finite (np_random_uniform (draws w)))
               (probability self stp)).
    + rewrite (setitem2_Ok _ _ _ _ Hr Hc).
      pose proof (setitem2_Ok inc _ _ 1%Z Hr Hc) as Hset.
      eexists _, _. split; [reflexivity|].
      split; [by destruct (testing self)|].
      split; [by destruct (testing self)|].
      split; [by eapply wf_setitem2|].
      split; [done|]. split; [done|].
      intros a b. rewrite (entry_setitem2 _ _ _ _ _ a b Hwf Hset).
      destruct (decide (a = eindex e ∧ b = eindex e)) as [[-> ->]|Hn].
      * by rewrite decide_True.
      * rewrite decide_False; [done|]. tauto.
    + exists inc, (tick_draw w). split_and!; try done.
      intros a b. rewrite decide_False; [done|]. intros (_ & _ & ?). done.
Qed.

(** The whole scan, for edges whose indices are in range: it completes, every
    [spin] slot holds the decision of its edge, and the selector is changed
    exactly at the diagonal entries of the included edges. *)
Lemma scan_spec self state stp edges : ∀ inc w,
  wf_matrix inc →
  Forall (λ e, eindex e < nrows inc ∧ eindex e < ncols inc
               ∧ endpoints_in_range state e) edges →
  ∃ inc' edges' w',
    scan self state stp edges inc w = (Ok inc', edges', w')
    ∧ wf_matrix inc' ∧ nrows inc' = nrows inc ∧ ncols inc' = ncols inc
    ∧ samples w' = samples w
    ∧ draws w' = draw_index state edges (draws w) (length edges)
    ∧ length edges' = length edges
    ∧ (∀ i e, edges !! i = Some e →
         edges' !! i
         = Some (set_spin
                   (flag self state stp e
                      (draw_index state edges (draws w) i)) e))
    ∧ (∀ i e, edges !! i = Some e →
         flag self state stp e (draw_index state edges (draws w) i) = 1%Z →
         entry inc' (eindex e) (eindex e) = 1%Z)
    ∧ (∀ a b, entry inc' a b = entry inc a b
              ∨ (a = b ∧ entry inc' a b = 1%Z
                 ∧ ∃ i e, edges !! i = Some e ∧ eindex e = a
                     ∧ flag self state stp e
                         (draw_index state edges (draws w) i) = 1%Z)).
Proof.
  induction edges as [|e rest IH]; intros inc w Hwf Hin.
  - exists inc, [], w. simpl. split_and!; try done. by left.
  - apply Forall_cons_1 in Hin as [(Hr & Hc & He) Hrest].
    destruct (scan_edge_spec self state stp e inc w Hwf Hr Hc He)
      as (inc1 & w1 & Hstep & Hd & Hs & Hwf1 & Hn1 & Hc1 & Hent).
    rewrite <- Hn1, <- Hc1 in Hrest.
    destruct (IH inc1 w1 Hwf1 Hrest)
      as (inc' & rest' & w' & Hscan & Hwf' & Hn' & Hc' & Hs' & Hd' & Hlen
          & Hspin & Hone & Hdiag).
    rewrite Hd in Hd', Hspin, Hone, Hdiag.
    exists inc', (set_spin (flag self state stp e (draws w)) e :: rest'), w'.
    simpl. rewrite Hstep, Hscan.
    split_and!; try done; try congruence.
    + intros [|i] e0 Hi; simpl in *.
      * by injection Hi as <-.
      * by apply Hspin.
    + intros [|i] e0 Hi Hf; simpl in *.
      * injection Hi as <-.
        destruct (Hdiag (eindex e) (eindex e)) as [Heq|(_ & H1 & _)]; [|done].
        rewrite Heq, Hent. by rewrite decide_True.
      * by apply (Hone i).
    + intros a b.
      destruct (Hdiag a b) as [Heq|(Hab & H1 & i & e0 & Hi & Ha & Hf)].
      * rewrite Heq, Hent.
        destruct (decide _) as [(-> & -> & Hf)|Hn].
        -- right. split_and!; try done. exists 0, e. by simpl.
        -- by left.
      * right. split_and!; try done. exists (S i), e0. by simpl.
Qed.

End ScanFacts.

(** ** The proposal *)

Section ProposalFacts.
Context `{GL : GaloisLaws} `{PV : Providers}.

Lemma FieldArray2_zeros n m : FieldArray2 (np_zeros n m) = Ok (np_zeros n m).
Proof.
  unfold FieldArray2. rewrite decide_True; [done|]. simpl.
  apply Forall_replicate, Forall_replicate, valid_0.
Qed.

(** The chain after a call is the chain before it with the edges the scan
    has written, whether the call returns or raises. *)
Lemma proposal_chain_after self chain w :
  (proposal self chain w).1.2
  = with_edges chain
      (scan self (state chain) (step chain) (structure1 (lattice chain))
         (np_zeros (length (structure1 (lattice chain)))
                   (length (structure1 (lattice chain)))) w).1.2.
Proof.
  unfold proposal. rewrite FieldArray2_zeros.
  destruct (scan _ _ _ _ _ _) as [[[inc|e] edges'] w1]; simpl; [|done].
  destruct (np_matmul _ _) as [B|e]; simpl; [|done].
  destruct (combination _ _) as [terms w2].
  by destruct (reduce _ _).
Qed.

Lemma flag_0_or_1 self state stp e d :
  flag self state stp e d = 0%Z ∨ flag self state stp e d = 1%Z.
Proof. unfold flag. destruct (_ && _); auto. Qed.

(** The scan of a call, on a lattice whose edges are in range and carry
    distinct indices. *)
Lemma proposal_scan self chain w :
  let edges := structure1 (lattice chain) in
  let M := length edges in
  edges_in_range (state chain) M edges →
  NoDup (eindex <$> edges) →
  ∃ included edges' w1,
    scan self (state chain) (step chain) edges (np_zeros M M) w
    = (Ok included, edges', w1)
    ∧ selector self chain w = Ok included
    ∧ (proposal self chain w).1.2 = with_edges chain edges'
    ∧ wf_matrix included ∧ nrows included = M ∧ ncols included = M
    ∧ length edges' = M
    ∧ (∀ i e, edges !! i = Some e →
         let f := flag self (state chain) (step chain) e
                    (draw_index (state chain) edges (draws w) i) in
         edges' !! i = Some (set_spin f e)
         ∧ entry included (eindex e) (eindex e) = f)
    ∧ (∀ a b, entry included a b = 0%Z
              ∨ (a = b ∧ entry included a b = 1%Z
                 ∧ ∃ i e, edges !! i = Some e ∧ eindex e = a
                     ∧ flag self (state chain) (step chain) e
                         (draw_index (state chain) edges (draws w) i)
                       = 1%Z)).
Proof.
  intros edges M Hin Hnd.
  destruct (scan_spec self (state chain)
              (step chain) edges (np_zeros M M) w (wf_np_zeros M M))
    as (inc & edges' & w1 & Hscan & Hwf & Hn & Hc & _ & _ & Hlen
        & Hspin & Hone & Hdiag).
  { eapply List.Forall_impl; [|exact Hin]. simpl. intros e [? ?]. done. }
  assert (Hdiag' : ∀ a b, entry inc a b = 0%Z
             ∨ (a = b ∧ entry inc a b = 1%Z
                ∧ ∃ i e, edges !! i = Some e ∧ eindex e = a
                    ∧ flag self (state chain) (step chain) e
                        (draw_index (state chain) edges (draws w) i)
                      = 1%Z)).
  { intros a b. destruct (Hdiag a b) as [Heq|?]; [left|by right].
    by rewrite Heq, entry_np_zeros. }
  exists inc, edges', w1. split_and!; try done.
  - unfold selector. fold edges M. by rewrite Hscan.
  - rewrite proposal_chain_after. fold edges M. by rewrite Hscan.
  - intros i e Hi f. split; [by apply Hspin|].
    destruct (flag_0_or_1 self (state chain) (step chain) e
                (draw_index (state chain) edges (draws w) i)) as [H0|H1].
    + destruct (Hdiag' (eindex e) (eindex e))
        as [Hz|(_ & _ & j & e2 & Hj & Hidx & Hf)].
      * subst f. by rewrite H0.
      * assert (j = i) as ->.
        { eapply (NoDup_lookup _ _ _ _ Hnd).
          - rewrite list_lookup_fmap, Hj. simpl. by rewrite Hidx.
          - by rewrite list_lookup_fmap, Hi. }
        rewrite Hi in Hj. injection Hj as <-. congruence.
    + subst f. rewrite H1. by apply (Hone i).
Qed.

Lemma Qltb_spec q p : Qltb q p = true ↔ (q < p)%Q.
Proof.
  unfold Qltb. rewrite negb_true_iff, <- not_true_iff_false, Qle_bool_iff.
  split; [apply Qnot_le_lt | apply Qlt_not_le].
Qed.

Lemma same_spin_true state e s :
  state !! vindex (coordinates e).1 = Some s →
  state !! vindex (coordinates e).2 = Some s →
  same_spin state e = true.
Proof. intros Hu Hv. rewrite (same_spin_lookup _ _ _ _ Hu Hv). by apply bool_decide_eq_true_2. Qed.

Lemma same_spin_false state e su sv :
  state !! vindex (coordinates e).1 = Some su →
  state !! vindex (coordinates e).2 = Some sv →
  su ≠ sv → same_spin state e = false.
Proof. intros Hu Hv Hne. rewrite (same_spin_lookup _ _ _ _ Hu Hv). by apply bool_decide_eq_false_2. Qed.

Lemma flag_same_spin self state stp e d :
  same_spin state e = true →
  flag self state stp e d
  = if float_ltb (Finite (np_random_uniform d))
         (float_sub (Finite 1) (np_exp (temperature self stp)))
    then 1%Z else 0%Z.
Proof. intros Hs. unfold flag, probability. by rewrite Hs. Qed.

(** On finite floats [<] is the order of the rationals they denote. *)
Lemma float_ltb_Finite q p : float_ltb (Finite q) (Finite p) = Qltb q p.
Proof. done. Qed.

(** A draw that is not negative is not below a [p <= 0]. *)
Lemma float_ltb_nonpositive q p :
  (0 <= q)%Q → float_leb p (Finite 0) = true →
  float_ltb (Finite q) p = false.
Proof.
  intros Hq Hp. destruct p as [b| | |]; try done.
  unfold float_leb in Hp. apply Qle_bool_iff in Hp.
  rewrite float_ltb_Finite. apply not_true_iff_false. intros Hb.
  apply Qltb_spec in Hb. apply (Qlt_irrefl 0).
  eapply Qle_lt_trans; [exact Hq|]. by eapply Qlt_le_trans.
Qed.

(** A draw below 1 is below a [p >= 1]. *)
Lemma float_ltb_certain q p :
  (q < 1)%Q → float_leb (Finite 1) p = true →
  float_ltb (Finite q) p = true.
Proof.
  intros Hq Hp. destruct p as [b| | |]; try done.
  unfold float_leb in Hp. apply Qle_bool_iff in Hp.
  rewrite float_ltb_Finite. apply Qltb_spec. by eapply Qlt_le_trans.
Qed.

(** C10: after the scan of a call to [proposal], the edge-inclusion selector
    is an MxM matrix (M the number of 1-cells) whose off-diagonal entries
    are all 0, and for every edge the diagonal entry at the index of the
    edge equals the [spin] flag the call has left on the edge, both being
    0 or 1. The edges are assumed to carry distinct indices that fit the
    selector, and endpoints that index the state. *)
Theorem selector_is_diagonal self chain w :
  let edges := structure1 (lattice chain) in
  let M := length edges in
  edges_in_range (state chain) M edges →
  NoDup (eindex <$> edges) →
  ∃ included,
    selector self chain w = Ok included
    ∧ wf_matrix included ∧ nrows included = M ∧ ncols included = M
    ∧ (∀ a b, a ≠ b → entry included a b = 0%Z)
    ∧ (∀ i e, structure1 (lattice (proposal self chain w).1.2) !! i = Some e →
         entry included (eindex e) (eindex e) = spin e
         ∧ (spin e = 0%Z ∨ spin e = 1%Z)).
Proof.
  intros edges M Hin Hnd.
  destruct (proposal_scan self chain w Hin Hnd)
    as (inc & edges' & w1 & _ & Hsel & Hafter & Hwf & Hn & Hc & Hlen
        & Hedge & Hdiag).
  exists inc. split_and!; try done.
  - intros a b Hab. destruct (Hdiag a b) as [?|(? & _)]; done.
  - intros i e' Hi. rewrite Hafter in Hi. simpl in Hi.
    assert (is_Some (edges !! i)) as [e He].
    { apply lookup_lt_is_Some. apply lookup_lt_Some in Hi.
      rewrite Hlen in Hi. exact Hi. }
    destruct (Hedge i e He) as [Hspin Hent].
    rewrite Hspin in Hi. injection Hi as <-. simpl.
    split; [done|]. apply flag_0_or_1.
Qed.

(** C3: an edge whose endpoints carry differing spins under the input state
    has its [spin] flag 0 after the call and its diagonal selector entry 0;
    the loop body leaves the selector and the world as they are for such an
    edge, so no random draw is taken for it. *)
Theorem mismatch_excludes self chain w i e su sv :
  let edges := structure1 (lattice chain) in
  let M := length edges in
  edges_in_range (state chain) M edges →
  NoDup (eindex <$> edges) →
  edges !! i = Some e →
  state chain !! vindex (coordinates e).1 = Some su →
  state chain !! vindex (coordinates e).2 = Some sv →
  su ≠ sv →
  structure1 (lattice (proposal self chain w).1.2) !! i
  = Some (set_spin 0 e)
  ∧ (∃ included, selector self chain w = Ok included
                 ∧ entry included (eindex e) (eindex e) = 0%Z)
  ∧ (∀ inc w0, scan_edge self (state chain) (step chain) e inc w0
               = (Ok inc, set_spin 0 e, w0)).
Proof.
  intros edges M Hin Hnd Hi Hu Hv Hne.
  destruct (proposal_scan self chain w Hin Hnd)
    as (inc & edges' & w1 & _ & Hsel & Hafter & _ & _ & _ & _ & Hedge & _).
  destruct (Hedge i e Hi) as [Hspin Hent].
  unfold flag in Hspin, Hent.
  rewrite (same_spin_false _ _ _ _ Hu Hv Hne) in Hspin, Hent.
  simpl in Hspin, Hent. split_and!.
  - by rewrite Hafter.
  - by exists inc.
  - intros inc0 w0. unfold scan_edge.
    destruct (coordinates e) as [u v]. simpl in Hu, Hv.
    rewrite Hu, Hv. by rewrite decide_True.
Qed.

(** C4: an edge whose endpoints carry equal spins under the input state is
    included exactly when its draw [q] satisfies [q < p], with
    [p = 1 - exp(temperature(step))] as the floats compute it: then its
    diagonal selector entry and its [spin] flag are 1, and otherwise both
    are 0. *)
Theorem same_spin_inclusion self chain w i e s :
  let edges := structure1 (lattice chain) in
  let M := length edges in
  edges_in_range (state chain) M edges →
  NoDup (eindex <$> edges) →
  edges !! i = Some e →
  state chain !! vindex (coordinates e).1 = Some s →
  state chain !! vindex (coordinates e).2 = Some s →
  let q := np_random_uniform (draw_index (state chain) edges (draws w) i) in
  let p := float_sub (Finite 1) (np_exp (temperature self (step chain))) in
  ∃ included,
    selector self chain w = Ok included
    ∧ (float_ltb (Finite q) p = true →
         entry included (eindex e) (eindex e) = 1%Z
         ∧ structure1 (lattice (proposal self chain w).1.2) !! i
           = Some (set_spin 1 e))
    ∧ (float_ltb (Finite q) p = false →
         entry included (eindex e) (eindex e) = 0%Z
         ∧ structure1 (lattice (proposal self chain w).1.2) !! i
           = Some (set_spin 0 e)).
Proof.
  intros edges M Hin Hnd Hi Hu Hv q p.
  destruct (proposal_scan self chain w Hin Hnd)
    as (inc & edges' & w1 & _ & Hsel & Hafter & _ & _ & _ & _ & Hedge & _).
  destruct (Hedge i e Hi) as [Hspin Hent].
  rewrite (flag_same_spin _ _ _ _ _ (same_spin_true _ _ _ Hu Hv))
    in Hspin, Hent.
  exists inc. split; [done|]. rewrite Hafter. simpl.
  change (float_ltb _ _) with (float_ltb (Finite q) p) in Hspin, Hent.
  destruct (float_ltb (Finite q) p); split; intros Hb; done.
Qed.

(** C6: the inclusion probability is used as it is. With every draw in
    [0, 1), the scan completes without an exception; if the float [p] is
    [<= 0] (the negative infinity included) every selector entry stays 0 and
    every edge is excluded, and if [1 <= p] every edge whose endpoints carry
    equal spins is included. *)
Theorem probability_not_clamped self chain w :
  let edges := structure1 (lattice chain) in
  let M := length edges in
  let p := float_sub (Finite 1) (np_exp (temperature self (step chain))) in
  edges_in_range (state chain) M edges →
  NoDup (eindex <$> edges) →
  (∀ k, (0 <= np_random_uniform k)%Q ∧ (np_random_uniform k < 1)%Q) →
  ∃ included,
    selector self chain w = Ok included
    ∧ (float_leb p (Finite 0) = true →
         (∀ a b, entry included a b = 0%Z)
         ∧ ∀ i e, edges !! i = Some e →
             structure1 (lattice (proposal self chain w).1.2) !! i
             = Some (set_spin 0 e))
    ∧ (float_leb (Finite 1) p = true →
         ∀ i e, edges !! i = Some e → same_spin (state chain) e = true →
           entry included (eindex e) (eindex e) = 1%Z
           ∧ structure1 (lattice (proposal self chain w).1.2) !! i
             = Some (set_spin 1 e)).
Proof.
  intros edges M p Hin Hnd Hq.
  destruct (proposal_scan self chain w Hin Hnd)
    as (inc & edges' & w1 & _ & Hsel & Hafter & _ & _ & _ & _ & Hedge & Hdiag).
  exists inc. split; [done|]. rewrite Hafter. simpl. split; intros Hp.
  - assert (Hflag : ∀ e d, flag self (state chain) (step chain) e d = 0%Z).
    { intros e d. unfold flag, probability. fold p.
      rewrite (float_ltb_nonpositive _ p (proj1 (Hq d)) Hp).
      by rewrite andb_false_r. }
    split.
    + intros a b. destruct (Hdiag a b) as [?|(_ & _ & j & e & _ & _ & Hf)];
        [done|]. by rewrite Hflag in Hf.
    + intros i e Hi. destruct (Hedge i e Hi) as [Hspin _].
      by rewrite Hflag in Hspin.
  - intros i e Hi Hsame. destruct (Hedge i e Hi) as [Hspin Hent].
    assert (Hflag : flag self (state chain) (step chain) e
                      (draw_index (state chain) edges (draws w) i) = 1%Z).
    { unfold flag, probability. fold p. rewrite Hsame. simpl.
      by rewrite (float_ltb_certain _ p
                    (proj2 (Hq (draw_index (state chain) edges (draws w) i)))
                    Hp). }
    unfold edges in Hflag. by rewrite Hflag in Hspin, Hent.
Qed.

End ProposalFacts.

(** ** Linear algebra over the field *)

Section LinearAlgebra.
Context `{GL : GaloisLaws}.

Lemma dot_nil_r r : dot r [] = 0%Z.
Proof. by destruct r. Qed.

Lemma dot_cons a r x c : dot (a :: r) (x :: c) = fadd (fmul a x) (dot r c).
Proof. done. Qed.

Lemma dot_comm r : ∀ c, dot r c = dot c r.
Proof.
  induction r as [|a r IH]; intros [|x c]; try done.
  rewrite !dot_cons, IH. by rewrite fmul_comm.
Qed.

Lemma dot_valid r : ∀ c, Forall valid r → Forall valid c → valid (dot r c).
Proof.
  induction r as [|a r IH]; intros [|x c] Hr Hc; try apply valid_0.
  apply Forall_cons_1 in Hr as [Ha Hr]. apply Forall_cons_1 in Hc as [Hx Hc].
  rewrite dot_cons. apply fadd_valid; [by apply fmul_valid | by apply IH].
Qed.

Lemma dot_zeros_r r : ∀ n, dot r (replicate n 0%Z) = 0%Z.
Proof.
  induction r as [|a r IH]; intros [|n]; try done. simpl replicate.
  rewrite dot_cons, IH, fmul_0_r. apply fadd_0_0.
Qed.

Lemma fadd_shuffle a b c d :
  fadd (fadd a b) (fadd c d) = fadd (fadd a c) (fadd b d).
Proof.
  rewrite <- (fadd_assoc a b), (fadd_assoc b c), (fadd_comm b c).
  by rewrite <- (fadd_assoc c b), (fadd_assoc a c).
Qed.

Lemma dot_add r : ∀ x y,
  length x = length y →
  dot r (zip_with fadd x y) = fadd (dot r x) (dot r y).
Proof.
  induction r as [|a r IH]; intros [|x xs] [|y ys] Hlen; try done;
    try (simpl; by rewrite fadd_0_0).
  simpl zip_with. rewrite !dot_cons, IH by (simpl in Hlen; lia).
  by rewrite fmul_fadd_distr, fadd_shuffle.
Qed.

Lemma dot_scale k r : ∀ b, dot r (map (fmul k) b) = fmul k (dot r b).
Proof.
  induction r as [|a r IH]; intros [|x b]; simpl map;
    try (rewrite ?dot_nil_r; simpl; by rewrite fmul_0_r).
  rewrite !dot_cons, IH, fmul_fadd_distr.
  by rewrite !fmul_assoc, (fmul_comm a k).
Qed.

Lemma dot_unit r : ∀ n i x,
  length r = n → Forall valid r → valid x → i < n →
  dot r (unit_vector n i x) = fmul (default 0%Z (r !! i)) x.
Proof.
  induction r as [|a r IH]; intros n i x Hlen Hr Hx Hi; simpl in Hlen.
  { lia. }
  apply Forall_cons_1 in Hr as [Ha Hr].
  destruct n as [|n]; [lia|]. destruct i as [|i].
  - change (unit_vector (S n) 0 x) with (x :: replicate n 0%Z).
    rewrite dot_cons, dot_zeros_r. simpl.
    apply fadd_0_r. by apply fmul_valid.
  - change (unit_vector (S n) (S i) x) with (0%Z :: unit_vector n i x).
    rewrite dot_cons, fmul_0_r, (IH n i x) by (done || lia). simpl.
    apply fadd_0_l, fmul_valid; [|done].
    destruct (r !! i) as [y|] eqn:Hy; simpl; [|apply valid_0].
    by eapply (Forall_lookup_1 _ _ _ _ Hr).
Qed.

Lemma zip_zeros n :
  zip_with fadd (replicate n 0%Z) (replicate n 0%Z) = replicate n 0%Z.
Proof. induction n as [|n IH]; simpl; [done|]. by rewrite fadd_0_0, IH. Qed.

Lemma matvec_add C x y :
  length x = length y →
  matvec C (zip_with fadd x y) = zip_with fadd (matvec C x) (matvec C y).
Proof.
  intros Hlen. unfold matvec.
  induction (rows C) as [|r rs IH]; simpl; [done|].
  by rewrite dot_add, IH.
Qed.

Lemma matvec_scale C k b :
  matvec C (map (fmul k) b) = map (fmul k) (matvec C b).
Proof.
  unfold matvec. induction (rows C) as [|r rs IH]; simpl; [done|].
  by rewrite dot_scale, IH.
Qed.

Lemma in_null_space_add C x y :
  in_null_space C x → in_null_space C y →
  in_null_space C (zip_with fadd x y).
Proof.
  intros [Hx Hx0] [Hy Hy0]. split.
  - rewrite length_zip_with. lia.
  - rewrite matvec_add by congruence. rewrite Hx0, Hy0. apply zip_zeros.
Qed.

Lemma map_fmul_zeros k n :
  map (fmul k) (replicate n 0%Z) = replicate n 0%Z.
Proof. induction n as [|n IH]; simpl; [done|]. by rewrite fmul_0_r, IH. Qed.

Lemma in_null_space_scalar C c b :
  in_null_space C b → in_null_space C (scalar c b).
Proof.
  intros [Hb Hb0]. unfold scalar. split.
  - by rewrite length_map.
  - rewrite matvec_scale, Hb0. apply map_fmul_zeros.
Qed.

Lemma valid_scalar c b : Forall valid b → Forall valid (scalar c b).
Proof.
  intros Hb. unfold scalar. apply Forall_map.
  eapply List.Forall_impl; [|exact Hb]. intros x Hx. simpl.
  apply fmul_valid; [|done].
  pose proof characteristic_range as Hc.
  pose proof (Z.mod_pos_bound c characteristic). unfold valid. lia.
Qed.

Lemma valid_zip_fadd x : ∀ y,
  Forall valid x → Forall valid y → Forall valid (zip_with fadd x y).
Proof.
  induction x as [|a x IH]; intros [|b y] Hx Hy; simpl; try done.
  apply Forall_cons_1 in Hx as [Ha Hx]. apply Forall_cons_1 in Hy as [Hb Hy].
  constructor; [by apply fadd_valid | by apply IH].
Qed.

End LinearAlgebra.

(** ** The induced boundary *)

Section InducedBoundary.
Context `{GL : GaloisLaws} `{PV : Providers}.

Lemma lookup_map {A B} (f : A → B) (l : list A) k :
  map f l !! k = f <$> l !! k.
Proof. revert k. induction l as [|x l IH]; intros [|k]; simpl; auto. Qed.

Lemma column_lookup A j k :
  k < length (rows A) → column j A !! k = Some (entry A k j).
Proof.
  intros Hk. unfold column, entry. rewrite lookup_map.
  apply lookup_lt_is_Some_2 in Hk as [r Hr]. by rewrite Hr.
Qed.

(** A column of a diagonal matrix is a multiple of a unit vector. *)
Lemma column_diag D M j f :
  wf_matrix D → nrows D = M → j < M →
  (∀ a b, a ≠ b → entry D a b = 0%Z) → entry D j j = f →
  column j D = unit_vector M j f.
Proof.
  intros [Hlen _] Hn Hj Hoff Hjj. apply list_eq. intros k.
  unfold unit_vector. destruct (decide (k < M)) as [Hk|Hk].
  - rewrite column_lookup by lia.
    destruct (decide (k = j)) as [->|Hne].
    + rewrite list_lookup_insert_eq by (rewrite length_replicate; lia).
      by rewrite Hjj.
    + rewrite list_lookup_insert_ne by done.
      rewrite lookup_replicate_2 by lia. by rewrite Hoff.
  - rewrite !lookup_ge_None_2; [done| |].
    + rewrite length_insert, length_replicate. lia.
    + unfold column. rewrite length_map. lia.
Qed.

Lemma matmul_column A D B j :
  np_matmul A D = Ok B → j < ncols D →
  column j B = map (λ r, dot r (column j D)) (rows A).
Proof.
  unfold np_matmul. case_decide; [|done]. intros [= <-] Hj.
  unfold column at 1. simpl. rewrite map_map. apply map_ext. intros r.
  rewrite lookup_map, lookup_seq_lt by done. done.
Qed.

Lemma matmul_shape A D B :
  np_matmul A D = Ok B → nrows B = nrows A ∧ ncols B = ncols D.
Proof. unfold np_matmul. case_decide; [|done]. by intros [= <-]. Qed.

(** Multiplying by a diagonal 0/1 selector keeps or clears a column. *)
Lemma matmul_diag_column A D B j f :
  wf_matrix A → Forall (Forall valid) (rows A) →
  wf_matrix D → nrows D = ncols A → j < ncols A →
  (∀ a b, a ≠ b → entry D a b = 0%Z) → entry D j j = f →
  f = 0%Z ∨ f = 1%Z →
  ncols D = ncols A →
  np_matmul A D = Ok B →
  column j B
  = if decide (f = 1%Z) then column j A else replicate (nrows A) 0%Z.
Proof.
  intros [HlenA HrowsA] HvalA HwfD HnD Hj Hoff Hjj Hf HcD Hmul.
  rewrite (matmul_column _ _ _ _ Hmul) by lia.
  rewrite (column_diag D (ncols A) j f) by done.
  rewrite <- HlenA. unfold column. clear HlenA Hmul.
  induction (rows A) as [|r rs IH]; simpl.
  { by destruct (decide _). }
  apply Forall_cons_1 in HrowsA as [Hr HrowsA].
  apply Forall_cons_1 in HvalA as [Hv HvalA].
  assert (Hvj : valid (default 0%Z (r !! j))).
  { destruct (r !! j) as [y|] eqn:Hy; simpl; [|apply valid_0].
    by eapply (Forall_lookup_1 _ _ _ _ Hv). }
  assert (Hfv : valid f) by (destruct Hf as [->| ->]; [apply valid_0|apply valid_1]).
  rewrite (dot_unit r (ncols A) j f) by done.
  specialize (IH HrowsA HvalA).
  destruct Hf as [-> | ->].
  - rewrite decide_False in IH |- * by done.
    by rewrite fmul_0_r, IH.
  - rewrite decide_True in IH |- * by done.
    by rewrite fmul_1_r, IH.
Qed.

Lemma scan_edge_samples self state stp e inc w :
  samples (scan_edge self state stp e inc w).2 = samples w.
Proof.
  unfold scan_edge. destruct (coordinates e) as [u v].
  destruct (state !! vindex u); [|done].
  destruct (state !! vindex v); [|done].
  destruct (decide _); [done|].
  destruct (float_ltb _ _); [|done].
  destruct (setitem2 _ _ _ _); by destruct (testing self).
Qed.

Lemma scan_samples self state stp edges : ∀ inc w,
  samples (scan self state stp edges inc w).2 = samples w.
Proof.
  induction edges as [|e rest IH]; intros inc w; simpl; [done|].
  pose proof (scan_edge_samples self state stp e inc w) as He.
  destruct (scan_edge self state stp e inc w) as [[[inc1|x] e1] w1];
    simpl in *; [|done].
  specialize (IH inc1 w1).
  destruct (scan self state stp rest inc1 w1) as [[r rest'] w2].
  simpl in *. congruence.
Qed.

(** The coefficients drawn depend on the world only through the number of
    samples already taken. *)
Lemma combination_samples basis : ∀ w1 w2,
  samples w1 = samples w2 →
  (combination basis w1).1 = (combination basis w2).1.
Proof.
  induction basis as [|b bs IH]; intros w1 w2 Hs; simpl; [done|].
  specialize (IH (tick_sample w1) (tick_sample w2)).
  destruct (combination bs (tick_sample w1)) as [t1 w1'].
  destruct (combination bs (tick_sample w2)) as [t2 w2'].
  simpl in *. rewrite Hs, IH; [done|]. by rewrite Hs.
Qed.

(** What a call returns, once the induced boundary is formed: the sum of
    the scaled basis vectors of the null space of its transpose. *)
Lemma proposal_value self chain w B :
  induced_boundary self chain w = Ok B →
  (proposal self chain w).1.1
  = reduce np_add (combination (rows (null_space (transpose B))) w).1.
Proof.
  unfold induced_boundary, selector, proposal.
  rewrite FieldArray2_zeros.
  pose proof (scan_samples self (state chain) (step chain)
                (structure1 (lattice chain))
                (np_zeros (length (structure1 (lattice chain)))
                          (length (structure1 (lattice chain)))) w) as Hs.
  destruct (scan _ _ _ _ _ _) as [[[inc|x] edges'] w1]; simpl in *; [|done].
  intros ->.
  match goal with
  | |- context [combination ?b ?w'] =>
      rewrite (combination_samples b w w') by (by destruct (testing self));
      destruct (combination b w') as [terms w2]
  end.
  simpl. by destruct (reduce np_add terms).
Qed.

(** The tail of [proposal] is the code of [_fromNullSpace]. *)
Lemma proposal_fromNullSpace self chain w B :
  induced_boundary self chain w = Ok B →
  (proposal self chain w).1.1 = (fromNullSpace chain B w).1.
Proof.
  intros HB. rewrite (proposal_value self chain w B HB). unfold fromNullSpace.
  by destruct (combination _ _).
Qed.

(** The induced boundary of a call on a well-formed lattice. *)
Lemma induced_spec self chain w :
  let L := lattice chain in
  let edges := structure1 L in
  let M := length edges in
  edges_in_range (state chain) M edges →
  NoDup (eindex <$> edges) →
  wf_boundary L →
  ∃ included B edges',
    selector self chain w = Ok included
    ∧ np_matmul (boundary L) included = Ok B
    ∧ induced_boundary self chain w = Ok B
    ∧ (proposal self chain w).1.2 = with_edges chain edges'
    ∧ nrows B = nrows (boundary L) ∧ ncols B = M
    ∧ ∀ i e, edges !! i = Some e →
        let f := flag self (state chain) (step chain) e
                   (draw_index (state chain) edges (draws w) i) in
        edges' !! i = Some (set_spin f e)
        ∧ entry included (eindex e) (eindex e) = f
        ∧ eindex e < M
        ∧ column (eindex e) B
          = if decide (f = 1%Z) then column (eindex e) (boundary L)
            else replicate (nrows (boundary L)) 0%Z.
Proof.
  intros L edges M Hin Hnd (HwfA & HcA & HvalA).
  destruct (proposal_scan self chain w Hin Hnd)
    as (inc & edges' & w1 & _ & Hsel & Hafter & Hwf & Hn & Hc & Hlen
        & Hedge & Hdiag).
  assert (Hmul : ∃ B, np_matmul (boundary L) inc = Ok B) .
  { unfold np_matmul. rewrite decide_True; [by eexists|].
    fold L edges M in HcA. by rewrite HcA, Hn. }
  destruct Hmul as [B Hmul].
  destruct (matmul_shape _ _ _ Hmul) as [HnB HcB].
  exists inc, B, edges'. split_and!; try done.
  - unfold induced_boundary. by rewrite Hsel.
  - by rewrite HcB.
  - intros i e Hi f. destruct (Hedge i e Hi) as [Hspin Hent].
    assert (eindex e < M) as HeM.
    { unfold edges_in_range in Hin.
      by destruct (Forall_lookup_1 _ _ _ _ Hin Hi). }
    split_and!; try done.
    apply (matmul_diag_column (boundary L) inc B (eindex e) f); try done.
    + by rewrite Hn.
    + by rewrite HcA.
    + intros a b Hab. destruct (Hdiag a b) as [?|(? & _)]; done.
    + apply flag_0_or_1.
    + by rewrite Hc.
Qed.

(** C5: in a call to [proposal] the induced boundary is the matrix product
    of the boundary operator with the edge-inclusion selector, and it is
    what the null space is taken of; the column of an excluded edge is the
    zero column, the column of an included edge is the column of the
    boundary operator. *)
Theorem induced_boundary_columns self chain w :
  let L := lattice chain in
  let edges := structure1 L in
  let M := length edges in
  edges_in_range (state chain) M edges →
  NoDup (eindex <$> edges) →
  wf_boundary L →
  ∃ included induced,
    selector self chain w = Ok included
    ∧ np_matmul (boundary L) included = Ok induced
    ∧ induced_boundary self chain w = Ok induced
    ∧ (proposal self chain w).1.1
      = reduce np_add
          (combination (rows (null_space (transpose induced))) w).1
    ∧ ∀ i e, structure1 (lattice (proposal self chain w).1.2) !! i = Some e →
        (spin e = 0%Z →
           column (eindex e) induced = replicate (nrows (boundary L)) 0%Z)
        ∧ (spin e = 1%Z →
             column (eindex e) induced = column (eindex e) (boundary L)).
Proof.
  intros L edges M Hin Hnd Hwf.
  destruct (induced_spec self chain w Hin Hnd Hwf)
    as (inc & B & edges' & Hsel & Hmul & Hind & Hafter & _ & _ & Hedge).
  exists inc, B. split_and!; try done.
  - by apply proposal_value.
  - intros i e' Hi. rewrite Hafter in Hi. simpl in Hi.
    assert (is_Some (edges !! i)) as [e He].
    { apply lookup_lt_is_Some. apply lookup_lt_Some in Hi.
      destruct (proposal_scan self chain w Hin Hnd)
        as (? & edges2 & ? & _ & _ & Hafter2 & _ & _ & _ & Hlen & _).
      rewrite Hafter in Hafter2. injection Hafter2 as <-.
      rewrite Hlen in Hi. exact Hi. }
    destruct (Hedge i e He) as (Hspin & _ & _ & Hcol).
    rewrite Hspin in Hi. injection Hi as <-. simpl.
    rewrite Hcol. split; intros Hf.
    + rewrite decide_False; [done|]. rewrite Hf. done.
    + by rewrite decide_True.
Qed.

End InducedBoundary.

(** ** Sampling from the null space *)

Section NullSpace.
Context `{GL : GaloisLaws} `{PV : Providers}.

Lemma np_add_same_length x y :
  length x = length y → np_add x y = Ok (zip_with fadd x y).
Proof. intros Hlen. unfold np_add. by rewrite decide_True. Qed.

(** A field vector in the null space of [C]. *)
Local Abbreviation null_vector C :=
  (λ t : list Z, in_null_space C t ∧ Forall valid t).

Lemma foldl_np_add C ts : ∀ acc,
  null_vector C acc → Forall (null_vector C) ts →
  ∃ p, foldl (λ acc y, bind acc (λ a, np_add a y)) (Ok acc) ts = Ok p
       ∧ null_vector C p.
Proof.
  induction ts as [|t ts IH]; intros acc Hacc Hts; simpl.
  - by exists acc.
  - apply Forall_cons_1 in Hts as [Ht Hts].
    destruct Hacc as [Hnull Hval]. destruct Ht as [Htnull Htval].
    rewrite np_add_same_length
      by (destruct Hnull as [-> _]; by destruct Htnull as [-> _]).
    apply IH; [|done]. split.
    + by apply in_null_space_add.
    + by apply valid_zip_fadd.
Qed.

Lemma reduce_in_null_space C terms :
  terms ≠ [] → Forall (null_vector C) terms →
  ∃ p, reduce np_add terms = Ok p ∧ null_vector C p.
Proof.
  destruct terms as [|t ts]; [done|]. intros _ Hts.
  apply Forall_cons_1 in Hts as [Ht Hts]. simpl. by apply foldl_np_add.
Qed.

Lemma combination_Forall (P Q : list Z → Prop) basis : ∀ w,
  (∀ c b, P b → Q (scalar c b)) →
  Forall P basis → Forall Q (combination basis w).1.
Proof.
  induction basis as [|b bs IH]; intros w HPQ Hb; simpl; [constructor|].
  apply Forall_cons_1 in Hb as [Hb Hbs].
  specialize (IH (tick_sample w) HPQ Hbs).
  destruct (combination bs (tick_sample w)) as [ts w']. simpl in *.
  constructor; [by apply HPQ | done].
Qed.

Lemma combination_nil basis w : (combination basis w).1 = [] ↔ basis = [].
Proof.
  destruct basis as [|b bs]; simpl; [done|].
  by destruct (combination bs (tick_sample w)).
Qed.

Lemma matvec_transpose_lookup B p j :
  j < ncols B →
  matvec (transpose B) p !! j = Some (dot (column j B) p).
Proof.
  intros Hj. unfold matvec, transpose. simpl.
  rewrite !lookup_map, lookup_seq_lt by done. done.
Qed.

Lemma length_unit_vector n i x : length (unit_vector n i x) = n.
Proof. unfold unit_vector. by rewrite length_insert, length_replicate. Qed.

(** A vector orthogonal to the incidence column of an edge takes the same
    value at both endpoints. *)
Lemma dot_incidence n a b p :
  length p = n → Forall valid p → a < n → b < n →
  dot (incidence_column n a b) p = 0%Z → p !! a = p !! b.
Proof.
  intros Hlen Hval Ha Hb. unfold incidence_column.
  rewrite dot_comm, dot_add by (by rewrite !length_unit_vector).
  assert (Hf : valid (fneg 1)) by apply fneg_valid, valid_1.
  rewrite !dot_unit by (done || apply valid_1).
  assert (is_Some (p !! a)) as [x Hx] by (apply lookup_lt_is_Some; lia).
  assert (is_Some (p !! b)) as [y Hy] by (apply lookup_lt_is_Some; lia).
  rewrite Hx, Hy. simpl.
  assert (valid x) by by eapply (Forall_lookup_1 _ _ _ _ Hval).
  assert (valid y) by by eapply (Forall_lookup_1 _ _ _ _ Hval).
  rewrite fmul_1_r by done. rewrite fadd_comm, (fmul_comm x). intros Hdot.
  f_equal. symmetry. by apply fadd_fneg_cancel.
Qed.

(** C2: assuming the rows that [null_space] returns for the induced
    coboundary are field vectors of its null space, a call to [proposal]
    returns as soon as that basis is not empty, and whatever it returns is a
    field vector in that null space; when moreover the boundary operator is
    the incidence matrix of the edges, the returned assignment takes the
    same value at the two endpoints of every edge whose diagonal selector
    entry is 1. *)
Theorem proposal_in_null_space self chain w :
  let L := lattice chain in
  let edges := structure1 L in
  let M := length edges in
  edges_in_range (state chain) M edges →
  NoDup (eindex <$> edges) →
  wf_boundary L →
  length (state chain) = nrows (boundary L) →
  is_incidence L →
  (∀ B, induced_boundary self chain w = Ok B →
        Forall (λ b, in_null_space (transpose B) b ∧ Forall valid b)
               (rows (null_space (transpose B)))) →
  ∃ included B,
    selector self chain w = Ok included
    ∧ induced_boundary self chain w = Ok B
    ∧ (rows (null_space (transpose B)) ≠ [] →
         ∃ proposed, (proposal self chain w).1.1 = Ok proposed)
    ∧ ∀ proposed, (proposal self chain w).1.1 = Ok proposed →
        in_null_space (transpose B) proposed
        ∧ Forall valid proposed
        ∧ ∀ e, e ∈ edges →
            entry included (eindex e) (eindex e) = 1%Z →
            proposed !! vindex (coordinates e).1
            = proposed !! vindex (coordinates e).2.
Proof.
  intros L edges M Hin Hnd Hwf Hstate Hinc Hbasis.
  destruct (induced_spec self chain w Hin Hnd Hwf)
    as (inc & B & edges' & Hsel & Hmul & Hind & Hafter & HnB & HcB & Hedge).
  specialize (Hbasis B Hind).
  pose proof (proposal_value self chain w B Hind) as Hval.
  assert (Hterms : Forall (λ t, in_null_space (transpose B) t ∧ Forall valid t)
                     (combination (rows (null_space (transpose B))) w).1).
  { eapply combination_Forall; [|exact Hbasis].
    intros c b [Hb Hv]. split;
      [by apply in_null_space_scalar | by apply valid_scalar]. }
  exists inc, B. split_and!; try done.
  - intros Hne.
    destruct (reduce_in_null_space (transpose B) _
                (λ H, Hne (proj1 (combination_nil _ w) H)) Hterms)
      as (p & Hp & _).
    exists p. by rewrite Hval.
  - intros proposed Hret. rewrite Hval in Hret.
    assert (Hne : (combination (rows (null_space (transpose B))) w).1 ≠ []).
    { intros Hnil. by rewrite Hnil in Hret. }
    destruct (reduce_in_null_space (transpose B) _ Hne Hterms)
      as (p & Hp & Hnull & Hpv).
    rewrite Hp in Hret. injection Hret as <-.
    split_and!; try done.
    intros e He Hent. apply list_elem_of_lookup in He as [i Hi].
    destruct (Hedge i e Hi) as (_ & Hent' & HeM & Hcol).
    simpl in Hent', Hcol. rewrite Hent in Hent'.
    rewrite decide_True in Hcol by done.
    destruct Hnull as [Hlen Hzero]. simpl in Hlen, Hzero.
    assert (Hdot : dot (column (eindex e) B) p = 0%Z).
    { assert (Some (dot (column (eindex e) B) p) = Some 0%Z) as [= ->]; [|done].
      rewrite <- matvec_transpose_lookup by (by rewrite HcB).
      rewrite Hzero. apply lookup_replicate_2. by rewrite HcB. }
    rewrite Hcol in Hdot.
    destruct (Forall_lookup_1 _ _ _ _ Hin Hi) as [_ [Hu Hv]].
    rewrite Hstate in Hu, Hv. rewrite HnB in Hlen.
    pose proof (Forall_lookup_1 _ _ _ _ Hinc Hi) as Ho.
    subst L. simpl in Ho. destruct Ho as [Ho|Ho]; rewrite Ho in Hdot.
    + by apply (dot_incidence (nrows (boundary (lattice chain)))).
    + symmetry. by apply (dot_incidence (nrows (boundary (lattice chain)))).
Qed.

(** C1, as the code has it: when the null-space basis of the induced
    coboundary is empty, [reduce] is given an empty list and no initial
    value, and the call raises [TypeError]; no zero vector is returned. *)
Theorem empty_basis_raises self chain w B :
  induced_boundary self chain w = Ok B →
  rows (null_space (transpose B)) = [] →
  (proposal self chain w).1.1 = Raise TypeError.
Proof.
  intros Hind Hnil. rewrite (proposal_value self chain w B Hind).
  by rewrite Hnil.
Qed.

End NullSpace.

(** ** What a call leaves untouched *)

Section Frame.
Context `{GF : Galois} `{PV : Providers}.

(** The loop body writes the [spin] slot of the edge and nothing else of
    it. *)
Lemma scan_edge_frame self state stp e inc w :
  eindex (scan_edge self state stp e inc w).1.2 = eindex e
  ∧ coordinates (scan_edge self state stp e inc w).1.2 = coordinates e.
Proof.
  unfold scan_edge. destruct (coordinates e) as [u v] eqn:Huv.
  destruct (state !! vindex u); [|done].
  destruct (state !! vindex v); [|done].
  destruct (decide _); [done|].
  destruct (float_ltb _ _); [|done].
  by destruct (setitem2 _ _ _ _).
Qed.

Lemma scan_frame self state stp edges : ∀ inc w,
  Forall2 (λ e e', eindex e' = eindex e ∧ coordinates e' = coordinates e)
    edges (scan self state stp edges inc w).1.2.
Proof.
  induction edges as [|e rest IH]; intros inc w; simpl; [constructor|].
  pose proof (scan_edge_frame self state stp e inc w) as He.
  destruct (scan_edge self state stp e inc w) as [[[inc1|x] e1] w1];
    simpl in *.
  - specialize (IH inc1 w1).
    destruct (scan self state stp rest inc1 w1) as [[r rest'] w2].
    simpl in *. by constructor.
  - constructor; [done|]. apply Forall2_same_length_lookup_2; [done|].
    intros i x1 x2 H1 H2. rewrite H1 in H2. by injection H2 as <-.
Qed.

(** C9: a call to [proposal] leaves the state vector and the step index of
    the chain as they were, whether it returns or raises; of the lattice it
    keeps the vertices, the boundary operator, and the index and endpoints
    of every edge: only the [spin] slots of the edges are written. *)
Theorem proposal_frame self chain w :
  let chain' := (proposal self chain w).1.2 in
  state chain' = state chain
  ∧ step chain' = step chain
  ∧ structure0 (lattice chain') = structure0 (lattice chain)
  ∧ boundary (lattice chain') = boundary (lattice chain)
  ∧ Forall2 (λ e e', eindex e' = eindex e ∧ coordinates e' = coordinates e)
      (structure1 (lattice chain)) (structure1 (lattice chain')).
Proof.
  unfold proposal.
  destruct (FieldArray2 _) as [inc0|x]; simpl.
  - pose proof (scan_frame self (state chain) (step chain)
                  (structure1 (lattice chain)) inc0 w) as Hfr.
    destruct (scan _ _ _ _ _ _) as [[r edges'] w1]. simpl in Hfr.
    assert (Hgoal : ∀ c, c = with_edges chain edges' →
              state c = state chain ∧ step c = step chain
              ∧ structure0 (lattice c) = structure0 (lattice chain)
              ∧ boundary (lattice c) = boundary (lattice chain)
              ∧ Forall2 (λ e e', eindex e' = eindex e
                                 ∧ coordinates e' = coordinates e)
                  (structure1 (lattice chain)) (structure1 (lattice c))).
    { by intros c ->. }
    apply Hgoal. destruct r as [inc|x]; [|done].
    destruct (np_matmul _ _) as [B|x]; [|done].
    destruct (combination _ _) as [terms w2].
    by destruct (reduce _ _).
  - split_and!; try done.
    apply Forall2_same_length_lookup_2; [done|].
    intros i x1 x2 H1 H2. rewrite H1 in H2. by injection H2 as <-.
Qed.

End Frame.

(** ** The initial state *)

Section Initial.
Context `{GL : GaloisLaws} `{PV : Providers}.

Lemma draw_cocycle_length distribution n : ∀ w,
  length (draw_cocycle distribution n w).1 = n.
Proof.
  induction n as [|n IH]; intros w; simpl; [done|].
  specialize (IH (tick_sample w)).
  destruct (draw_cocycle distribution n (tick_sample w)) as [xs w'].
  simpl in *. by rewrite IH.
Qed.

Lemma draw_cocycle_valid distribution n : ∀ w,
  (∀ k low high, (low < high)%Z →
                 (low ≤ distribution k low high < high)%Z) →
  Forall valid (draw_cocycle distribution n w).1.
Proof.
  induction n as [|n IH]; intros w Hd; simpl; [constructor|].
  specialize (IH (tick_sample w) Hd).
  destruct (draw_cocycle distribution n (tick_sample w)) as [xs w'].
  simpl in *. constructor; [|done].
  apply Hd. pose proof order_gt_1. lia.
Qed.

Lemma FieldArray_ones n :
  FieldArray (replicate n 1%Z) = Ok (replicate n 1%Z).
Proof.
  unfold FieldArray. rewrite decide_True; [done|].
  apply Forall_replicate, valid_1.
Qed.

Lemma FieldArray_of_list_ones n :
  n ≠ 0 → FieldArray_of_list (replicate n 1%Z) = Ok (replicate n 1%Z).
Proof.
  intros Hn. destruct n as [|n]; [done|].
  unfold FieldArray_of_list. cbn [replicate]. apply (FieldArray_ones (S n)).
Qed.

(** C7: with the testing flag set, [initial] raises [TypeError] on a lattice
    without vertices, whatever the distribution draws: the array of the
    empty list of ones is an array of floats, which the field refuses. On
    every other lattice it returns the vector that holds the field element 1
    for every vertex. *)
Theorem initial_testing_cases self L distribution w :
  testing self = true →
  (structure0 L = [] →
   (initial self L distribution w).1.1 = Raise TypeError)
  ∧ (structure0 L ≠ [] →
     (initial self L distribution w).1.1
     = Ok (replicate (length (structure0 L)) 1%Z)).
Proof.
  intros Ht. unfold initial.
  destruct (draw_cocycle _ _ _) as [cocycle w']. rewrite Ht. simpl. split.
  - by intros ->.
  - intros Hne. apply FieldArray_of_list_ones.
    by destruct (structure0 L).
Qed.

(** C8, as amended: over a field whose elements are C longs, which the
    conversion of line 152 keeps as they are, and with a distribution that
    maps bounds [low < high] to an integer in [low, high), [initial] returns
    one entry per vertex, each a field element in [0, order), and the
    lattice is as it was; in testing mode, for a lattice that has a
    vertex. *)
Theorem initial_shape self L distribution w :
  (order ≤ 2 ^ 63)%Z →
  (∀ xs, Forall c_long xs → np_array_astype_int xs = Ok xs) →
  (∀ k low high, (low < high)%Z →
                 (low ≤ distribution k low high < high)%Z) →
  (testing self = true → structure0 L ≠ []) →
  ∃ st,
    (initial self L distribution w).1.1 = Ok st
    ∧ length st = length (structure0 L)
    ∧ Forall (λ x, (0 ≤ x < order)%Z) st
    ∧ (initial self L distribution w).1.2 = L.
Proof.
  intros Hord Hconv Hd Hne. unfold initial.
  pose proof (draw_cocycle_length distribution (length (structure0 L)) w)
    as Hlen.
  pose proof (draw_cocycle_valid distribution (length (structure0 L)) w Hd)
    as Hval.
  destruct (draw_cocycle _ _ _) as [cocycle w']. simpl in Hlen, Hval.
  destruct (testing self); simpl.
  - exists (replicate (length (structure0 L)) 1%Z).
    rewrite FieldArray_of_list_ones
      by (specialize (Hne eq_refl); by destruct (structure0 L)).
    split_and!; try done; [apply length_replicate|].
    apply Forall_replicate, valid_1.
  - exists cocycle. rewrite Hconv.
    + simpl. unfold FieldArray. rewrite decide_True by done. done.
    + eapply List.Forall_impl; [|exact Hval].
      intros x [H0 H1]. unfold c_long. lia.
Qed.

End Initial.

(** ** The model at the sample inputs *)

(** On the triangle with spins 1, 1, 2, schedule -1 (p about 0.632) and draw
    1/2:
    the edge v0-v1 is included, the two edges into v2 are excluded. *)
Example triangle_selector :
  @selector (sample_providers two_clusters) (model (-1)) triangle_chain world0
  = Ok (mkMatrix 3 3 [[1; 0; 0]; [0; 0; 0]; [0; 0; 0]]%Z).
Proof. vm_compute. reflexivity. Qed.

Example triangle_induced :
  @induced_boundary GF3 (sample_providers two_clusters) (model (-1))
    triangle_chain world0
  = Ok (mkMatrix 3 3 [[2; 0; 0]; [1; 0; 0]; [0; 0; 0]]%Z).
Proof. vm_compute. reflexivity. Qed.

(** The proposal is 1 * (1, 1, 0) + 2 * (0, 0, 1); one draw and two samples
    are taken, and the stale flag of the edge v1-v2 is overwritten. *)
Example triangle_proposal :
  let r := @proposal GF3 (sample_providers two_clusters) (model (-1))
             triangle_chain world0 in
  r.1.1 = Ok [1; 1; 2]%Z
  ∧ spin <$> structure1 (lattice r.1.2) = [1; 0; 0]%Z
  ∧ r.2 = mkWorld 1 2 [].
Proof. vm_compute. repeat split. Qed.

(** In testing mode the same call reports the inclusion, writes the state
    and the induced boundary, and prints the proposal. *)
Example triangle_trace :
  out (@proposal GF3 (sample_providers two_clusters) (testing_model (-1))
         triangle_chain world0).2
  = [PrintIncluded v0 v1 (1 # 2)
       (Finite (355852255607829 # 562949953421312));
     CsvState 0 [1; 1; 2]%Z;
     CsvOperator 0 (mkMatrix 3 3 [[2; 0; 0]; [1; 0; 0]; [0; 0; 0]]%Z);
     PrintProposed [1; 1; 2]%Z].
Proof. vm_compute. reflexivity. Qed.

(** The pendant edge: the call raises, after the edge has been flagged. *)
Example pendant_proposal :
  let r := @proposal GF2 (sample_providers empty_basis) (model (-1))
             pendant_chain world0 in
  r.1.1 = Raise TypeError
  ∧ spin <$> structure1 (lattice r.1.2) = [1%Z].
Proof. vm_compute. repeat split. Qed.

(** Why the indices of the edges are required to be distinct: when two edges
    share an index, the selector entry of the excluded one is the 1 the
    included one has written. *)
Example doubled_selector :
  let r := @proposal GF3 (sample_providers two_clusters) (model (-1))
             doubled_chain world0 in
  spin <$> structure1 (lattice r.1.2) = [1; 0]%Z
  ∧ ∃ included,
      @selector (sample_providers two_clusters) (model (-1)) doubled_chain
        world0 = Ok included
      ∧ entry included 0 0 = 1%Z.
Proof. split; [by vm_compute|]. eexists. split; [by vm_compute|done]. Qed.

(** ** The theorems at the sample inputs *)

Lemma GF2_laws : @GaloisLaws GF2.
Proof. by apply prime_field_laws. Qed.

Lemma GF3_laws : @GaloisLaws GF3.
Proof. by apply prime_field_laws. Qed.

Lemma triangle_in_range :
  edges_in_range (state triangle_chain) 3 (structure1 triangle).
Proof. repeat constructor; simpl; lia. Qed.

Lemma triangle_distinct : NoDup (eindex <$> structure1 triangle).
Proof. by apply (bool_decide_unpack _). Qed.

Lemma selector_is_diagonal_witness :
  edges_in_range (state triangle_chain) 3 (structure1 triangle)
  ∧ NoDup (eindex <$> structure1 triangle)
  ∧ ∃ included,
      @selector (sample_providers two_clusters) (model (-1)) triangle_chain
        world0 = Ok included
      ∧ wf_matrix included ∧ nrows included = 3 ∧ ncols included = 3
      ∧ (∀ a b, a ≠ b → entry included a b = 0%Z)
      ∧ (∀ i e,
           structure1
             (lattice
                (@proposal GF3 (sample_providers two_clusters) (model (-1))
                   triangle_chain world0).1.2) !! i = Some e →
           entry included (eindex e) (eindex e) = spin e
           ∧ (spin e = 0%Z ∨ spin e = 1%Z)).
Proof.
  split; [exact triangle_in_range|]. split; [exact triangle_distinct|].
  exact (@selector_is_diagonal GF3 GF3_laws (sample_providers two_clusters)
           (model (-1)) triangle_chain world0
           triangle_in_range triangle_distinct).
Defined.

Lemma mismatch_excludes_witness :
  edges_in_range (state triangle_chain) 3 (structure1 triangle)
  ∧ NoDup (eindex <$> structure1 triangle)
  ∧ structure1 triangle !! 1 = Some (mkEdge 1 (v1, v2) 1)
  ∧ state triangle_chain !! 1 = Some 1%Z
  ∧ state triangle_chain !! 2 = Some 2%Z
  ∧ 1%Z ≠ 2%Z
  ∧ structure1
      (lattice
         (@proposal GF3 (sample_providers two_clusters) (model (-1))
            triangle_chain world0).1.2) !! 1
    = Some (mkEdge 1 (v1, v2) 0)
  ∧ (∃ included,
       @selector (sample_providers two_clusters) (model (-1)) triangle_chain
         world0 = Ok included
       ∧ entry included 1 1 = 0%Z)
  ∧ (∀ inc w0,
       @scan_edge (sample_providers two_clusters) (model (-1))
         (state triangle_chain) (step triangle_chain) (mkEdge 1 (v1, v2) 1)
         inc w0
       = (Ok inc, mkEdge 1 (v1, v2) 0, w0)).
Proof.
  split; [exact triangle_in_range|]. split; [exact triangle_distinct|].
  split; [reflexivity|]. split; [reflexivity|]. split; [reflexivity|].
  split; [lia|].
  exact (@mismatch_excludes GF3 GF3_laws (sample_providers two_clusters)
           (model (-1)) triangle_chain world0 1 (mkEdge 1 (v1, v2) 1) 1 2
           triangle_in_range triangle_distinct eq_refl eq_refl eq_refl
           ltac:(lia)).
Defined.

Lemma same_spin_inclusion_witness :
  edges_in_range (state triangle_chain) 3 (structure1 triangle)
  ∧ NoDup (eindex <$> structure1 triangle)
  ∧ structure1 triangle !! 0 = Some (mkEdge 0 (v0, v1) 0)
  ∧ state triangle_chain !! 0 = Some 1%Z
  ∧ state triangle_chain !! 1 = Some 1%Z
  ∧ float_ltb (Finite (1 # 2))
      (float_sub (Finite 1) (exp_sample (Finite (-1)))) = true
  ∧ (∃ included,
       @selector (sample_providers two_clusters) (model (-1)) triangle_chain
         world0 = Ok included
       ∧ entry included 0 0 = 1%Z
       ∧ structure1
           (lattice
              (@proposal GF3 (sample_providers two_clusters) (model (-1))
                 triangle_chain world0).1.2) !! 0
         = Some (mkEdge 0 (v0, v1) 1))
  ∧ float_sub (Finite 1) (exp_table (Finite (-3)))
    = Finite (8558757209642229 # 9007199254740992)
  ∧ (∃ included,
       @selector (rounding_providers two_clusters) (model (-3))
         triangle_chain world0 = Ok included
       ∧ entry included 0 0 = 0%Z
       ∧ structure1
           (lattice
              (@proposal GF3 (rounding_providers two_clusters) (model (-3))
                 triangle_chain world0).1.2) !! 0
         = Some (mkEdge 0 (v0, v1) 0)).
Proof.
  split; [exact triangle_in_range|]. split; [exact triangle_distinct|].
  split; [reflexivity|]. split; [reflexivity|]. split; [reflexivity|].
  assert (Hbelow : float_ltb (Finite (1 # 2))
                     (float_sub (Finite 1) (exp_sample (Finite (-1))))
                   = true) by (vm_compute; reflexivity).
  assert (Hp : float_sub (Finite 1) (exp_table (Finite (-3)))
               = Finite (8558757209642229 # 9007199254740992))
    by (vm_compute; reflexivity).
  assert (Hequal : float_ltb (Finite (8558757209642229 # 9007199254740992))
                     (float_sub (Finite 1) (exp_table (Finite (-3))))
                   = false) by (vm_compute; reflexivity).
  split; [exact Hbelow|]. split; [|split; [exact Hp|]].
  - destruct (@same_spin_inclusion GF3 GF3_laws
                (sample_providers two_clusters) (model (-1)) triangle_chain
                world0 0 (mkEdge 0 (v0, v1) 0) 1 triangle_in_range
                triangle_distinct eq_refl eq_refl eq_refl)
      as (inc & Hsel & Hin & _).
    exists inc. split; [exact Hsel|]. exact (Hin Hbelow).
  - destruct (@same_spin_inclusion GF3 GF3_laws
                (rounding_providers two_clusters) (model (-3)) triangle_chain
                world0 0 (mkEdge 0 (v0, v1) 0) 1 triangle_in_range
                triangle_distinct eq_refl eq_refl eq_refl)
      as (inc & Hsel & _ & Hout).
    exists inc. split; [exact Hsel|]. exact (Hout Hequal).
Defined.

Lemma half_in_unit_interval (k : nat) : (0 <= 1 # 2)%Q ∧ (1 # 2 < 1)%Q.
Proof. split; [discriminate | reflexivity]. Qed.

Lemma rounded_in_unit_interval (k : nat) :
  (0 <= 8558757209642229 # 9007199254740992)%Q
  ∧ (8558757209642229 # 9007199254740992 < 1)%Q.
Proof. split; [discriminate | reflexivity]. Qed.

Lemma probability_not_clamped_witness :
  edges_in_range (state triangle_chain) 3 (structure1 triangle)
  ∧ NoDup (eindex <$> structure1 triangle)
  ∧ (∀ k : nat, (0 <= 1 # 2)%Q ∧ (1 # 2 < 1)%Q)
  ∧ float_leb (float_sub (Finite 1) (exp_sample (Finite (7 # 10))))
      (Finite 0) = true
  ∧ (∃ included,
       @selector (sample_providers two_clusters) (model (7 # 10))
         triangle_chain world0 = Ok included
       ∧ ∀ a b, entry included a b = 0%Z)
  ∧ float_sub (Finite 1) (exp_sample (Finite 800)) = NegInf
  ∧ (∃ included,
       @selector (sample_providers two_clusters) (model 800)
         triangle_chain world0 = Ok included
       ∧ ∀ a b, entry included a b = 0%Z)
  ∧ float_sub (Finite 1) (exp_table (Finite (-40))) = Finite 1
  ∧ (∃ included,
       @selector (rounding_providers two_clusters) (model (-40))
         triangle_chain world0 = Ok included
       ∧ entry included 0 0 = 1%Z).
Proof.
  split; [exact triangle_in_range|]. split; [exact triangle_distinct|].
  split; [exact half_in_unit_interval|].
  assert (Hlow : float_leb
                   (float_sub (Finite 1) (exp_sample (Finite (7 # 10))))
                   (Finite 0) = true) by (vm_compute; reflexivity).
  assert (Hinf : float_sub (Finite 1) (exp_sample (Finite 800)) = NegInf)
    by (vm_compute; reflexivity).
  assert (Hone : float_sub (Finite 1) (exp_table (Finite (-40))) = Finite 1)
    by (vm_compute; reflexivity).
  split; [exact Hlow|]. split; [|split; [exact Hinf|split; [|split]]].
  - destruct (@probability_not_clamped GF3 GF3_laws
                (sample_providers two_clusters) (model (7 # 10))
                triangle_chain world0 triangle_in_range triangle_distinct
                half_in_unit_interval) as (inc & Hsel & Hnone & _).
    exists inc. split; [exact Hsel|]. exact (proj1 (Hnone Hlow)).
  - destruct (@probability_not_clamped GF3 GF3_laws
                (sample_providers two_clusters) (model 800)
                triangle_chain world0 triangle_in_range triangle_distinct
                half_in_unit_interval) as (inc & Hsel & Hnone & _).
    exists inc. split; [exact Hsel|].
    refine (proj1 (Hnone _)).
    change (float_leb (float_sub (Finite 1) (exp_sample (Finite 800)))
              (Finite 0) = true).
    rewrite Hinf. reflexivity.
  - exact Hone.
  - destruct (@probability_not_clamped GF3 GF3_laws
                (rounding_providers two_clusters) (model (-40))
                triangle_chain world0 triangle_in_range triangle_distinct
                rounded_in_unit_interval) as (inc & Hsel & _ & Hall).
    exists inc. split; [exact Hsel|].
    refine (proj1 (Hall _ 0 (mkEdge 0 (v0, v1) 0) eq_refl eq_refl)).
    change (float_leb (Finite 1)
              (float_sub (Finite 1) (exp_table (Finite (-40)))) = true).
    rewrite Hone. reflexivity.
Defined.

Lemma triangle_boundary : @wf_boundary GF3 triangle.
Proof.
  split; [|split]; [by repeat constructor | done |].
  repeat constructor; unfold valid; simpl; lia.
Qed.

Lemma induced_boundary_columns_witness :
  edges_in_range (state triangle_chain) 3 (structure1 triangle)
  ∧ NoDup (eindex <$> structure1 triangle)
  ∧ @wf_boundary GF3 triangle
  ∧ ∃ included induced,
      @selector (sample_providers two_clusters) (model (-1)) triangle_chain
        world0 = Ok included
      ∧ @np_matmul GF3 (boundary triangle) included = Ok induced
      ∧ @induced_boundary GF3 (sample_providers two_clusters) (model (-1))
          triangle_chain world0 = Ok induced
      ∧ (@proposal GF3 (sample_providers two_clusters) (model (-1))
           triangle_chain world0).1.1
        = reduce (@np_add GF3)
            (@combination GF3 (sample_providers two_clusters)
               (rows two_clusters) world0).1
      ∧ ∀ i e,
          structure1
            (lattice
               (@proposal GF3 (sample_providers two_clusters) (model (-1))
                  triangle_chain world0).1.2) !! i = Some e →
          (spin e = 0%Z → column (eindex e) induced = [0; 0; 0]%Z)
          ∧ (spin e = 1%Z →
               column (eindex e) induced = column (eindex e) (boundary triangle)).
Proof.
  split; [exact triangle_in_range|]. split; [exact triangle_distinct|].
  split; [exact triangle_boundary|].
  exact (@induced_boundary_columns GF3 GF3_laws (sample_providers two_clusters)
           (model (-1)) triangle_chain world0
           triangle_in_range triangle_distinct triangle_boundary).
Defined.

Lemma triangle_incidence : @is_incidence GF3 triangle.
Proof. repeat constructor. Qed.

Lemma two_clusters_null (B : Matrix) :
  @induced_boundary GF3 (sample_providers two_clusters) (model (-1))
    triangle_chain world0 = Ok B →
  Forall (λ b, @in_null_space GF3 (transpose B) b ∧ Forall (@valid GF3) b)
    (rows (@null_space (sample_providers two_clusters) (transpose B))).
Proof.
  intros HB. vm_compute in HB. injection HB as <-.
  repeat constructor; unfold valid; simpl; lia.
Qed.

Lemma proposal_in_null_space_witness :
  edges_in_range (state triangle_chain) 3 (structure1 triangle)
  ∧ NoDup (eindex <$> structure1 triangle)
  ∧ @wf_boundary GF3 triangle
  ∧ length (state triangle_chain) = nrows (boundary triangle)
  ∧ @is_incidence GF3 triangle
  ∧ (∃ proposed,
       (@proposal GF3 (sample_providers two_clusters) (model (-1))
          triangle_chain world0).1.1 = Ok proposed
       ∧ Forall (@valid GF3) proposed
       ∧ proposed !! 0 = proposed !! 1).
Proof.
  split; [exact triangle_in_range|]. split; [exact triangle_distinct|].
  split; [exact triangle_boundary|]. split; [reflexivity|].
  split; [exact triangle_incidence|].
  destruct (@proposal_in_null_space GF3 GF3_laws
              (sample_providers two_clusters) (model (-1)) triangle_chain
              world0 triangle_in_range triangle_distinct triangle_boundary
              eq_refl triangle_incidence two_clusters_null)
    as (inc & B & Hsel & HB & Hret & Hnull).
  vm_compute in Hsel. injection Hsel as <-.
  vm_compute in HB. injection HB as <-.
  destruct (Hret ltac:(discriminate)) as [proposed Hp].
  exists proposed. split; [exact Hp|].
  destruct (Hnull proposed Hp) as (_ & Hval & Hedge).
  split; [exact Hval|].
  apply (Hedge (mkEdge 0 (v0, v1) 0)); [|reflexivity].
  apply list_elem_of_here.
Defined.

Lemma empty_basis_raises_witness :
  @induced_boundary GF2 (sample_providers empty_basis) (model (-1))
    pendant_chain world0 = Ok (mkMatrix 1 1 [[1%Z]])
  ∧ rows (@null_space (sample_providers empty_basis)
            (transpose (mkMatrix 1 1 [[1%Z]]))) = []
  ∧ (@proposal GF2 (sample_providers empty_basis) (model (-1))
       pendant_chain world0).1.1 = Raise TypeError.
Proof.
  assert (HB : @induced_boundary GF2 (sample_providers empty_basis)
                 (model (-1)) pendant_chain world0
               = Ok (mkMatrix 1 1 [[1%Z]])) by (vm_compute; reflexivity).
  split; [exact HB|]. split; [reflexivity|].
  exact (@empty_basis_raises GF2 GF2_laws (sample_providers empty_basis)
           (model (-1)) pendant_chain world0 (mkMatrix 1 1 [[1%Z]])
           HB eq_refl).
Defined.

(** The empty basis is the right answer of [null_space] at the pendant edge:
    the zero vector is the only field vector the induced coboundary
    annihilates. *)
Lemma pendant_null_space_trivial (x : list Z) :
  Forall (@valid GF2) x →
  @in_null_space GF2 (transpose (mkMatrix 1 1 [[1%Z]])) x → x = [0%Z].
Proof.
  intros Hx [Hlen Hzero]. destruct x as [|a [|b x]]; try done.
  apply Forall_cons_1 in Hx as [Ha _]. unfold valid in Ha. simpl in Ha.
  assert (a = 0 ∨ a = 1)%Z as [-> | ->] by lia; [done|].
  vm_compute in Hzero. discriminate.
Qed.

Lemma initial_testing_cases_witness :
  testing (testing_model 0) = true
  ∧ (@initial GF3 (sample_providers two_clusters) (testing_model 0) no_cells
       lowest world0).1.1
    = Raise TypeError
  ∧ (@initial GF3 (sample_providers two_clusters) (testing_model 0) triangle
       lowest world0).1.1
    = Ok [1; 1; 1]%Z.
Proof.
  split; [reflexivity|]. split.
  - exact (proj1 (@initial_testing_cases GF3 GF3_laws
                    (sample_providers two_clusters) (testing_model 0)
                    no_cells lowest world0 eq_refl) eq_refl).
  - exact (proj2 (@initial_testing_cases GF3 GF3_laws
                    (sample_providers two_clusters) (testing_model 0)
                    triangle lowest world0 eq_refl) ltac:(discriminate)).
Defined.

Lemma lowest_in_bounds (k : nat) (low high : Z) :
  (low < high)%Z → (low ≤ lowest k low high < high)%Z.
Proof. unfold lowest. lia. Qed.

Lemma astype_sample_keeps (xs : list Z) :
  Forall c_long xs → astype_sample xs = Ok xs.
Proof. intros Hxs. unfold astype_sample. by rewrite decide_True. Qed.

Lemma initial_shape_witness :
  (@order GF3 ≤ 2 ^ 63)%Z
  ∧ (∀ xs, Forall c_long xs → astype_sample xs = Ok xs)
  ∧ (∀ k low high, (low < high)%Z → (low ≤ lowest k low high < high)%Z)
  ∧ (∃ st,
       (@initial GF3 (sample_providers two_clusters) (model 0) triangle
          lowest world0).1.1 = Ok st
       ∧ length st = 3
       ∧ Forall (λ x, (0 ≤ x < 3)%Z) st
       ∧ (@initial GF3 (sample_providers two_clusters) (model 0) triangle
            lowest world0).1.2 = triangle)
  ∧ (∃ st,
       (@initial GF3 (sample_providers two_clusters) (testing_model 0)
          triangle lowest world0).1.1 = Ok st
       ∧ length st = 3
       ∧ Forall (λ x, (0 ≤ x < 3)%Z) st
       ∧ (@initial GF3 (sample_providers two_clusters) (testing_model 0)
            triangle lowest world0).1.2 = triangle).
Proof.
  assert (Hord : (@order GF3 ≤ 2 ^ 63)%Z) by (vm_compute; discriminate).
  split; [exact Hord|]. split; [exact astype_sample_keeps|].
  split; [exact lowest_in_bounds|]. split.
  - exact (@initial_shape GF3 GF3_laws (sample_providers two_clusters)
             (model 0) triangle lowest world0 Hord astype_sample_keeps
             lowest_in_bounds ltac:(discriminate)).
  - exact (@initial_shape GF3 GF3_laws (sample_providers two_clusters)
             (testing_model 0) triangle lowest world0 Hord
             astype_sample_keeps lowest_in_bounds
             (λ _, ltac:(discriminate))).
Defined.

Lemma highest_in_bounds (k : nat) (low high : Z) :
  (low < high)%Z → (low ≤ highest k low high < high)%Z.
Proof. unfold highest. lia. Qed.

(** The claim C8 as it was stated fails at two inputs, at both of which the
    distribution keeps its bounds. In testing mode on the lattice without
    cells the call raises [TypeError] instead of returning the empty vector.
    Over the prime field of order 2^64 + 13 the field element 2^64 + 12 that
    the distribution yields is not a C long, and the conversion of line 152
    raises [OverflowError], as numpy does for this integer. *)
Lemma initial_shape_counterexample :
  let r := @initial GF3 (sample_providers two_clusters) (testing_model 0)
             no_cells lowest world0 in
  let r' := @initial GF_wide (sample_providers two_clusters) (model 0)
              triangle highest world0 in
  ((∀ k low high, (low < high)%Z → (low ≤ lowest k low high < high)%Z)
   ∧ r.1.1 = Raise TypeError
   ∧ ¬ ∃ st,
         r.1.1 = Ok st
         ∧ length st = length (structure0 no_cells)
         ∧ Forall (λ x, (0 ≤ x < @order GF3)%Z) st
         ∧ r.1.2 = no_cells)
  ∧ ((∀ k low high, (low < high)%Z → (low ≤ highest k low high < high)%Z)
     ∧ r'.1.1 = Raise OverflowError
     ∧ ¬ ∃ st,
           r'.1.1 = Ok st
           ∧ length st = length (structure0 triangle)
           ∧ Forall (λ x, (0 ≤ x < @order GF_wide)%Z) st
           ∧ r'.1.2 = triangle).
Proof.
  split.
  - split; [exact lowest_in_bounds|]. split; [reflexivity|].
    intros (st & Hst & _). discriminate Hst.
  - split; [exact highest_in_bounds|].
    assert (Hr : (@initial GF_wide (sample_providers two_clusters) (model 0)
                    triangle highest world0).1.1 = Raise OverflowError)
      by (vm_compute; reflexivity).
    split; [exact Hr|].
    intros (st & Hst & _). rewrite Hr in Hst. discriminate Hst.
Qed.

(** ** Bookkeeping of a call: draws, samples, output *)

Section Accounting.
Context `{GL : GaloisLaws} `{PV : Providers}.

Lemma combination_world basis : ∀ w,
  (combination basis w).2
  = mkWorld (draws w) (samples w + length basis) (out w).
Proof.
  induction basis as [|b bs IH]; intros w; simpl.
  - destruct w. simpl. f_equal. lia.
  - specialize (IH (tick_sample w)).
    destruct (combination bs (tick_sample w)) as [ts w']. simpl in *.
    rewrite IH. simpl. f_equal. lia.
Qed.

Lemma draw_index_count state edges : ∀ d,
  draw_index state edges d (length edges)
  = d + length (filter (λ e, same_spin state e = true) edges).
Proof.
  induction edges as [|e rest IH]; intros d; simpl; [lia|].
  rewrite IH, filter_cons.
  destruct (same_spin state e); case_decide; simpl; (lia || congruence).
Qed.

Lemma draw_index_all_same state edges : ∀ d i,
  Forall (λ e, same_spin state e = true) edges →
  i ≤ length edges →
  draw_index state edges d i = d + i.
Proof.
  induction edges as [|e rest IH]; intros d [|i] Hall Hi; simpl in *;
    try lia.
  apply Forall_cons_1 in Hall as [-> Hall].
  rewrite IH by (done || lia). lia.
Qed.

(** The counters after a call, in terms of its scan. *)
Lemma proposal_world self chain w :
  draws (proposal self chain w).2
  = draws (scan self (state chain) (step chain) (structure1 (lattice chain))
             (np_zeros (length (structure1 (lattice chain)))
                       (length (structure1 (lattice chain)))) w).2
  ∧ samples (proposal self chain w).2
    = match induced_boundary self chain w with
      | Ok B => samples w + length (rows (null_space (transpose B)))
      | Raise _ => samples w
      end.
Proof.
  unfold proposal, induced_boundary, selector.
  rewrite FieldArray2_zeros.
  pose proof (scan_samples self (state chain) (step chain)
                (structure1 (lattice chain))
                (np_zeros (length (structure1 (lattice chain)))
                          (length (structure1 (lattice chain)))) w) as Hs.
  destruct (scan _ _ _ _ _ _) as [[[inc|x] edges'] w1]; simpl in *; [|done].
  destruct (np_matmul _ _) as [B|x]; simpl; [|done].
  match goal with
  | |- context [combination ?b ?w'] =>
      pose proof (combination_world b w') as Hw;
      destruct (combination b w') as [terms w2]
  end.
  simpl in Hw. subst w2.
  destruct (reduce np_add terms); destruct (testing self); simpl; split;
    (done || lia).
Qed.

(** X1: a call on edges whose indices are in range takes one number from
    [np.random.uniform] for every edge whose endpoints carry equal spins and
    none for the others; it takes one sample of the discrete distribution
    for every basis vector when the induced boundary is formed, and none
    when the product with the selector fails. *)
Theorem proposal_draw_count self chain w :
  let edges := structure1 (lattice chain) in
  edges_in_range (state chain) (length edges) edges →
  draws (proposal self chain w).2
  = draws w + length (filter (λ e, same_spin (state chain) e = true) edges)
  ∧ samples (proposal self chain w).2
    = match induced_boundary self chain w with
      | Ok B => samples w + length (rows (null_space (transpose B)))
      | Raise _ => samples w
      end.
Proof.
  intros edges Hin.
  destruct (proposal_world self chain w) as [Hd Hs]. split; [|done].
  rewrite Hd.
  destruct (scan_spec self (state chain) (step chain) edges
              (np_zeros (length edges) (length edges)) w
              (wf_np_zeros _ _))
    as (inc & edges' & w1 & Hscan & _ & _ & _ & _ & Hdraws & _).
  { eapply List.Forall_impl; [|exact Hin]. simpl. intros e [? ?]. done. }
  fold edges. rewrite Hscan. simpl. rewrite Hdraws.
  apply draw_index_count.
Qed.

End Accounting.

(** ** The diagnostic mode *)

Section Diagnostics.
Context `{GL : GaloisLaws} `{PV : Providers}.

Lemma scan_edge_quiet self state stp e inc w w' :
  draws w = draws w' →
  (scan_edge self state stp e inc w).1
  = (scan_edge (quiet self) state stp e inc w').1
  ∧ draws (scan_edge self state stp e inc w).2
    = draws (scan_edge (quiet self) state stp e inc w').2
  ∧ out (scan_edge (quiet self) state stp e inc w').2 = out w'.
Proof.
  intros Hd. unfold scan_edge. simpl. destruct (coordinates e) as [u v].
  destruct (state !! vindex u); [|done].
  destruct (state !! vindex v); [|done].
  destruct (decide _); [done|]. rewrite Hd.
  destruct (float_ltb _ _); [|by simpl; rewrite Hd].
  destruct (setitem2 _ _ _ _); destruct (testing self); simpl;
    by rewrite Hd.
Qed.

Lemma scan_quiet self state stp edges : ∀ inc w w',
  draws w = draws w' →
  (scan self state stp edges inc w).1
  = (scan (quiet self) state stp edges inc w').1
  ∧ draws (scan self state stp edges inc w).2
    = draws (scan (quiet self) state stp edges inc w').2
  ∧ out (scan (quiet self) state stp edges inc w').2 = out w'.
Proof.
  induction edges as [|e rest IH]; intros inc w w' Hd; simpl; [done|].
  destruct (scan_edge_quiet self state stp e inc w w' Hd) as (H1 & H2 & H3).
  destruct (scan_edge self state stp e inc w) as [[r1 e1] w1].
  destruct (scan_edge (quiet self) state stp e inc w') as [[r2 e2] w2].
  simpl in *. injection H1 as -> ->.
  destruct r2 as [inc1|x]; simpl; [|done].
  destruct (IH inc1 w1 w2 H2) as (H4 & H5 & H6).
  destruct (scan self state stp rest inc1 w1) as [[r3 rest3] w3].
  destruct (scan (quiet self) state stp rest inc1 w2) as [[r4 rest4] w4].
  simpl in *. injection H4 as -> ->. split_and!; congruence.
Qed.

(** X2: the testing flag of the model changes nothing but the diagnostic
    output: the returned value or exception, the chain after the call and
    the numbers of draws and samples taken are those of the same call with
    the flag off, and with the flag off nothing is printed or written. *)
Theorem proposal_quiet self chain w :
  (proposal self chain w).1 = (proposal (quiet self) chain w).1
  ∧ draws (proposal self chain w).2 = draws (proposal (quiet self) chain w).2
  ∧ samples (proposal self chain w).2
    = samples (proposal (quiet self) chain w).2
  ∧ out (proposal (quiet self) chain w).2 = out w.
Proof.
  unfold proposal. rewrite FieldArray2_zeros. cbv zeta.
  set (M := length (structure1 (lattice chain))).
  destruct (scan_quiet self (state chain) (step chain)
              (structure1 (lattice chain)) (np_zeros M M) w w eq_refl)
    as (H1 & H2 & H3).
  pose proof (scan_samples self (state chain) (step chain)
                (structure1 (lattice chain)) (np_zeros M M) w) as Hs1.
  pose proof (scan_samples (quiet self) (state chain) (step chain)
                (structure1 (lattice chain)) (np_zeros M M) w) as Hs2.
  destruct (scan self _ _ _ _ _) as [[r1 edges1] w1].
  destruct (scan (quiet self) _ _ _ _ _) as [[r2 edges2] w2].
  simpl in *. injection H1 as -> ->.
  destruct r2 as [inc|x]; simpl; [|split_and!; congruence].
  destruct (np_matmul _ _) as [B|x]; simpl; [|split_and!; congruence].
  set (basis := rows (null_space (transpose B))).
  set (w1' := if testing self
              then emit (CsvOperator (step chain) B)
                     (emit (CsvState (step chain) (state chain)) w1)
              else w1).
  assert (Hw1 : draws w1' = draws w1 ∧ samples w1' = samples w1)
    by (subst w1'; by destruct (testing self)).
  destruct Hw1 as [Hd1 Hsm1].
  pose proof (combination_samples basis w1' w2 ltac:(congruence)) as Hterms.
  pose proof (combination_world basis w1') as Hc1.
  pose proof (combination_world basis w2) as Hc2.
  destruct (combination basis w1') as [terms1 w3].
  destruct (combination basis w2) as [terms2 w4].
  simpl in *. subst terms2 w3 w4.
  destruct (reduce np_add terms1); destruct (testing self); simpl;
    split_and!; congruence.
Qed.

Lemma scan_trace self state stp edges : ∀ inc w inc' edges' w',
  testing self = true →
  scan self state stp edges inc w = (Ok inc', edges', w') →
  ∃ trace,
    out w' = out w ++ trace
    ∧ Forall is_PrintIncluded trace
    ∧ length trace = length (filter (λ e, spin e = 1%Z) edges').
Proof.
  induction edges as [|e rest IH]; intros inc w inc' edges' w' Ht Hscan;
    simpl in Hscan.
  - injection Hscan as <- <- <-. exists []. by rewrite app_nil_r.
  - assert (Hedge : ∃ inc1 e1 w1 ev,
              scan_edge self state stp e inc w = (Ok inc1, e1, w1)
              ∧ out w1 = out w ++ ev ∧ Forall is_PrintIncluded ev
              ∧ length ev = length (filter (λ e, spin e = 1%Z) [e1])).
    { unfold scan_edge in *. destruct (coordinates e) as [u v].
      destruct (state !! vindex u); [|done].
      destruct (state !! vindex v); [|done].
      destruct (decide _).
      { eexists _, _, _, []. split; [done|]. by rewrite app_nil_r. }
      destruct (float_ltb _ _).
      - destruct (setitem2 _ _ _ _) as [inc1|x]; [|done]. rewrite Ht.
        eexists _, _, _, [_]. split; [done|]. simpl.
        split; [done|]. split; [by repeat constructor|done].
      - eexists _, _, _, []. split; [done|]. by rewrite app_nil_r. }
    destruct Hedge as (inc1 & e1 & w1 & ev & Hstep & Hout & Hev & Hlen).
    rewrite Hstep in Hscan.
    destruct (scan self state stp rest inc1 w1) as [[r rest'] w2] eqn:Hrest.
    injection Hscan as -> <- <-.
    destruct (IH inc1 w1 inc' rest' w2 Ht Hrest) as (tr & Hout' & Htr & Hlen').
    exists (ev ++ tr). split_and!.
    + by rewrite Hout', Hout, app_assoc.
    + by apply Forall_app.
    + rewrite length_app, Hlen, Hlen', !filter_cons.
      destruct (decide (spin e1 = 1%Z)); simpl; lia.
Qed.

(** X3: in testing mode, a call that forms its induced boundary prints one
    line for every edge it has flagged 1, then writes the state and the
    induced boundary, and prints the proposal only if it returns: when the
    call raises after the product (an empty basis), the two matrices have
    been written all the same. *)
Theorem proposal_trace self chain w B :
  testing self = true →
  induced_boundary self chain w = Ok B →
  ∃ trace,
    Forall is_PrintIncluded trace
    ∧ length trace
      = length (filter (λ e, spin e = 1%Z)
                  (structure1 (lattice (proposal self chain w).1.2)))
    ∧ out (proposal self chain w).2
      = out w ++ trace
        ++ [CsvState (step chain) (state chain); CsvOperator (step chain) B]
        ++ match (proposal self chain w).1.1 with
           | Ok proposed => [PrintProposed proposed]
           | Raise _ => []
           end.
Proof.
  intros Ht. unfold induced_boundary, selector, proposal.
  rewrite FieldArray2_zeros. cbv zeta.
  destruct (scan _ _ _ _ _ _) as [[[inc|x] edges'] w1] eqn:Hscan; simpl;
    [|done].
  intros ->. rewrite Ht.
  destruct (scan_trace _ _ _ _ _ _ _ _ _ Ht Hscan) as (tr & Hout & Htr & Hlen).
  exists tr.
  match goal with
  | |- context [combination ?b ?w'] =>
      pose proof (combination_world b w') as Hw;
      destruct (combination b w') as [terms w2]
  end.
  simpl in Hw. subst w2.
  destruct (reduce np_add terms); simpl; split_and!; try done;
    rewrite Hout, <- ?app_assoc; simpl; by rewrite ?app_nil_r.
Qed.

End Diagnostics.

(** ** Exceptions of a call *)

Section Exceptions.
Context `{GL : GaloisLaws} `{PV : Providers}.

Lemma scan_app self state stp pre rest : ∀ inc w,
  scan self state stp (pre ++ rest) inc w
  = match scan self state stp pre inc w with
    | (Ok inc1, pre', w1) =>
      let '(r, rest', w2) := scan self state stp rest inc1 w1 in
      (r, pre' ++ rest', w2)
    | (Raise x, pre', w1) => (Raise x, pre' ++ rest, w1)
    end.
Proof.
  induction pre as [|e pre IH]; intros inc w; simpl.
  - by destruct (scan self state stp rest inc w) as [[r rest'] w2].
  - destruct (scan_edge self state stp e inc w) as [[[inc1|x] e1] w1];
      [|done].
    rewrite IH.
    destruct (scan self state stp pre inc1 w1) as [[[inc2|x] pre'] w2];
      [|done].
    by destruct (scan self state stp rest inc2 w2) as [[r rest'] w3].
Qed.

(** A scan that raises ends the call with its exception. *)
Lemma proposal_scan_raise self chain w x edges' w1 :
  scan self (state chain) (step chain) (structure1 (lattice chain))
    (np_zeros (length (structure1 (lattice chain)))
              (length (structure1 (lattice chain)))) w
  = (Raise x, edges', w1) →
  proposal self chain w = (Raise x, with_edges chain edges', w1).
Proof.
  intros Hscan. unfold proposal. rewrite FieldArray2_zeros. cbv zeta.
  by rewrite Hscan.
Qed.

(** The scan of a prefix of the edges that is in range. *)
Lemma scan_prefix self chain w pre :
  edges_in_range (state chain) (length (structure1 (lattice chain))) pre →
  ∃ inc1 pre' w1,
    scan self (state chain) (step chain) pre
      (np_zeros (length (structure1 (lattice chain)))
                (length (structure1 (lattice chain)))) w
    = (Ok inc1, pre', w1)
    ∧ nrows inc1 = length (structure1 (lattice chain))
    ∧ ncols inc1 = length (structure1 (lattice chain))
    ∧ samples w1 = samples w
    ∧ draws w1
      = draws w
        + length (filter (λ e, same_spin (state chain) e = true) pre)
    ∧ length pre' = length pre
    ∧ ∀ i e0, pre !! i = Some e0 →
        pre' !! i
        = Some (set_spin
                  (flag self (state chain) (step chain) e0
                     (draw_index (state chain) pre (draws w) i)) e0).
Proof.
  intros Hin.
  destruct (scan_spec self (state chain) (step chain) pre
              (np_zeros (length (structure1 (lattice chain)))
                        (length (structure1 (lattice chain)))) w
              (wf_np_zeros _ _))
    as (inc1 & pre' & w1 & Hscan & _ & Hn & Hc & Hs & Hd & Hlen & Hspin & _).
  { eapply List.Forall_impl; [|exact Hin]. simpl. intros e [? ?]. done. }
  exists inc1, pre', w1. rewrite draw_index_count in Hd. done.
Qed.

(** X4: when an endpoint of an edge does not index the state vector, the
    call raises [IndexError] at that edge. It is not undone: the edges
    before it carry their new flags, the edge itself and the edges after it
    keep the flags they had, one draw has been taken for every earlier edge
    with equal spins, and no sample has been taken. *)
Theorem proposal_endpoint_out_of_range self chain w pre e post :
  structure1 (lattice chain) = pre ++ e :: post →
  edges_in_range (state chain) (length (structure1 (lattice chain))) pre →
  ¬ endpoints_in_range (state chain) e →
  ∃ pre',
    (proposal self chain w).1.1 = Raise IndexError
    ∧ structure1 (lattice (proposal self chain w).1.2) = pre' ++ e :: post
    ∧ length pre' = length pre
    ∧ (∀ i e0, pre !! i = Some e0 →
         pre' !! i
         = Some (set_spin
                   (flag self (state chain) (step chain) e0
                      (draw_index (state chain) pre (draws w) i)) e0))
    ∧ draws (proposal self chain w).2
      = draws w + length (filter (λ e, same_spin (state chain) e = true) pre)
    ∧ samples (proposal self chain w).2 = samples w.
Proof.
  intros Hedges Hin Hout.
  destruct (scan_prefix self chain w pre Hin)
    as (inc1 & pre' & w1 & Hscan & _ & _ & Hs & Hd & Hlen & Hspin).
  assert (Hstep : scan_edge self (state chain) (step chain) e inc1 w1
                  = (Raise IndexError, e, w1)).
  { unfold scan_edge. unfold endpoints_in_range in Hout.
    destruct (coordinates e) as [u v]. simpl in Hout.
    destruct (state chain !! vindex u) as [su|] eqn:Hu; [|done].
    destruct (state chain !! vindex v) as [sv|] eqn:Hv; [|done].
    apply lookup_lt_Some in Hu, Hv. tauto. }
  rewrite (proposal_scan_raise self chain w IndexError (pre' ++ e :: post) w1).
  { exists pre'. by split_and!. }
  rewrite Hedges at 1. rewrite scan_app, Hscan. simpl. by rewrite Hstep.
Qed.

(** X5: when the index of an edge does not fit the selector, the call
    raises [IndexError] if the edge is included, that is, if its endpoints
    carry equal spins and its draw is below the float [p]: the draw has been
    taken, the edge keeps the flag it had, and so do the edges after it. *)
Theorem proposal_index_out_of_range self chain w pre e post :
  let M := length (structure1 (lattice chain)) in
  let d := draws w
           + length (filter (λ e, same_spin (state chain) e = true) pre) in
  structure1 (lattice chain) = pre ++ e :: post →
  edges_in_range (state chain) M pre →
  endpoints_in_range (state chain) e →
  M ≤ eindex e →
  same_spin (state chain) e = true →
  float_ltb (Finite (np_random_uniform d)) (probability self (step chain))
  = true →
  ∃ pre',
    (proposal self chain w).1.1 = Raise IndexError
    ∧ structure1 (lattice (proposal self chain w).1.2) = pre' ++ e :: post
    ∧ length pre' = length pre
    ∧ draws (proposal self chain w).2 = S d
    ∧ samples (proposal self chain w).2 = samples w.
Proof.
  intros M d Hedges Hin [Hu Hv] Hidx Hsame Hq.
  destruct (scan_prefix self chain w pre Hin)
    as (inc1 & pre' & w1 & Hscan & Hn & _ & Hs & Hd & Hlen & _).
  unfold probability in Hq. fold d in Hd.
  assert (Hstep : ∃ w2,
            scan_edge self (state chain) (step chain) e inc1 w1
            = (Raise IndexError, e, w2)
            ∧ draws w2 = S d ∧ samples w2 = samples w1).
  { unfold scan_edge. unfold same_spin in Hsame.
    apply bool_decide_eq_true_1 in Hsame.
    destruct (coordinates e) as [u v]. simpl in *.
    apply lookup_lt_is_Some_2 in Hu as [su Hu].
    apply lookup_lt_is_Some_2 in Hv as [sv Hv].
    rewrite Hu, Hv in Hsame |- *. injection Hsame as ->.
    rewrite decide_False by (intros Hne; by apply Hne).
    rewrite Hd, Hq. unfold setitem2.
    destruct (decide _) as [[Hlt _]|_]; [exfalso; unfold M in Hidx; lia|].
    eexists. split; [done|].
    destruct (testing self); simpl; by rewrite Hd. }
  destruct Hstep as (w2 & Hstep & Hd2 & Hs2).
  rewrite (proposal_scan_raise self chain w IndexError (pre' ++ e :: post) w2).
  { exists pre'. split_and!; try done. simpl. congruence. }
  rewrite Hedges at 1. rewrite scan_app, Hscan. simpl. by rewrite Hstep.
Qed.

(** X6: when the boundary operator does not have one column per edge, the
    call raises [ValueError] at the matrix product, after the scan: every
    edge carries its new flag, and no sample has been taken. *)
Theorem proposal_shape_mismatch self chain w :
  let edges := structure1 (lattice chain) in
  edges_in_range (state chain) (length edges) edges →
  ncols (boundary (lattice chain)) ≠ length edges →
  (proposal self chain w).1.1 = Raise ValueError
  ∧ (∀ i e, edges !! i = Some e →
       structure1 (lattice (proposal self chain w).1.2) !! i
       = Some (set_spin
                 (flag self (state chain) (step chain) e
                    (draw_index (state chain) edges (draws w) i)) e))
  ∧ samples (proposal self chain w).2 = samples w.
Proof.
  intros edges Hin Hshape.
  destruct (scan_prefix self chain w edges Hin)
    as (inc1 & edges' & w1 & Hscan & Hn & _ & Hs & _ & _ & Hspin).
  unfold edges in *. unfold proposal. rewrite FieldArray2_zeros. cbv zeta.
  rewrite Hscan. unfold np_matmul.
  rewrite decide_False by congruence. done.
Qed.

End Exceptions.

(** ** What the induced boundary is when nothing or everything is included *)

Section Extremes.
Context `{GL : GaloisLaws} `{PV : Providers}.

Lemma map_all_const {A B} (f : A → B) (c : B) (l : list A) :
  (∀ x, f x = c) → map f l = replicate (length l) c.
Proof.
  intros Hf. induction l as [|x l IH]; simpl; [done|]. by rewrite Hf, IH.
Qed.

Lemma column_zero D j :
  (∀ a b, entry D a b = 0%Z) →
  column j D = replicate (length (rows D)) 0%Z.
Proof.
  intros Hzero. apply list_eq. intros k.
  destruct (decide (k < length (rows D))) as [Hk|Hk].
  - rewrite column_lookup by done. rewrite lookup_replicate_2 by done.
    by rewrite Hzero.
  - rewrite !lookup_ge_None_2; [done| |].
    + rewrite length_replicate. lia.
    + unfold column. rewrite length_map. lia.
Qed.

Lemma row_of_lookups (r : list Z) :
  map (λ j, default 0%Z (r !! j)) (seq 0 (length r)) = r.
Proof.
  apply list_eq. intros k. rewrite lookup_map.
  destruct (decide (k < length r)) as [Hk|Hk].
  - rewrite lookup_seq_lt by done. simpl.
    apply lookup_lt_is_Some_2 in Hk as [x Hx]. by rewrite Hx.
  - rewrite lookup_seq_ge by lia. simpl. symmetry.
    apply lookup_ge_None_2. lia.
Qed.

(** Distinct indices below the number of edges are all the indices. *)
Lemma index_of_some_edge (edges : list Edge) j :
  NoDup (eindex <$> edges) →
  Forall (λ e, eindex e < length edges) edges →
  j < length edges →
  ∃ i e, edges !! i = Some e ∧ eindex e = j.
Proof.
  intros Hnd Hlt Hj.
  assert (Hperm : eindex <$> edges ≡ₚ seq 0 (length edges)).
  { apply submseteq_length_Permutation.
    - apply NoDup_submseteq; [done|]. intros x Hx.
      apply list_elem_of_fmap in Hx as (e & -> & He).
      apply elem_of_seq. apply list_elem_of_lookup in He as [i Hi].
      pose proof (Forall_lookup_1 _ _ _ _ Hlt Hi). simpl in *. lia.
    - by rewrite length_seq, length_fmap. }
  assert (Hjin : j ∈ eindex <$> edges).
  { rewrite Hperm. apply elem_of_seq. lia. }
  apply list_elem_of_fmap in Hjin as (e & -> & He).
  apply list_elem_of_lookup in He as [i Hi]. by exists i, e.
Qed.

(** X7: when the call has flagged every edge 0, the induced boundary is the
    zero matrix with one row per row of the boundary operator and one
    column per edge, so that every assignment on the vertices is in the
    null space it samples from. *)
Theorem nothing_included_zero_boundary self chain w :
  let L := lattice chain in
  let edges := structure1 L in
  edges_in_range (state chain) (length edges) edges →
  wf_matrix (boundary L) →
  ncols (boundary L) = length edges →
  Forall (λ e, spin e = 0%Z)
    (structure1 (lattice (proposal self chain w).1.2)) →
  induced_boundary self chain w
  = Ok (np_zeros (nrows (boundary L)) (length edges)).
Proof.
  intros L edges Hin [HlenA _] HcA Hflags.
  destruct (scan_spec self (state chain) (step chain) edges
              (np_zeros (length edges) (length edges)) w (wf_np_zeros _ _))
    as (inc & edges' & w1 & Hscan & [Hleninc _] & Hn & Hc & _ & _ & _
        & Hspin & _ & Hdiag).
  { eapply List.Forall_impl; [|exact Hin]. simpl. intros e [? ?]. done. }
  rewrite proposal_chain_after in Hflags. fold L edges in Hflags.
  rewrite Hscan in Hflags. simpl in Hflags.
  assert (Hzero : ∀ a b, entry inc a b = 0%Z).
  { intros a b. destruct (Hdiag a b) as [->|(_ & _ & i & e & Hi & _ & Hf)].
    - apply entry_np_zeros.
    - specialize (Hspin i e Hi). rewrite Hf in Hspin.
      pose proof (Forall_lookup_1 _ _ _ _ Hflags Hspin) as Hs. done. }
  unfold induced_boundary, selector. fold L edges. rewrite Hscan. simpl.
  unfold np_matmul. simpl in Hn, Hc. rewrite decide_True by congruence.
  unfold np_zeros. rewrite Hc. f_equal. f_equal.
  rewrite <- HlenA. apply map_all_const. intros r.
  rewrite (map_all_const _ 0%Z), length_seq; [done|]. intros j.
  rewrite (column_zero inc j Hzero). apply dot_zeros_r.
Qed.

(** X8: when the call has flagged every edge 1, the induced boundary is the
    boundary operator itself: the proposal is drawn from the null space of
    the full coboundary. *)
Theorem everything_included_same_boundary self chain w :
  let L := lattice chain in
  let edges := structure1 L in
  edges_in_range (state chain) (length edges) edges →
  NoDup (eindex <$> edges) →
  wf_boundary L →
  Forall (λ e, spin e = 1%Z)
    (structure1 (lattice (proposal self chain w).1.2)) →
  induced_boundary self chain w = Ok (boundary L).
Proof.
  intros L edges Hin Hnd ([HlenA HrowsA] & HcA & HvalA) Hflags.
  subst edges L.
  destruct (proposal_scan self chain w Hin Hnd)
    as (inc & edges' & w1 & _ & Hsel & Hafter & Hwf & Hn & Hc & Hlen
        & Hedge & Hdiag).
  rewrite Hafter in Hflags. simpl in Hflags.
  assert (Hone : ∀ j, j < length (structure1 (lattice chain)) →
                       entry inc j j = 1%Z).
  { intros j Hj.
    destruct (index_of_some_edge _ j Hnd) as (i & e & Hi & <-);
      [|done|].
    { eapply List.Forall_impl; [|exact Hin]. simpl. by intros e [? _]. }
    destruct (Hedge i e Hi) as [Hspin ->]. simpl in Hspin.
    by pose proof (Forall_lookup_1 _ _ _ _ Hflags Hspin) as Hs. }
  unfold induced_boundary. rewrite Hsel. simpl. unfold np_matmul.
  simpl in Hn, Hc. rewrite decide_True by congruence.
  destruct (boundary (lattice chain)) as [n m rws] eqn:HA. simpl in *.
  subst m.
  rewrite Hc. f_equal. f_equal.
  transitivity (map id rws); [|apply map_id].
  apply map_ext_in. intros r Hin_r. unfold id.
  rewrite List.Forall_forall in HrowsA, HvalA.
  pose proof (HrowsA r Hin_r) as Hr. pose proof (HvalA r Hin_r) as Hv.
  simpl in Hr.
  transitivity (map (λ j, default 0%Z (r !! j)) (seq 0 (length r)));
    [|apply row_of_lookups].
  rewrite Hr.
  apply map_ext_in. intros j Hj. apply in_seq in Hj.
  rewrite (column_diag inc (length (structure1 (lattice chain))) j 1%Z);
    try done; try lia.
  - rewrite dot_unit by (done || lia || apply valid_1).
    apply fmul_1_r.
    destruct (r !! j) as [y|] eqn:Hy; simpl; [|apply valid_0].
    by eapply (Forall_lookup_1 _ _ _ _ Hv).
  - intros a b Hab. destruct (Hdiag a b) as [?|(? & _)]; done.
  - apply Hone. lia.
Qed.

End Extremes.

(** ** The flags are transient *)

Section Transient.
Context `{GL : GaloisLaws} `{PV : Providers}.

Lemma scan_edge_same_cell self state stp e1 e2 inc w :
  same_cell e1 e2 →
  (scan_edge self state stp e1 inc w).1.1
  = (scan_edge self state stp e2 inc w).1.1
  ∧ (scan_edge self state stp e1 inc w).2
    = (scan_edge self state stp e2 inc w).2
  ∧ (∀ inc1, (scan_edge self state stp e1 inc w).1.1 = Ok inc1 →
       (scan_edge self state stp e1 inc w).1.2
       = (scan_edge self state stp e2 inc w).1.2).
Proof.
  intros [Hidx Hco]. destruct e1 as [i1 c1 s1], e2 as [i2 c2 s2].
  simpl in *. subst i2 c2. unfold scan_edge, set_spin. simpl.
  destruct c1 as [u v].
  destruct (state !! vindex u); [|done].
  destruct (state !! vindex v); [|done].
  destruct (decide _); [done|].
  destruct (float_ltb _ _); [|done].
  by destruct (setitem2 _ _ _ _).
Qed.

Lemma scan_same_cell self state stp es1 : ∀ es2 inc w,
  Forall2 same_cell es1 es2 →
  (scan self state stp es1 inc w).1.1 = (scan self state stp es2 inc w).1.1
  ∧ (scan self state stp es1 inc w).2 = (scan self state stp es2 inc w).2
  ∧ (∀ inc1, (scan self state stp es1 inc w).1.1 = Ok inc1 →
       (scan self state stp es1 inc w).1.2
       = (scan self state stp es2 inc w).1.2).
Proof.
  induction es1 as [|e1 es1 IH]; intros es2 inc w Hsame.
  - apply Forall2_nil_inv_l in Hsame as ->. done.
  - apply Forall2_cons_inv_l in Hsame as (e2 & es2' & He & Hes & ->).
    simpl.
    destruct (scan_edge_same_cell self state stp e1 e2 inc w He)
      as (H1 & H2 & H3).
    destruct (scan_edge self state stp e1 inc w) as [[r1 e1'] w1].
    destruct (scan_edge self state stp e2 inc w) as [[r2 e2'] w2].
    simpl in *. subst r2 w2.
    destruct r1 as [inc1|x]; simpl; [|done].
    rewrite <- (H3 inc1 eq_refl).
    destruct (IH es2' inc1 w1 Hes) as (H4 & H5 & H6).
    destruct (scan self state stp es1 inc1 w1) as [[r3 es3] w3].
    destruct (scan self state stp es2' inc1 w1) as [[r4 es4] w4].
    simpl in *. subst r4 w4. split_and!; try done.
    intros inc2 ->. by rewrite (H6 inc2 eq_refl).
Qed.

(** X9: the flags the edges carry before a call do not matter. Two chains
    that differ only in the [spin] slots of their edges get the same value
    or exception and the same draws, samples and output; when the scan
    completes they are left with the same flags. *)
Theorem proposal_ignores_flags self chain w edges2 :
  Forall2 same_cell (structure1 (lattice chain)) edges2 →
  (proposal self chain w).1.1
  = (proposal self (with_edges chain edges2) w).1.1
  ∧ (proposal self chain w).2 = (proposal self (with_edges chain edges2) w).2
  ∧ (∀ included, selector self chain w = Ok included →
       (proposal self chain w).1.2
       = (proposal self (with_edges chain edges2) w).1.2).
Proof.
  intros Hsame.
  assert (Hlen : length (structure1 (lattice chain)) = length edges2)
    by (eapply Forall2_length; exact Hsame).
  unfold selector, proposal. rewrite !FieldArray2_zeros. cbv zeta. simpl.
  rewrite <- Hlen.
  set (M := length (structure1 (lattice chain))).
  destruct (scan_same_cell self (state chain) (step chain)
              (structure1 (lattice chain)) edges2 (np_zeros M M) w Hsame)
    as (H1 & H2 & H3).
  destruct (scan self _ _ (structure1 (lattice chain)) _ _)
    as [[r1 es1] w1].
  destruct (scan self _ _ edges2 _ _) as [[r2 es2] w2].
  simpl in *. subst r2 w2.
  destruct r1 as [inc|x]; simpl; [|done].
  rewrite <- (H3 inc eq_refl). unfold with_edges. simpl.
  destruct (np_matmul _ _) as [B|x]; simpl; [|done].
  destruct (combination _ _) as [terms w3].
  by destruct (reduce np_add terms).
Qed.

(** X10: the fixture of the testing mode. On the state that assigns 1 to
    every vertex no edge is excluded for its spins: every edge takes a draw,
    the edge at position [i] the [i]-th one of the call, and is flagged 1
    exactly when that draw is below the float [p]. *)
Theorem fixture_state_excludes_no_edge self L stp w :
  let chain := mkChain L (replicate (length (structure0 L)) 1%Z) stp in
  let edges := structure1 L in
  let p := float_sub (Finite 1) (np_exp (temperature self stp)) in
  edges_in_range (state chain) (length edges) edges →
  draws (proposal self chain w).2 = draws w + length edges
  ∧ ∀ i e, edges !! i = Some e →
      structure1 (lattice (proposal self chain w).1.2) !! i
      = Some (set_spin
                (if float_ltb (Finite (np_random_uniform (draws w + i))) p
                 then 1%Z else 0%Z) e).
Proof.
  intros chain edges p Hin.
  assert (Hsame : Forall (λ e, same_spin (state chain) e = true) edges).
  { eapply List.Forall_impl; [|exact Hin]. simpl.
    intros e [_ [Hu Hv]]. rewrite length_replicate in Hu, Hv.
    eapply same_spin_true; by apply lookup_replicate_2. }
  destruct (scan_prefix self chain w (structure1 (lattice chain)) Hin)
    as (inc1 & edges' & w1 & Hscan & _ & _ & _ & Hd & _ & Hspin).
  destruct (proposal_world self chain w) as [Hdraws _].
  pose proof (proposal_chain_after self chain w) as Hafter.
  rewrite Hscan in Hdraws, Hafter. simpl in Hdraws, Hafter. split.
  - rewrite Hdraws, Hd, <- draw_index_count.
    by apply draw_index_all_same.
  - intros i e Hi. rewrite Hafter. simpl. rewrite (Hspin i e Hi).
    rewrite (flag_same_spin _ _ _ _ _ (Forall_lookup_1 _ _ _ _ Hsame Hi)).
    rewrite draw_index_all_same; [done|done|].
    apply lookup_lt_Some in Hi. unfold edges in Hi. simpl. lia.
Qed.

End Transient.

(** ** More on the initial state and on [_fromNullSpace] *)

Section InitialDraws.
Context `{GL : GaloisLaws} `{PV : Providers}.

Lemma draw_cocycle_spec distribution n : ∀ w,
  draw_cocycle distribution n w
  = (map (λ k, distribution (samples w + k) 0%Z order) (seq 0 n),
     mkWorld (draws w) (samples w + n) (out w)).
Proof.
  induction n as [|n IH]; intros w; simpl.
  - destruct w. simpl. do 2 f_equal. lia.
  - rewrite IH. simpl. rewrite <- seq_shift, map_map.
    f_equal; [|f_equal; lia]. f_equal; [f_equal; lia|].
    apply map_ext. intros k. f_equal. lia.
Qed.

(** X11: [initial] calls the distribution once per vertex, with the bounds
    0 and the order of the field, in both modes; in testing mode the
    numbers drawn are discarded. Without the testing flag the numbers go
    through the conversion [np.array(...).astype(int)] in the order drawn:
    when the conversion raises, the call raises the same exception; when it
    returns, the call returns what it returns if these are all field
    elements, and raises [ValueError] if one of them is not. *)
Theorem initial_draws self L distribution w :
  let n := length (structure0 L) in
  let xs := map (λ k, distribution (samples w + k) 0%Z order) (seq 0 n) in
  (initial self L distribution w).2
  = mkWorld (draws w) (samples w + n) (out w)
  ∧ (testing self = false →
       ∀ e, np_array_astype_int xs = Raise e →
         (initial self L distribution w).1.1 = Raise e)
  ∧ (testing self = false →
       ∀ ys, np_array_astype_int xs = Ok ys →
         (Forall valid ys → (initial self L distribution w).1.1 = Ok ys)
         ∧ (¬ Forall valid ys →
            (initial self L distribution w).1.1 = Raise ValueError)).
Proof.
  intros n xs. unfold initial. rewrite draw_cocycle_spec. fold n xs.
  split_and!.
  - by destruct (testing self).
  - intros -> e He. simpl. by rewrite He.
  - intros -> ys Hys. simpl. rewrite Hys. simpl. unfold FieldArray. split.
    + intros Hv. by rewrite decide_True.
    + intros Hv. by rewrite decide_False.
Qed.

(** X12: [_fromNullSpace] takes one sample per basis vector and nothing
    else from the world. It raises [TypeError] on an empty basis; on a basis
    of field vectors of the null space of the transposed argument it returns
    a field vector of that null space. *)
Theorem fromNullSpace_spec chain B w :
  let basis := rows (null_space (transpose B)) in
  (fromNullSpace chain B w).2
  = mkWorld (draws w) (samples w + length basis) (out w)
  ∧ (basis = [] → (fromNullSpace chain B w).1 = Raise TypeError)
  ∧ (basis ≠ [] →
     Forall (λ b, in_null_space (transpose B) b ∧ Forall valid b) basis →
     ∃ p, (fromNullSpace chain B w).1 = Ok p
          ∧ in_null_space (transpose B) p ∧ Forall valid p).
Proof.
  intros basis. unfold fromNullSpace. fold basis.
  pose proof (combination_world basis w) as Hw.
  split_and!.
  - destruct (combination basis w) as [terms w1]. by simpl in *.
  - intros Hnil. rewrite Hnil. done.
  - intros Hne Hbasis.
    assert (Hterms : Forall (λ t, in_null_space (transpose B) t
                                  ∧ Forall valid t)
                       (combination basis w).1).
    { eapply combination_Forall; [|exact Hbasis].
      intros c b [Hb Hv]. split;
        [by apply in_null_space_scalar | by apply valid_scalar]. }
    destruct (reduce_in_null_space (transpose B) _
                (λ H, Hne (proj1 (combination_nil _ w) H)) Hterms)
      as (p & Hp & Hnull & Hval).
    exists p. destruct (combination basis w) as [terms w1]. by simpl in *.
Qed.

(** X13: the tail of [proposal] is [_fromNullSpace]. When the induced
    boundary is formed, the call returns what [_fromNullSpace] returns for
    that matrix, the same vector or the same exception, and the two take the
    same number of samples of the discrete distribution. *)
Theorem proposal_matches_fromNullSpace self chain w B :
  induced_boundary self chain w = Ok B →
  (proposal self chain w).1.1 = (fromNullSpace chain B w).1
  ∧ samples (proposal self chain w).2 = samples (fromNullSpace chain B w).2.
Proof.
  intros HB. split; [by apply proposal_fromNullSpace|].
  destruct (proposal_world self chain w) as [_ Hs]. rewrite Hs, HB.
  unfold fromNullSpace.
  pose proof (combination_world (rows (null_space (transpose B))) w) as Hw.
  destruct (combination _ _) as [terms w1]. simpl in *. by subst w1.
Qed.

End InitialDraws.

(** ** The further theorems at the sample inputs *)

Local Abbreviation PV2 := (sample_providers two_clusters).
Local Abbreviation PV1 := (sample_providers one_cluster).

Lemma proposal_draw_count_witness :
  edges_in_range (state triangle_chain) 3 (structure1 triangle)
  ∧ draws (@proposal GF3 PV2 (model (-1)) triangle_chain world0).2 = 1
  ∧ samples (@proposal GF3 PV2 (model (-1)) triangle_chain world0).2 = 2.
Proof.
  split; [exact triangle_in_range|].
  exact (@proposal_draw_count GF3 GF3_laws PV2 (model (-1)) triangle_chain
           world0 triangle_in_range).
Defined.

Lemma proposal_quiet_witness :
  @GaloisLaws GF3
  ∧ (@proposal GF3 PV2 (testing_model (-1)) triangle_chain world0).1
    = (@proposal GF3 PV2 (model (-1)) triangle_chain world0).1
  ∧ out (@proposal GF3 PV2 (model (-1)) triangle_chain world0).2 = [].
Proof.
  split; [exact GF3_laws|].
  destruct (@proposal_quiet GF3 GF3_laws PV2 (testing_model (-1))
              triangle_chain world0) as (Hv & _ & _ & Ho).
  split; [exact Hv | exact Ho].
Defined.

Lemma proposal_trace_witness :
  testing (testing_model (-1)) = true
  ∧ @induced_boundary GF3 PV2 (testing_model (-1)) triangle_chain world0
    = Ok (mkMatrix 3 3 [[2; 0; 0]; [1; 0; 0]; [0; 0; 0]]%Z)
  ∧ ∃ trace,
      Forall is_PrintIncluded trace
      ∧ length trace = 1
      ∧ out (@proposal GF3 PV2 (testing_model (-1)) triangle_chain world0).2
        = trace
          ++ [CsvState 0 [1; 1; 2]%Z;
              CsvOperator 0
                (mkMatrix 3 3 [[2; 0; 0]; [1; 0; 0]; [0; 0; 0]]%Z)]
          ++ [PrintProposed [1; 1; 2]%Z].
Proof.
  assert (HB : @induced_boundary GF3 PV2 (testing_model (-1)) triangle_chain
                 world0
               = Ok (mkMatrix 3 3 [[2; 0; 0]; [1; 0; 0]; [0; 0; 0]]%Z))
    by (vm_compute; reflexivity).
  split; [reflexivity|]. split; [exact HB|].
  exact (@proposal_trace GF3 GF3_laws PV2 (testing_model (-1)) triangle_chain
           world0 _ eq_refl HB).
Defined.

Lemma stray_prefix_in_range :
  edges_in_range (state stray_chain) 3 [mkEdge 0 (v0, v1) 0].
Proof. repeat constructor; simpl; lia. Qed.

Lemma proposal_endpoint_out_of_range_witness :
  structure1 stray
  = [mkEdge 0 (v0, v1) 0] ++ mkEdge 1 (v1, mkVertex 7) 0
                             :: [mkEdge 2 (v0, v2) 1]
  ∧ edges_in_range (state stray_chain) 3 [mkEdge 0 (v0, v1) 0]
  ∧ ¬ endpoints_in_range (state stray_chain) (mkEdge 1 (v1, mkVertex 7) 0)
  ∧ (@proposal GF3 PV2 (model (-1)) stray_chain world0).1.1
    = Raise IndexError
  ∧ spin <$> structure1
               (lattice (@proposal GF3 PV2 (model (-1)) stray_chain
                           world0).1.2)
    = [1; 0; 1]%Z.
Proof.
  assert (Hout : ¬ endpoints_in_range (state stray_chain)
                     (mkEdge 1 (v1, mkVertex 7) 0)).
  { unfold endpoints_in_range. simpl. lia. }
  split; [reflexivity|]. split; [exact stray_prefix_in_range|].
  split; [exact Hout|].
  destruct (@proposal_endpoint_out_of_range GF3 GF3_laws PV2 (model (-1))
              stray_chain world0 [mkEdge 0 (v0, v1) 0]
              (mkEdge 1 (v1, mkVertex 7) 0) [mkEdge 2 (v0, v2) 1]
              eq_refl stray_prefix_in_range Hout)
    as (pre' & Hraise & Hafter & Hlen & Hpre & _).
  split; [exact Hraise|]. rewrite Hafter.
  destruct pre' as [|e0 [|e1 pre']]; try discriminate Hlen.
  specialize (Hpre 0 _ eq_refl). injection Hpre as ->. reflexivity.
Defined.

Lemma misnumbered_prefix_in_range :
  edges_in_range (state misnumbered_chain) 3 [mkEdge 0 (v0, v1) 0].
Proof. repeat constructor; simpl; lia. Qed.

Lemma proposal_index_out_of_range_witness :
  structure1 misnumbered
  = [mkEdge 0 (v0, v1) 0] ++ mkEdge 5 (v1, v0) 0 :: [mkEdge 2 (v0, v2) 1]
  ∧ edges_in_range (state misnumbered_chain) 3 [mkEdge 0 (v0, v1) 0]
  ∧ endpoints_in_range (state misnumbered_chain) (mkEdge 5 (v1, v0) 0)
  ∧ 3 ≤ 5
  ∧ same_spin (state misnumbered_chain) (mkEdge 5 (v1, v0) 0) = true
  ∧ float_ltb (Finite (1 # 2))
      (float_sub (Finite 1) (exp_sample (Finite (-1)))) = true
  ∧ (@proposal GF3 PV2 (model (-1)) misnumbered_chain world0).1.1
    = Raise IndexError
  ∧ draws (@proposal GF3 PV2 (model (-1)) misnumbered_chain world0).2 = 2.
Proof.
  assert (Hin : endpoints_in_range (state misnumbered_chain)
                  (mkEdge 5 (v1, v0) 0)).
  { unfold endpoints_in_range. simpl. lia. }
  assert (Hq : float_ltb (Finite (1 # 2))
                 (float_sub (Finite 1) (exp_sample (Finite (-1)))) = true)
    by (vm_compute; reflexivity).
  split; [reflexivity|]. split; [exact misnumbered_prefix_in_range|].
  split; [exact Hin|]. split; [lia|]. split; [reflexivity|].
  split; [exact Hq|].
  destruct (@proposal_index_out_of_range GF3 GF3_laws PV2 (model (-1))
              misnumbered_chain world0 [mkEdge 0 (v0, v1) 0]
              (mkEdge 5 (v1, v0) 0) [mkEdge 2 (v0, v2) 1]
              eq_refl misnumbered_prefix_in_range Hin ltac:(simpl; lia)
              eq_refl Hq)
    as (pre' & Hraise & _ & _ & Hd & _).
  split; [exact Hraise | exact Hd].
Defined.

Lemma narrow_in_range :
  edges_in_range (state narrow_chain) 3 (structure1 narrow).
Proof. repeat constructor; simpl; lia. Qed.

Lemma proposal_shape_mismatch_witness :
  edges_in_range (state narrow_chain) 3 (structure1 narrow)
  ∧ ncols (boundary narrow) ≠ 3
  ∧ (@proposal GF3 PV2 (model (-1)) narrow_chain world0).1.1
    = Raise ValueError
  ∧ samples (@proposal GF3 PV2 (model (-1)) narrow_chain world0).2 = 0.
Proof.
  assert (Hne : ncols (boundary narrow) ≠ 3) by (simpl; lia).
  split; [exact narrow_in_range|]. split; [exact Hne|].
  destruct (@proposal_shape_mismatch GF3 GF3_laws PV2 (model (-1))
              narrow_chain world0 narrow_in_range Hne) as (Hraise & _ & Hs).
  split; [exact Hraise | exact Hs].
Defined.

Lemma triangle_wf_boundary_matrix : wf_matrix (boundary triangle).
Proof. by repeat constructor. Qed.

Lemma nothing_included_zero_boundary_witness :
  edges_in_range (state triangle_chain) 3 (structure1 triangle)
  ∧ wf_matrix (boundary triangle)
  ∧ ncols (boundary triangle) = 3
  ∧ Forall (λ e, spin e = 0%Z)
      (structure1
         (lattice (@proposal GF3 PV2 (model (7 # 10)) triangle_chain
                     world0).1.2))
  ∧ @induced_boundary GF3 PV2 (model (7 # 10)) triangle_chain world0
    = Ok (np_zeros 3 3).
Proof.
  assert (Hflags : Forall (λ e, spin e = 0%Z)
            (structure1
               (lattice (@proposal GF3 PV2 (model (7 # 10)) triangle_chain
                           world0).1.2)))
    by (vm_compute; repeat constructor).
  split; [exact triangle_in_range|].
  split; [exact triangle_wf_boundary_matrix|]. split; [reflexivity|].
  split; [exact Hflags|].
  exact (@nothing_included_zero_boundary GF3 GF3_laws PV2 (model (7 # 10))
           triangle_chain world0 triangle_in_range
           triangle_wf_boundary_matrix eq_refl Hflags).
Defined.

Lemma fixture_in_range :
  edges_in_range (state fixture_chain) 3 (structure1 triangle).
Proof. repeat constructor; simpl; lia. Qed.

Lemma everything_included_same_boundary_witness :
  edges_in_range (state fixture_chain) 3 (structure1 triangle)
  ∧ NoDup (eindex <$> structure1 triangle)
  ∧ @wf_boundary GF3 triangle
  ∧ Forall (λ e, spin e = 1%Z)
      (structure1
         (lattice (@proposal GF3 PV1 (model (-1)) fixture_chain
                     world0).1.2))
  ∧ @induced_boundary GF3 PV1 (model (-1)) fixture_chain world0
    = Ok (boundary triangle).
Proof.
  assert (Hflags : Forall (λ e, spin e = 1%Z)
            (structure1
               (lattice (@proposal GF3 PV1 (model (-1)) fixture_chain
                           world0).1.2)))
    by (vm_compute; repeat constructor).
  split; [exact fixture_in_range|]. split; [exact triangle_distinct|].
  split; [exact triangle_boundary|]. split; [exact Hflags|].
  exact (@everything_included_same_boundary GF3 GF3_laws PV1 (model (-1))
           fixture_chain world0 fixture_in_range triangle_distinct
           triangle_boundary Hflags).
Defined.

Lemma triangle_other_flags :
  Forall2 same_cell (structure1 triangle)
    [mkEdge 0 (v0, v1) 1; mkEdge 1 (v1, v2) 0; mkEdge 2 (v0, v2) 1].
Proof. by repeat constructor. Qed.

Lemma proposal_ignores_flags_witness :
  Forall2 same_cell (structure1 triangle)
    [mkEdge 0 (v0, v1) 1; mkEdge 1 (v1, v2) 0; mkEdge 2 (v0, v2) 1]
  ∧ @proposal GF3 PV2 (model (-1)) triangle_chain world0
    = @proposal GF3 PV2 (model (-1))
        (with_edges triangle_chain
           [mkEdge 0 (v0, v1) 1; mkEdge 1 (v1, v2) 0; mkEdge 2 (v0, v2) 1])
        world0.
Proof.
  split; [exact triangle_other_flags|].
  destruct (@proposal_ignores_flags GF3 GF3_laws PV2 (model (-1))
              triangle_chain world0 _ triangle_other_flags)
    as (Hv & Hw & Hc).
  specialize (Hc _ triangle_selector).
  destruct (@proposal GF3 PV2 (model (-1)) triangle_chain world0)
    as [[r1 c1] w1].
  destruct (@proposal GF3 PV2 (model (-1)) _ world0) as [[r2 c2] w2].
  simpl in *. by subst.
Defined.

Lemma fixture_state_excludes_no_edge_witness :
  edges_in_range [1; 1; 1]%Z 3 (structure1 triangle)
  ∧ draws (@proposal GF3 PV1 (model (-1)) fixture_chain world0).2 = 3
  ∧ structure1
      (lattice (@proposal GF3 PV1 (model (-1)) fixture_chain world0).1.2)
    !! 2
    = Some (mkEdge 2 (v0, v2) 1).
Proof.
  split; [exact fixture_in_range|].
  destruct (@fixture_state_excludes_no_edge GF3 GF3_laws PV1 (model (-1))
              triangle 0%Z world0 fixture_in_range) as [Hd Hflag].
  split; [exact Hd|]. exact (Hflag 2 (mkEdge 2 (v0, v2) 0) eq_refl).
Defined.

Lemma initial_draws_witness :
  (@initial GF3 PV1 (testing_model 0) triangle lowest world0).2
    = mkWorld 0 3 []
  ∧ (@initial GF3 PV1 (model 0) triangle (λ k _ _, Z.of_nat k) world0).1.1
    = Ok [0; 1; 2]%Z
  ∧ (@initial GF3 PV1 (model 0) triangle
       (λ k _ high, (high + Z.of_nat k)%Z) world0).1.1
    = Raise ValueError
  ∧ (@initial GF3 PV1 (model 0) triangle (λ _ _ _, (2 ^ 64)%Z) world0).1.1
    = Raise OverflowError.
Proof.
  split; [|split; [|split]].
  - exact (proj1 (@initial_draws GF3 PV1 (testing_model 0) triangle
                    lowest world0)).
  - refine (proj1 (proj2 (proj2 (@initial_draws GF3 PV1 (model 0) triangle
                                   (λ k _ _, Z.of_nat k) world0))
                     eq_refl [0; 1; 2]%Z _) _); [reflexivity|].
    repeat constructor; unfold valid; simpl; lia.
  - refine (proj2 (proj2 (proj2 (@initial_draws GF3 PV1 (model 0) triangle
                                   (λ k _ high, (high + Z.of_nat k)%Z)
                                   world0))
                     eq_refl [3; 4; 5]%Z _) _); [reflexivity|].
    intros Hv. apply Forall_cons_1 in Hv as [Hv _].
    unfold valid in Hv. simpl in Hv. lia.
  - refine (proj1 (proj2 (@initial_draws GF3 PV1 (model 0) triangle
                            (λ _ _ _, (2 ^ 64)%Z) world0))
              eq_refl OverflowError _).
    reflexivity.
Defined.

Lemma fromNullSpace_spec_witness :
  @GaloisLaws GF3
  ∧ (@fromNullSpace GF3 (sample_providers empty_basis) triangle_chain
       (boundary triangle) world0).1
    = Raise TypeError
  ∧ ∃ p, (@fromNullSpace GF3 PV1 triangle_chain (boundary triangle)
            world0).1 = Ok p
         ∧ @in_null_space GF3 (transpose (boundary triangle)) p
         ∧ (@fromNullSpace GF3 PV1 triangle_chain (boundary triangle)
              world0).2 = mkWorld 0 1 [].
Proof.
  split; [exact GF3_laws|]. split.
  - exact (proj1 (proj2 (@fromNullSpace_spec GF3 GF3_laws
                           (sample_providers empty_basis) triangle_chain
                           (boundary triangle) world0)) eq_refl).
  - destruct (@fromNullSpace_spec GF3 GF3_laws PV1 triangle_chain
                (boundary triangle) world0) as (Hw & _ & Hok).
    destruct (Hok ltac:(discriminate)) as (p & Hp & Hnull & _).
    { repeat constructor; unfold valid; simpl; lia. }
    exists p. split; [exact Hp|]. split; [exact Hnull | exact Hw].
Defined.

Lemma proposal_matches_fromNullSpace_witness :
  @induced_boundary GF3 PV2 (model (-1)) triangle_chain world0
  = Ok (mkMatrix 3 3 [[2; 0; 0]; [1; 0; 0]; [0; 0; 0]]%Z)
  ∧ (@proposal GF3 PV2 (model (-1)) triangle_chain world0).1.1
    = (@fromNullSpace GF3 PV2 triangle_chain
         (mkMatrix 3 3 [[2; 0; 0]; [1; 0; 0]; [0; 0; 0]]%Z) world0).1
  ∧ samples (@proposal GF3 PV2 (model (-1)) triangle_chain world0).2
    = samples (@fromNullSpace GF3 PV2 triangle_chain
                 (mkMatrix 3 3 [[2; 0; 0]; [1; 0; 0]; [0; 0; 0]]%Z) world0).2.
Proof.
  assert (HB : @induced_boundary GF3 PV2 (model (-1)) triangle_chain world0
               = Ok (mkMatrix 3 3 [[2; 0; 0]; [1; 0; 0]; [0; 0; 0]]%Z))
    by (vm_compute; reflexivity).
  split; [exact HB|].
  exact (@proposal_matches_fromNullSpace GF3 GF3_laws PV2 (model (-1))
           triangle_chain world0 _ HB).
Defined.

(** ** The shortest essential cycle *)

Section VizFacts.
Import Viz.

Lemma bind_Ok {A B} (r : result A) (k : A → result B) b :
  r ≫= k = Ok b ↔ ∃ a, r = Ok a ∧ k a = Ok b.
Proof.
  destruct r as [a|e]; simpl; split.
  - intros Hk. by exists a.
  - by intros (a' & [= <-] & Hk).
  - done.
  - by intros (a' & [=] & _).
Qed.

Lemma mapM_Ok {A B} (f : A → result B) (l : list A) : ∀ k,
  mapM f l = Ok k ↔ Forall2 (λ x y, f x = Ok y) l k.
Proof.
  induction l as [|x l IH]; intros k; simpl.
  - split.
    + intros [= <-]. constructor.
    + intros Hk. by apply Forall2_nil_inv_l in Hk as ->.
  - split.
    + intros Hk. apply bind_Ok in Hk as (y & Hy & Hk).
      apply bind_Ok in Hk as (k' & Hk' & [= <-]).
      constructor; [done|]. by apply IH.
    + intros Hk. apply Forall2_cons_inv_l in Hk as (y & k' & Hy & Hk' & ->).
      apply IH in Hk'. rewrite Hy. simpl. rewrite Hk'. done.
Qed.

Lemma occupied_Ok rows assignment : ∀ i,
  i + length rows ≤ length assignment →
  ∃ occ, occupied rows assignment i = Ok occ.
Proof.
  induction rows as [|e rest IH]; intros i Hlen; simpl in *.
  - by eexists.
  - unfold getitem.
    destruct (lookup_lt_is_Some_2 assignment i ltac:(lia)) as [a ->]. simpl.
    destruct (IH (S i) ltac:(lia)) as [occ ->]. simpl. by eexists.
Qed.

Lemma occupied_short rows assignment : ∀ i,
  rows ≠ [] →
  length assignment < i + length rows →
  occupied rows assignment i = Raise IndexError.
Proof.
  induction rows as [|e rest IH]; intros i Hne Hlen; simpl in *; [done|].
  unfold getitem. destruct (assignment !! i) as [a|] eqn:Ha; simpl; [|done].
  apply lookup_lt_Some in Ha.
  rewrite IH; [done| |lia]. intros ->. simpl in Hlen. lia.
Qed.

(** The head of the stably sorted list is the first of the shortest
    cycles. *)
Lemma sorted_by_length_head B :
  B ≠ [] →
  ∃ c pre post,
    sorted_by_length B !! 0 = Some c
    ∧ B = pre ++ c :: post
    ∧ Forall (λ d, length c < length d) pre
    ∧ Forall (λ d, length c ≤ length d) post.
Proof.
  induction B as [|x rest IH]; [done|]. intros _.
  destruct rest as [|y rest'].
  { exists x, [], []. by repeat split. }
  destruct (IH ltac:(done)) as (c & pre & post & Hc & Hrest & Hpre & Hpost).
  change (sorted_by_length (x :: y :: rest'))
    with (insert_by_length x (sorted_by_length (y :: rest'))).
  destruct (sorted_by_length (y :: rest')) as [|d tl]; [done|].
  injection Hc as ->. simpl.
  destruct (decide (length x ≤ length c)) as [Hle|Hgt].
  - exists x, [], (y :: rest'). split_and!; try done.
    rewrite Hrest. apply Forall_app. split.
    + eapply List.Forall_impl; [|exact Hpre]. simpl. lia.
    + constructor; [done|].
      eapply List.Forall_impl; [|exact Hpost]. simpl. lia.
  - exists c, (x :: pre), post. split_and!; try done.
    + by rewrite Hrest.
    + constructor; [lia|done].
Qed.

(** The value of [shortestPath] once its inputs have been read. *)
Lemma shortestPath_unfold {Graph} (gr : nat → list (list nat) → result Graph)
    (cb : Graph → list (list nat)) L a n0 n2 occ g anti :
  skeleta L !! 0 = Some n0 →
  skeleta L !! 2 = Some n2 →
  occupied
    (py_slice (boundary L) n0 (Z.of_nat (length (cells L)) - Z.of_nat n2))
    a 0 = Ok occ →
  gr n0 occ = Ok g →
  antipodes (corners L).1 (corners L).2 = Ok anti →
  shortestPath gr cb L a
  = let B := essential_cycles (corners L).1 (corners L).2 n0 anti (cb g) in
    if decide (B = []) then Ok []
    else
      essential ← getitem (sorted_by_length B) 0;
      z ← last_item essential;
      mapM (endpoints L) (zip (z :: removelast essential) essential).
Proof.
  intros H0 H2 Hocc Hg Hanti. unfold shortestPath, getkey.
  rewrite H0, H2. simpl. rewrite Hocc. simpl. rewrite Hg. simpl.
  destruct (corners L) as [w h]. simpl in *. by rewrite Hanti.
Qed.

(** X14: which cycle is drawn. When no cycle of the basis passes the two
    filters the result is the empty list; otherwise the result is built from
    the first of the shortest cycles that pass them, in the order of the
    basis. *)
Theorem shortestPath_first_shortest {Graph}
    (gr : nat → list (list nat) → result Graph)
    (cb : Graph → list (list nat)) L a n0 n2 occ g anti :
  skeleta L !! 0 = Some n0 →
  skeleta L !! 2 = Some n2 →
  occupied
    (py_slice (boundary L) n0 (Z.of_nat (length (cells L)) - Z.of_nat n2))
    a 0 = Ok occ →
  gr n0 occ = Ok g →
  antipodes (corners L).1 (corners L).2 = Ok anti →
  let B := essential_cycles (corners L).1 (corners L).2 n0 anti (cb g) in
  (B = [] → shortestPath gr cb L a = Ok [])
  ∧ (B ≠ [] →
     ∃ c pre post,
       B = pre ++ c :: post
       ∧ Forall (λ d, length c < length d) pre
       ∧ Forall (λ d, length c ≤ length d) post
       ∧ shortestPath gr cb L a
         = (z ← last_item c;
            mapM (endpoints L) (zip (z :: removelast c) c))).
Proof.
  intros H0 H2 Hocc Hg Hanti B.
  rewrite (shortestPath_unfold gr cb L a n0 n2 occ g anti H0 H2 Hocc Hg Hanti).
  cbv zeta. fold B. split.
  - intros ->. done.
  - intros Hne. rewrite decide_False by done.
    destruct (sorted_by_length_head B Hne)
      as (c & pre & post & Hc & HB & Hpre & Hpost).
    exists c, pre, post. split_and!; try done.
    unfold getitem. by rewrite Hc.
Qed.

Lemma removelast_lookup {A} (l : list A) i :
  S i < length l → removelast l !! i = l !! i.
Proof.
  intros Hi. rewrite removelast_firstn_len.
  change (firstn ?n ?l) with (take n l). apply lookup_take_lt. lia.
Qed.

Lemma length_removelast {A} (l : list A) :
  length (removelast l) = pred (length l).
Proof.
  rewrite removelast_firstn_len.
  change (firstn ?n ?l) with (take n l). rewrite length_take. lia.
Qed.

(** In the pairs [zip([c[-1]] + c[:-1], c)] every pair starts at the vertex
    at which the pair before it ends, and the first pair starts where the
    last one ends. *)
Lemma closed_pairs_next (c : list nat) z i uv uv' :
  last c = Some z →
  zip (z :: removelast c) c !! i = Some uv →
  zip (z :: removelast c) c !! (S i mod length c) = Some uv' →
  uv'.1 = uv.2.
Proof.
  intros Hz Hi Hnext. destruct uv as [u v], uv' as [u' v']. simpl.
  apply lookup_zip_with_Some in Hi as (x & y & [= <- <-] & Hx & Hy).
  apply lookup_zip_with_Some in Hnext as (x' & y' & [= <- <-] & Hx' & Hy').
  pose proof (lookup_lt_Some _ _ _ Hy) as Hlt.
  destruct (decide (S i < length c)) as [Hin|Hlast].
  - rewrite Nat.mod_small in Hx' by done. simpl in Hx'.
    rewrite removelast_lookup in Hx' by done. congruence.
  - assert (S i = length c) as Heq by lia.
    rewrite Heq, Nat.Div0.mod_same in Hx'. simpl in Hx'.
    rewrite last_lookup in Hz. rewrite <- Heq in Hz. simpl in Hz.
    congruence.
Qed.

Lemma endpoints_Ok L uv e :
  endpoints L uv = Ok e →
  ∃ cu cv, cells L !! uv.1 = Some cu ∧ encoding cu !! 0 = Some e.1
           ∧ cells L !! uv.2 = Some cv ∧ encoding cv !! 0 = Some e.2.
Proof.
  unfold endpoints, getitem. intros He.
  destruct (cells L !! uv.1) as [cu|]; [|done]. simpl in He.
  destruct (encoding cu !! 0) as [pu|] eqn:Hpu; [|done]. simpl in He.
  destruct (cells L !! uv.2) as [cv|]; [|done]. simpl in He.
  destruct (encoding cv !! 0) as [pv|] eqn:Hpv; [|done]. simpl in He.
  injection He as <-. by exists cu, cv.
Qed.

(** X15: the list [shortestPath] returns is a closed polygon: every segment
    starts at the point at which the segment before it ends, and the first
    one starts where the last one ends. A list that is not empty has at
    least [min(L.corners)] segments. *)
Theorem shortestPath_closed {Graph}
    (gr : nat → list (list nat) → result Graph)
    (cb : Graph → list (list nat)) L a path :
  shortestPath gr cb L a = Ok path →
  (path = []
   ∨ (Z.min (corners L).1 (corners L).2 ≤ Z.of_nat (length path))%Z)
  ∧ ∀ i e e',
      path !! i = Some e →
      path !! (S i mod length path) = Some e' →
      e'.1 = e.2.
Proof.
  intros Hret. unfold shortestPath in Hret.
  apply bind_Ok in Hret as (n0 & _ & Hret).
  apply bind_Ok in Hret as (n2 & _ & Hret).
  apply bind_Ok in Hret as (occ & _ & Hret).
  apply bind_Ok in Hret as (g & _ & Hret).
  destruct (corners L) as [w h] eqn:Hwh. simpl.
  apply bind_Ok in Hret as (anti & _ & Hret).
  set (B := essential_cycles w h n0 anti (cb g)) in Hret.
  destruct (decide (B = [])) as [HB|HB].
  { injection Hret as <-. split; [by left|]. by intros i e e' [=]. }
  destruct (sorted_by_length_head B HB)
    as (c & pre & post & Hc & HBc & _ & _).
  unfold getitem in Hret at 1. rewrite Hc in Hret. simpl in Hret.
  apply bind_Ok in Hret as (z & Hz & Hret).
  unfold last_item in Hz. destruct (last c) as [z'|] eqn:Hlast; [|done].
  injection Hz as ->.
  apply mapM_Ok in Hret.
  assert (Hlen : length path = length c).
  { assert (Hl : length (zip (z :: removelast c) c) = length path)
      by (eapply Forall2_length; exact Hret).
    rewrite <- Hl, length_zip_with. simpl.
    rewrite length_removelast. destruct c; [done|simpl; lia]. }
  split.
  - right. rewrite Hlen.
    assert (Hin : c ∈ B) by (rewrite HBc; set_solver).
    unfold B, essential_cycles in Hin.
    apply list_elem_of_filter in Hin as [_ Hin].
    by apply list_elem_of_filter in Hin as [Hin _].
  - intros i e e' Hi Hnext. rewrite Hlen in Hnext.
    destruct (Forall2_lookup_r _ _ _ _ _ Hret Hi) as (uv & Huv & He).
    destruct (Forall2_lookup_r _ _ _ _ _ Hret Hnext) as (uv' & Huv' & He').
    pose proof (closed_pairs_next c z i uv uv' Hlast Huv Huv') as Hjoin.
    apply endpoints_Ok in He as (_ & cv & _ & _ & Hcv & Hev).
    apply endpoints_Ok in He' as (cu & _ & Hcu & Heu & _ & _).
    rewrite Hjoin in Hcu. congruence.
Qed.

(** X16: what [shortestPath] raises on its inputs, in the order in which it
    reads them: [KeyError] when the lattice has no 0-cells or no 2-cells
    entry among its skeleta; [IndexError] when the assignment is shorter
    than the rows of the 1-cells, whatever the graph library does; the
    exception of the graph library when it refuses the edges, whatever the
    corners are; [ValueError], from [range], when the graph is built and the
    first corner is 0, whatever the cycles are. *)
Theorem shortestPath_raises {Graph}
    (gr : nat → list (list nat) → result Graph)
    (cb : Graph → list (list nat)) L a :
  let rows n0 n2 :=
    py_slice (boundary L) n0 (Z.of_nat (length (cells L)) - Z.of_nat n2) in
  (skeleta L !! 0 = None → shortestPath gr cb L a = Raise KeyError)
  ∧ (skeleta L !! 2 = None → shortestPath gr cb L a = Raise KeyError)
  ∧ (∀ n0 n2, skeleta L !! 0 = Some n0 → skeleta L !! 2 = Some n2 →
       length a < length (rows n0 n2) →
       shortestPath gr cb L a = Raise IndexError)
  ∧ (∀ n0 n2 occ e, skeleta L !! 0 = Some n0 → skeleta L !! 2 = Some n2 →
       occupied (rows n0 n2) a 0 = Ok occ →
       gr n0 occ = Raise e →
       shortestPath gr cb L a = Raise e)
  ∧ (∀ n0 n2 occ g, skeleta L !! 0 = Some n0 → skeleta L !! 2 = Some n2 →
       occupied (rows n0 n2) a 0 = Ok occ →
       gr n0 occ = Ok g →
       (corners L).1 = 0%Z →
       shortestPath gr cb L a = Raise ValueError).
Proof.
  intros rows. unfold shortestPath, getkey. split_and!.
  - by intros ->.
  - intros ->. by destruct (skeleta L !! 0).
  - intros n0 n2 -> -> Hlen. simpl. fold (rows n0 n2).
    rewrite occupied_short; [done| |lia].
    intros Hnil. rewrite Hnil in Hlen. simpl in Hlen. lia.
  - intros n0 n2 occ e -> -> Hocc Hg. simpl. fold (rows n0 n2).
    rewrite Hocc. simpl. by rewrite Hg.
  - intros n0 n2 occ g -> -> Hocc Hg Hw. simpl. fold (rows n0 n2).
    rewrite Hocc. simpl. rewrite Hg. simpl.
    destruct (corners L) as [w h]. simpl in Hw. subst w.
    unfold antipodes, py_range. by destruct (decide (0 = 0)%Z).
Qed.

Lemma foldl_insert_lookup `{Countable K} {V} (f : K → V) l :
  ∀ (m0 : gmap K V) k,
  foldl (λ m k, <[k := f k]> m) m0 l !! k
  = if decide (k ∈ l) then Some (f k) else m0 !! k.
Proof.
  induction l as [|x l IH]; intros m0 k.
  - simpl foldl. destruct (decide (k ∈ [])) as [Hk|_]; [|done].
    by apply elem_of_nil in Hk.
  - simpl foldl. rewrite IH.
    destruct (decide (k ∈ l)) as [Hk|Hk];
      destruct (decide (k ∈ x :: l)) as [Hk'|Hk']; try done.
    + exfalso. apply Hk'. by right.
    + apply elem_of_cons in Hk' as [->|?]; [|done].
      apply lookup_insert_eq.
    + apply lookup_insert_ne. intros ->. apply Hk'. by left.
Qed.

(** The inner vertices of the left column, for a grid of at least two
    columns and two rows. *)
Lemma left_column w h :
  (2 ≤ w)%Z → (2 ≤ h)%Z →
  py_range w (w * (h - 1)) w = Ok ((λ i, w + i * w)%Z <$> seqZ 0 (h - 2)).
Proof.
  intros Hw Hh. unfold py_range.
  rewrite decide_False by lia. rewrite decide_True by lia.
  do 3 f_equal. symmetry. apply (Z.div_unique _ _ _ (w - 1)); lia.
Qed.

(** X17: the boundary of [shortestPath]. For a grid of [w >= 2] columns and
    [h >= 2] rows whose vertex [(x, y)] has the number [x + w y], the keys of
    [antipodes] are the bottom row, the left column and the top right
    corner: the other vertices of the top row and of the right column are
    not among them, so they count as interior. Every antipode is a vertex
    of the grid; the antipode of an inner vertex of the bottom row is the
    vertex above it in the top row, and that of an inner vertex of the left
    column is the vertex at the end of its row. *)
Theorem antipodes_boundary w h :
  (2 ≤ w)%Z → (2 ≤ h)%Z →
  ∃ m,
    antipodes w h = Ok m
    ∧ (∀ k, is_Some (m !! k)
            ↔ (0 ≤ k < w)%Z
              ∨ (∃ y, (0 ≤ y < h)%Z ∧ k = (w * y)%Z)
              ∨ k = (w * h - 1)%Z)
    ∧ (∀ k v, m !! k = Some v → Forall (λ x, (0 ≤ x < w * h)%Z) v)
    ∧ (∀ x, (1 ≤ x ≤ w - 2)%Z → m !! x = Some [x + w * (h - 1)]%Z)
    ∧ (∀ y, (1 ≤ y ≤ h - 2)%Z → m !! (w * y)%Z = Some [w * y + w - 1]%Z).
Proof.
  intros Hw Hh. unfold antipodes. rewrite (left_column w h Hw Hh). simpl.
  eexists. split; [reflexivity|].
  set (corner := (<[(w * h - 1)%Z := [w - 1; w * (h - 1)]%Z]>
                    (<[(w * (h - 1))%Z := [0; w * h - 1]%Z]>
                       (<[(w - 1)%Z := [0; w * h - 1]%Z]>
                          (<[0%Z := [w - 1; w * (h - 1)]%Z]> ∅)))
                  : gmap Z (list Z))).
  assert (Hleft : ∀ k, k ∈ (λ i, (w + i * w)%Z) <$> seqZ 0 (h - 2)
                       ↔ ∃ y, (1 ≤ y ≤ h - 2)%Z ∧ k = (w * y)%Z).
  { intros k. rewrite list_elem_of_fmap. split.
    - intros (i & -> & Hi%elem_of_seqZ). exists (i + 1)%Z. lia.
    - intros (y & Hy & ->). exists (y - 1)%Z. rewrite elem_of_seqZ. lia. }
  assert (Hbottom : ∀ k, k ∈ seqZ 1 (w - 2) ↔ (1 ≤ k ≤ w - 2)%Z).
  { intros k. rewrite elem_of_seqZ. lia. }
  assert (Hcorner : ∀ k v, corner !! k = Some v →
            (k = 0 ∨ k = w - 1 ∨ k = w * (h - 1) ∨ k = w * h - 1)%Z
            ∧ (v = [w - 1; w * (h - 1)]%Z ∨ v = [0; w * h - 1]%Z)).
  { intros k v. unfold corner.
    rewrite !lookup_insert, lookup_empty.
    repeat case_decide; intros [=]; subst; split; auto. }
  assert (Hcorner' : ∀ k,
            (k = 0 ∨ k = w - 1 ∨ k = w * (h - 1) ∨ k = w * h - 1)%Z →
            is_Some (corner !! k)).
  { intros k Hk. unfold corner. rewrite !lookup_insert.
    repeat case_decide; try done. lia. }
  assert (Hmul : ∀ y, (1 ≤ y ≤ h - 2)%Z → ¬ (1 ≤ w * y ≤ w - 2)%Z) by nia.
  split_and!.
  - intros k. rewrite !foldl_insert_lookup. split.
    + destruct (decide (k ∈ _)) as [Hk|_].
      { intros _. apply Hleft in Hk as (y & Hy & ->). right. left.
        exists y. lia. }
      destruct (decide (k ∈ _)) as [Hk|_].
      { intros _. apply Hbottom in Hk. left. lia. }
      intros [v Hv]. destruct (Hcorner k v Hv) as [[->|[->|[->| ->]]] _].
      * left. lia.
      * left. lia.
      * right. left. exists (h - 1)%Z. lia.
      * by right; right.
    + intros Hk.
      destruct (decide (k ∈ _)) as [_|Hnl]; [done|].
      destruct (decide (k ∈ _)) as [_|Hnb]; [done|].
      apply Hcorner'. rewrite Hleft in Hnl. rewrite Hbottom in Hnb.
      destruct Hk as [Hk|[(y & Hy & ->)|Hk]]; [lia| |lia].
      destruct (decide (y = 0)%Z) as [->|?]; [left; lia|].
      destruct (decide (y = h - 1)%Z) as [->|?]; [right; right; left; lia|].
      exfalso. apply Hnl. exists y. lia.
  - intros k v. rewrite !foldl_insert_lookup.
    destruct (decide (k ∈ _)) as [Hk|_].
    { intros [= <-]. apply Hleft in Hk as (y & Hy & ->).
      repeat constructor; nia. }
    destruct (decide (k ∈ _)) as [Hk|_].
    { intros [= <-]. apply Hbottom in Hk. repeat constructor; nia. }
    intros Hv. destruct (Hcorner k v Hv) as [_ [-> | ->]];
      repeat constructor; nia.
  - intros x Hx. rewrite !foldl_insert_lookup.
    rewrite decide_False.
    + rewrite decide_True; [done|]. by apply Hbottom.
    + rewrite Hleft. intros (y & Hy & ->). by apply (Hmul y).
  - intros y Hy. rewrite !foldl_insert_lookup.
    rewrite decide_True; [done|]. apply Hleft. by exists y.
Qed.

(** *** The rectangles of [lattice2D] *)

Lemma adjacent_iff p q :
  adjacent (p, q) ↔ (Z.abs (p.1 - q.1) + Z.abs (p.2 - q.2) = 1)%Z.
Proof. unfold adjacent. simpl. lia. Qed.

Lemma point_neq (p q : Z * Z) :
  p ≠ q ↔ (1 ≤ Z.abs (p.1 - q.1) + Z.abs (p.2 - q.2))%Z.
Proof.
  destruct p as [a b], q as [c d]. simpl. split.
  - intros Hne. destruct (decide (a = c)) as [->|?]; [|lia].
    destruct (decide (b = d)) as [->|?]; [done|lia].
  - intros H [= -> ->]. lia.
Qed.

Lemma unit_step (a b c d : Z) :
  (Z.abs (a - c) + Z.abs (b - d) = 1)%Z →
  (c = a + 1 ∧ d = b)%Z ∨ (c = a - 1 ∧ d = b)%Z
  ∨ (c = a ∧ d = b + 1)%Z ∨ (c = a ∧ d = b - 1)%Z.
Proof. lia. Qed.

Lemma four_distinct (p1 p2 p3 p4 : Z * Z) :
  NoDup [p1; p2; p3; p4] →
  p1 ≠ p2 ∧ p1 ≠ p3 ∧ p1 ≠ p4 ∧ p2 ≠ p3 ∧ p2 ≠ p4 ∧ p3 ≠ p4.
Proof.
  intros Hnd.
  apply NoDup_cons in Hnd as [H1 Hnd]. apply NoDup_cons in Hnd as [H2 Hnd].
  apply NoDup_cons in Hnd as [H3 _].
  rewrite !elem_of_cons, elem_of_nil in H1.
  rewrite !elem_of_cons, elem_of_nil in H2.
  rewrite !elem_of_cons, elem_of_nil in H3.
  split_and!; intros ->; tauto.
Qed.

(** Four distinct points of which exactly four pairs are one step apart
    lie in one cell of the grid. *)
Lemma unit_square_bounds p1 p2 p3 p4 :
  NoDup [p1; p2; p3; p4] → dist [p1; p2; p3; p4] = 4 →
  ∃ x y, Forall (λ p, x ≤ p.1 ≤ x + 1 ∧ y ≤ p.2 ≤ y + 1)%Z [p1; p2; p3; p4].
Proof.
  intros Hnd Hdist.
  destruct (four_distinct _ _ _ _ Hnd) as (N12 & N13 & N14 & N23 & N24 & N34).
  apply point_neq in N12, N13, N14, N23, N24, N34.
  unfold dist in Hdist. simpl in Hdist.
  rewrite !filter_cons, filter_nil in Hdist.
  exists (Z.min (Z.min p1.1 p2.1) (Z.min p3.1 p4.1)),
         (Z.min (Z.min p1.2 p2.2) (Z.min p3.2 p4.2)).
  destruct p1 as [x1 y1], p2 as [x2 y2], p3 as [x3 y3], p4 as [x4 y4].
  simpl in *.
  repeat match type of Hdist with
  | context [decide (adjacent ?pq)] => destruct (decide (adjacent pq))
  end; simpl in Hdist; try discriminate Hdist; clear Hdist Hnd.
  all: repeat match goal with
       | H : adjacent _ |- _ =>
           apply adjacent_iff, unit_step in H; simpl in H;
           destruct H as [[? ?]|[[? ?]|[[? ?]|[? ?]]]]; subst;
           try (exfalso; lia)
       | H : ¬ adjacent _ |- _ => rewrite adjacent_iff in H; simpl in H
       end.
  all: try (exfalso; lia).
  all: repeat apply Forall_cons_2; try apply Forall_nil; simpl; lia.
Qed.

Lemma in_cell_corner x y (p : Z * Z) :
  (x ≤ p.1 ≤ x + 1 ∧ y ≤ p.2 ≤ y + 1)%Z →
  p ∈ [(x, y); (x + 1, y); (x, y + 1); (x + 1, y + 1)]%Z.
Proof.
  destruct p as [a b]. simpl. intros Hp.
  assert (a = x ∨ a = x + 1)%Z as [-> | ->] by lia;
    assert (b = y ∨ b = y + 1)%Z as [-> | ->] by lia.
  - by left.
  - by right; right; left.
  - by right; left.
  - by right; right; right; left.
Qed.

(** Four distinct points in one cell are its four corners. *)
Lemma cell_cover x y p1 p2 p3 p4 corner :
  NoDup [p1; p2; p3; p4] →
  Forall (λ p, x ≤ p.1 ≤ x + 1 ∧ y ≤ p.2 ≤ y + 1)%Z [p1; p2; p3; p4] →
  corner ∈ [(x, y); (x + 1, y); (x, y + 1); (x + 1, y + 1)]%Z →
  corner ∈ [p1; p2; p3; p4].
Proof.
  intros Hnd Hin Hc.
  destruct (decide (corner ∈ [p1; p2; p3; p4])) as [|Hout]; [done|].
  exfalso.
  assert (Hsub : corner :: [p1; p2; p3; p4]
                 ⊆+ [(x, y); (x + 1, y); (x, y + 1); (x + 1, y + 1)]%Z).
  { apply NoDup_submseteq; [by apply NoDup_cons|].
    intros q [->|Hq]%elem_of_cons; [done|].
    apply in_cell_corner.
    apply list_elem_of_lookup in Hq as [i Hi].
    exact (Forall_lookup_1 _ _ _ _ Hin Hi). }
  apply submseteq_length in Hsub. simpl in Hsub. lia.
Qed.

(** The head of the sorted points is the least of them. *)
Lemma sorted_points_head l :
  l ≠ [] →
  ∃ m, sorted_points l !! 0 = Some m ∧ m ∈ l ∧ Forall (lex_le m) l.
Proof.
  induction l as [|p rest IH]; [done|]. intros _.
  destruct rest as [|q rest'].
  { exists p. split_and!; [done|by left|].
    constructor; [unfold lex_le; lia | constructor]. }
  destruct (IH ltac:(done)) as (m & Hm & Hin & Hle).
  change (sorted_points (p :: q :: rest'))
    with (insert_point p (sorted_points (q :: rest'))).
  destruct (sorted_points (q :: rest')) as [|d tl]; [done|].
  injection Hm as ->. simpl.
  destruct (decide (lex_le p m)) as [Hpm|Hpm].
  - exists p. split_and!; [done|by left|].
    constructor; [unfold lex_le; lia|].
    eapply List.Forall_impl; [|exact Hle]. unfold lex_le in *. simpl. lia.
  - exists m. split_and!; [done|by right|].
    constructor; [unfold lex_le in *; lia|done].
Qed.

Lemma combinations_sublist {A} (l : list A) : ∀ r c,
  c ∈ combinations r l → length c = r ∧ c `sublist_of` l.
Proof.
  induction l as [|x l IH]; intros [|r] c Hc; simpl in Hc.
  - apply list_elem_of_singleton in Hc as ->. split; [done|constructor].
  - by apply elem_of_nil in Hc.
  - apply list_elem_of_singleton in Hc as ->. split; [done|].
    apply sublist_nil_l.
  - apply elem_of_app in Hc as [Hc|Hc].
    + apply list_elem_of_fmap in Hc as (c' & -> & Hc').
      destruct (IH r c' Hc') as [Hlen Hsub]. split; [simpl; lia|].
      by apply sublist_skip.
    + destruct (IH (S r) c Hc) as [Hlen Hsub]. split; [done|].
      by apply sublist_cons.
Qed.

(** The vertex map holds, for every vertex, the points at which it may be
    drawn. *)
Lemma vertexmap_of_lookup xlim vertices p :
  vertexmap_of xlim vertices !! p
  = if decide (p ∈ vertices) then Some (vertex_copies xlim p) else None.
Proof. unfold vertexmap_of. by rewrite foldl_insert_lookup, lookup_empty. Qed.

Lemma foldl_app_concat {A} (ls : list (list A)) : ∀ l,
  foldl (λ acc k, acc ++ k) l ls = l ++ concat ls.
Proof.
  induction ls as [|k ls IH]; intros l; simpl; [by rewrite app_nil_r|].
  by rewrite IH, <- app_assoc.
Qed.

Lemma possible_vertices_Ok xlim vertices square pv :
  possible_vertices (vertexmap_of xlim vertices) square = Ok pv →
  pv = concat (vertex_copies xlim <$> square).
Proof.
  unfold possible_vertices. intros Hpv.
  apply bind_Ok in Hpv as (lists & Hl & Hr). apply mapM_Ok in Hl.
  assert (lists = vertex_copies xlim <$> square) as ->.
  { clear Hr. induction Hl as [|v l vs ls Hv _ IH]; [done|].
    rewrite fmap_cons, <- IH.
    rewrite vertexmap_of_lookup in Hv. case_decide; [|done]. congruence. }
  destruct square as [|v vs]; [done|]. simpl in *.
  injection Hr as <-. apply foldl_app_concat.
Qed.

(** A point at which a vertex of the grid of [n] columns and [n] rows may be
    drawn gives the vertex back when its coordinates are reduced modulo
    [n]. *)
Lemma vertex_copies_origin n p q :
  (0 < n)%Z → (0 ≤ p.1 < n)%Z → (0 ≤ p.2 < n)%Z →
  q ∈ vertex_copies n p →
  ((q.1 `mod` n)%Z, (q.2 `mod` n)%Z) = p.
Proof.
  intros Hn H1 H2. destruct p as [x y]. unfold vertex_copies. simpl in *.
  assert (Hnn : (n `mod` n = 0)%Z) by (apply Z_mod_same_full).
  destruct (decide (x = 0)%Z), (decide (y = 0)%Z); simpl; intros Hq;
    repeat (apply elem_of_cons in Hq as [->|Hq]);
    try (by apply elem_of_nil in Hq); simpl; subst;
    rewrite ?Hnn; rewrite ?Z.mod_small by lia; done.
Qed.

Lemma vertex_copies_NoDup n p : (n ≠ 0)%Z → NoDup (vertex_copies n p).
Proof.
  intros Hn. destruct p as [x y]. unfold vertex_copies. simpl.
  destruct (decide (x = 0)%Z), (decide (y = 0)%Z); simpl; subst;
    repeat (apply NoDup_cons; split;
            [rewrite ?elem_of_cons, elem_of_nil; intros Hx;
             repeat destruct Hx as [Hx|Hx]; try done; injection Hx; lia|]);
    apply NoDup_nil_2.
Qed.

Lemma elem_of_concat {A} (x : A) (ls : list (list A)) :
  x ∈ concat ls → ∃ l, x ∈ l ∧ l ∈ ls.
Proof.
  induction ls as [|k ls IH]; simpl; intros Hx.
  - by apply elem_of_nil in Hx.
  - apply elem_of_app in Hx as [Hx|Hx].
    + exists k. split; [done|by left].
    + destruct (IH Hx) as (l & Hl & Hin). exists l. split; [done|by right].
Qed.

(** X18: on a grid of [n] columns and [n] rows, the points at which the
    vertices of a square may be drawn are distinct, when the vertices of the
    square are distinct vertices of the grid. *)
Theorem possible_vertices_distinct n vertices square pv :
  (0 < n)%Z →
  NoDup square →
  Forall (λ p, (0 ≤ p.1 < n)%Z ∧ (0 ≤ p.2 < n)%Z) square →
  possible_vertices (vertexmap_of n vertices) square = Ok pv →
  NoDup pv.
Proof.
  intros Hn Hnd Hin Hpv. rewrite (possible_vertices_Ok _ _ _ _ Hpv).
  clear Hpv. induction square as [|p rest IH]; simpl; [apply NoDup_nil_2|].
  apply NoDup_cons in Hnd as [Hp Hnd].
  apply Forall_cons_1 in Hin as [[Hp1 Hp2] Hin].
  apply NoDup_app. split_and!.
  - apply vertex_copies_NoDup. lia.
  - intros q Hq Hq'. apply elem_of_concat in Hq' as (l & Hq' & Hl).
    apply list_elem_of_fmap in Hl as (p' & -> & Hp').
    rewrite List.Forall_forall in Hin.
    assert (Hp'in : (0 ≤ p'.1 < n)%Z ∧ (0 ≤ p'.2 < n)%Z).
    { apply Hin. by apply list_elem_of_In. }
    destruct Hp'in as [Hp'1 Hp'2].
    pose proof (vertex_copies_origin n p q Hn Hp1 Hp2 Hq) as Ho.
    pose proof (vertex_copies_origin n p' q Hn Hp'1 Hp'2 Hq') as Ho'.
    apply Hp. congruence.
  - by apply IH.
Qed.

(** X19: the rectangles added for a square. When the points at which the
    vertices of the square may be drawn are distinct, the round of the loop
    completes, and every rectangle it adds is anchored at the lower left
    corner of a cell of the grid whose four corners are among those
    points. *)
Theorem square_anchors_unit vertexmap square pv :
  possible_vertices vertexmap square = Ok pv →
  NoDup pv →
  ∃ anchors,
    square_anchors vertexmap square = Ok anchors
    ∧ ∀ a corner,
        a ∈ anchors →
        corner ∈ [a; (a.1 + 1, a.2); (a.1, a.2 + 1); (a.1 + 1, a.2 + 1)]%Z →
        corner ∈ pv.
Proof.
  intros Hpv Hnd. unfold square_anchors. rewrite Hpv. simpl.
  set (squares := filter (λ sq, dist sq = 4) (combinations 4 pv)).
  assert (Hsq : ∀ sq, sq ∈ squares →
            ∃ x y, sorted_points sq !! 0 = Some (x, y)
                   ∧ ∀ corner,
                       corner ∈ [(x, y); (x + 1, y); (x, y + 1);
                                 (x + 1, y + 1)]%Z →
                       corner ∈ pv).
  { intros sq Hin. apply list_elem_of_filter in Hin as [Hdist Hin].
    apply combinations_sublist in Hin as [Hlen Hsub].
    destruct sq as [|p1 [|p2 [|p3 [|p4 [|? ?]]]]]; try done.
    pose proof (sublist_NoDup _ _ Hnd Hsub) as Hnd4.
    destruct (unit_square_bounds p1 p2 p3 p4 Hnd4 Hdist) as (x & y & Hcell).
    destruct (sorted_points_head [p1; p2; p3; p4] ltac:(done))
      as (m & Hm & Hmin & Hle).
    assert (Hxy : (x, y) ∈ [p1; p2; p3; p4]).
    { apply (cell_cover x y); [done|done|]. by left. }
    assert (m = (x, y)) as ->.
    { rewrite Forall_forall in Hcell, Hle.
      specialize (Hcell m Hmin). specialize (Hle (x, y) Hxy).
      unfold lex_le in Hle. destruct m as [mx my]. simpl in *.
      f_equal; lia. }
    exists x, y. split; [done|]. intros corner Hc.
    eapply elem_of_sublist; [|exact Hsub]. by apply (cell_cover x y). }
  clearbody squares.
  induction squares as [|sq rest IH]; simpl.
  - exists []. split; [done|]. intros a corner Ha. by apply elem_of_nil in Ha.
  - destruct (Hsq sq ltac:(by left)) as (x & y & Hhead & Hcorners).
    destruct IH as (anchors & Hrest & Hall).
    { intros sq' Hin. apply Hsq. by right. }
    assert (Hget : getitem (sorted_points sq) 0 = Ok (x, y))
      by (unfold getitem; by rewrite Hhead).
    rewrite Hget. simpl. rewrite Hrest. simpl.
    exists ((x, y) :: anchors). split; [done|].
    intros a corner [->|Ha]%elem_of_cons Hc; [by apply Hcorners|].
    by apply (Hall a).
Qed.

Lemma mod_step n x : (3 ≤ n)%Z → (0 ≤ x < n)%Z →
  ((x + 1) `mod` n)%Z = if decide (x = n - 1)%Z then 0%Z else (x + 1)%Z.
Proof.
  intros Hn Hx. case_decide.
  - subst x. replace (n - 1 + 1)%Z with n by lia. apply Z_mod_same_full.
  - apply Z.mod_small. lia.
Qed.

(** One candidate of the filter of [compatibleEdges] is kept or dropped. *)
Ltac filter_step :=
  rewrite filter_cons;
  let Hc := fresh "Hc" in
  destruct (decide (compatible _ _)) as [Hc|Hc];
  [ try (exfalso; unfold compatible in Hc; simpl in Hc; lia)
  | try (exfalso; apply Hc; unfold compatible; simpl; lia) ];
  clear Hc.

(** The segments of an edge whose endpoints have been looked up. *)
Ltac segments :=
  unfold vertex_copies, product; cbn [fst snd];
  repeat (match goal with
          | |- context [decide (?a = 0)%Z] =>
              destruct (decide (a = 0)%Z); try lia
          end);
  cbn [mbind list_bind app mret list_ret result_bind];
  repeat filter_step; rewrite filter_nil;
  simpl; repeat f_equal; lia.

(** X20: every edge of the torus is drawn once. On a grid of [n >= 3]
    columns and [n] rows, [compatibleEdges] holds exactly one segment for the
    edge from the vertex [(x, y)] to its neighbour on the right, and one for
    the edge to its neighbour above, in either order of the endpoints: the
    unit segment that starts at [(x, y)], also when the neighbour is reached
    around the torus. *)
Theorem compatibleEdges_once n vertices x y :
  (3 ≤ n)%Z → (0 ≤ x < n)%Z → (0 ≤ y < n)%Z →
  let vertexmap := vertexmap_of n vertices in
  let u := (x, y) in
  let right := (((x + 1) `mod` n)%Z, y) in
  let up := (x, ((y + 1) `mod` n)%Z) in
  u ∈ vertices →
  (right ∈ vertices →
   compatibleEdges vertexmap (n, n) (u, right)
   = Ok [((x, x + 1), (y, y))]%Z
   ∧ compatibleEdges vertexmap (n, n) (right, u)
     = Ok [((x + 1, x), (y, y))]%Z)
  ∧ (up ∈ vertices →
     compatibleEdges vertexmap (n, n) (u, up)
     = Ok [((x, x), (y, y + 1))]%Z
     ∧ compatibleEdges vertexmap (n, n) (up, u)
       = Ok [((x, x), (y + 1, y))]%Z).
Proof.
  intros Hn Hx Hy vertexmap u right up Hu.
  subst vertexmap u right up.
  unfold compatibleEdges, getpoint. simpl fst; simpl snd.
  split; intros Hv; rewrite !vertexmap_of_lookup;
    rewrite !decide_True by done; rewrite mod_step in * by lia.
  - destruct (decide (x = n - 1)%Z); split; segments.
  - destruct (decide (y = n - 1)%Z); split; segments.
Qed.

Lemma shortestPath_first_shortest_witness :
  ∃ anti,
    antipodes 3 3 = Ok anti
    ∧ let cycles := [[0; 1; 2; 5; 4; 3]; [0; 1; 2]; [1; 2; 0]; [4; 5]] in
      let B := essential_cycles 3 3 9 anti cycles in
      B ≠ [] →
      ∃ c pre post,
        B = pre ++ c :: post
        ∧ Forall (λ d, length c < length d) pre
        ∧ Forall (λ d, length c ≤ length d) post
        ∧ shortestPath any_graph (fixed_cycles cycles) bottom_ring [1; 1; 1]%Z
          = (z ← last_item c;
             mapM (endpoints bottom_ring) (zip (z :: removelast c) c)).
Proof.
  assert (Ha : ∃ anti, antipodes 3 3 = Ok anti) by (vm_compute; eauto).
  destruct Ha as [anti Ha]. exists anti. split; [exact Ha|].
  exact (proj2 (shortestPath_first_shortest any_graph
                  (fixed_cycles
                     [[0; 1; 2; 5; 4; 3]; [0; 1; 2]; [1; 2; 0]; [4; 5]])
                  bottom_ring [1; 1; 1]%Z 9 0 [[0; 1]; [1; 2]; [2; 0]] ()
                  anti eq_refl eq_refl eq_refl eq_refl Ha)).
Defined.

Lemma shortestPath_closed_witness :
  let path := [((2, 0), (0, 0)); ((0, 0), (1, 0)); ((1, 0), (2, 0))]%Z in
  shortestPath checked_graph (fixed_cycles [[0; 1; 2]]) bottom_ring
    [1; 1; 1]%Z = Ok path
  ∧ ∀ i e e',
      path !! i = Some e → path !! (S i mod 3) = Some e' → e'.1 = e.2.
Proof.
  intros path.
  assert (Hp : shortestPath checked_graph (fixed_cycles [[0; 1; 2]])
                 bottom_ring [1; 1; 1]%Z = Ok path)
    by (vm_compute; reflexivity).
  split; [exact Hp|].
  exact (proj2 (shortestPath_closed checked_graph (fixed_cycles [[0; 1; 2]])
                  bottom_ring [1; 1; 1]%Z path Hp)).
Defined.

Lemma shortestPath_raises_witness :
  let flat := mkLattice (skeleta bottom_ring) (boundary bottom_ring)
                (cells bottom_ring) (0, 3)%Z in
  shortestPath checked_graph (fixed_cycles [[0; 1; 2]]) bottom_ring [1; 1]%Z
  = Raise IndexError
  ∧ shortestPath checked_graph (fixed_cycles [[0; 1; 2]]) flat [1; 1; 1]%Z
    = Raise ValueError.
Proof.
  intros flat. split.
  - destruct (shortestPath_raises checked_graph (fixed_cycles [[0; 1; 2]])
                bottom_ring [1; 1]%Z) as (_ & _ & Hshort & _).
    apply (Hshort 9 0); [reflexivity|reflexivity|].
    vm_compute. lia.
  - destruct (shortestPath_raises checked_graph (fixed_cycles [[0; 1; 2]])
                flat [1; 1; 1]%Z) as (_ & _ & _ & _ & Hrange).
    apply (Hrange 9 0 [[0; 1]; [1; 2]; [2; 0]] ());
      [reflexivity|reflexivity|reflexivity| |reflexivity].
    vm_compute. reflexivity.
Defined.

Lemma antipodes_boundary_witness :
  ∃ m, antipodes 4 3 = Ok m
       ∧ m !! 2%Z = Some [10]%Z
       ∧ m !! 4%Z = Some [7]%Z
       ∧ ¬ is_Some (m !! 7%Z).
Proof.
  destruct (antipodes_boundary 4 3 ltac:(lia) ltac:(lia))
    as (m & Hm & Hkeys & _ & Hbottom & Hleft).
  exists m. split; [exact Hm|]. split_and!.
  - exact (Hbottom 2%Z ltac:(lia)).
  - exact (Hleft 1%Z ltac:(lia)).
  - intros Hk. apply Hkeys in Hk as [Hk|[(y & Hy & Hk)|Hk]]; lia.
Defined.

Lemma possible_vertices_distinct_witness :
  let square := [(2, 2); (0, 2); (2, 0); (0, 0)]%Z in
  let pv := [(2, 2); (0, 2); (3, 2); (2, 0); (2, 3); (0, 0); (0, 3); (3, 0);
             (3, 3)]%Z in
  NoDup square
  ∧ Forall (λ p, (0 ≤ p.1 < 3)%Z ∧ (0 ≤ p.2 < 3)%Z) square
  ∧ possible_vertices torus_map square = Ok pv
  ∧ NoDup pv.
Proof.
  intros square pv.
  assert (Hnd : NoDup square) by (by apply (bool_decide_unpack _)).
  assert (Hin : Forall (λ p, (0 ≤ p.1 < 3)%Z ∧ (0 ≤ p.2 < 3)%Z) square)
    by (repeat constructor; simpl; lia).
  assert (Hpv : possible_vertices torus_map square = Ok pv)
    by (vm_compute; reflexivity).
  split; [exact Hnd|]. split; [exact Hin|]. split; [exact Hpv|].
  exact (possible_vertices_distinct 3
           [(0, 0); (1, 0); (2, 0); (0, 1); (1, 1); (2, 1); (0, 2); (1, 2);
            (2, 2)]%Z square pv ltac:(lia) Hnd Hin Hpv).
Defined.

Lemma square_anchors_unit_witness :
  let square := [(2, 2); (0, 2); (2, 0); (0, 0)]%Z in
  let pv := [(2, 2); (0, 2); (3, 2); (2, 0); (2, 3); (0, 0); (0, 3); (3, 0);
             (3, 3)]%Z in
  possible_vertices torus_map square = Ok pv
  ∧ NoDup pv
  ∧ ∃ anchors,
      square_anchors torus_map square = Ok anchors
      ∧ ∀ a corner,
          a ∈ anchors →
          corner ∈ [a; (a.1 + 1, a.2); (a.1, a.2 + 1); (a.1 + 1, a.2 + 1)]%Z →
          corner ∈ pv.
Proof.
  intros square pv.
  assert (Hpv : possible_vertices torus_map square = Ok pv)
    by (vm_compute; reflexivity).
  assert (Hnd : NoDup pv) by (by apply (bool_decide_unpack _)).
  split; [exact Hpv|]. split; [exact Hnd|].
  exact (square_anchors_unit torus_map square pv Hpv Hnd).
Defined.

Lemma compatibleEdges_once_witness :
  (2, 0)%Z ∈ [(0, 0); (1, 0); (2, 0); (0, 1); (1, 1); (2, 1); (0, 2); (1, 2);
              (2, 2)]%Z
  ∧ compatibleEdges torus_map (3, 3)%Z ((2, 0), (0, 0))%Z
    = Ok [((2, 3), (0, 0))]%Z
  ∧ compatibleEdges torus_map (3, 3)%Z ((2, 1), (2, 0))%Z
    = Ok [((2, 2), (1, 0))]%Z.
Proof.
  assert (Hu : (2, 0)%Z ∈ [(0, 0); (1, 0); (2, 0); (0, 1); (1, 1); (2, 1);
                           (0, 2); (1, 2); (2, 2)]%Z)
    by (by apply (bool_decide_unpack _)).
  destruct (compatibleEdges_once 3 _ 2 0 ltac:(lia) ltac:(lia) ltac:(lia) Hu)
    as [Hright Hup].
  split; [exact Hu|]. split.
  - apply Hright. by apply (bool_decide_unpack _).
  - apply Hup. by apply (bool_decide_unpack _).
Defined.

(** On a grid of two columns and two rows an edge is drawn twice. *)
Example small_grid_repeats :
  compatibleEdges (vertexmap_of 2 [(0, 0); (1, 0); (0, 1); (1, 1)]%Z)
    (2, 2)%Z ((0, 0), (1, 0))%Z
  = Ok [((0, 1), (0, 0)); ((2, 1), (0, 0))]%Z.
Proof. vm_compute. reflexivity. Qed.

(** On a grid of two columns and three rows the vertex map repeats points
    (line 115 uses [xlim] for both axes): the square that wraps around the
    top row is given six rectangles, five of them at the same place. *)
Example tall_grid_repeats :
  possible_vertices tall_map [(0, 2); (1, 2); (0, 0); (1, 0)]%Z
  = Ok [(0, 2); (2, 2); (1, 2); (0, 0); (0, 2); (2, 0); (2, 2); (1, 0);
        (1, 2)]%Z
  ∧ square_anchors tall_map [(0, 2); (1, 2); (0, 0); (1, 0)]%Z
    = Ok [(0, 2); (0, 2); (0, 2); (0, 2); (1, 2); (0, 2)]%Z.
Proof. split; vm_compute; reflexivity. Qed.

End VizFacts.
